(** * Dirac++ / Lorentz++ : four-vectors and the cross-section engine

    A shallow embedding of [TFourVectorReal.h] and of the spin sums, the
    Dirac-matrix chains and the control flow of [TCrossSection.cxx].

    Numbers.  [LDouble_t] is read as a real number: every arithmetic
    operation of the source is the exact operation on [R], and [sqrt] is the
    real square root (the source only calls it on non-negative arguments).
    Rounding, infinities and NaN are outside this model. *)

From Stdlib Require Import Reals Lra Lia ZArith List String Bool Permutation RNsatz.
Import ListNotations.
Open Scope R_scope.

(** ** Scalars *)

Abbreviation LDouble_t := R (only parsing).
Abbreviation Int_t := Z (only parsing).
Abbreviation Bool_t := bool (only parsing).

(** The comparison [a < b] of two [LDouble_t], as a [Bool_t]. *)
Definition Rlt_bool (a b : LDouble_t) : Bool_t :=
  if Rlt_dec a b then true else false.

(** [inline LDouble_t sqr(LDouble_t x) { return x*x; }] *)
Definition sqr (x : LDouble_t) : LDouble_t := x * x.

(** ** ROOT's [Error(location, message)]

    [Error] prints a diagnostic and returns: it does not unwind the caller.
    The diagnostics issued so far are the only state the methods below
    touch; they are threaded explicitly. *)

Record ErrorRecord : Type := mkError { location : string; message : string }.

Definition ErrLog : Type := list ErrorRecord.

Definition Eff (A : Type) : Type := ErrLog -> A * ErrLog.

Definition ret {A : Type} (a : A) : Eff A := fun l => (a, l).

Definition bind {A B : Type} (m : Eff A) (k : A -> Eff B) : Eff B :=
  fun l => let (a, l') := m l in k a l'.

Definition Error (loc msg : string) : Eff unit :=
  fun l => (tt, l ++ [mkError loc msg]).

Declare Scope eff_scope.
Delimit Scope eff_scope with eff.
Notation "x <- m ;; k" := (bind m (fun x => k))
  (at level 61, m at next level, right associativity) : eff_scope.
Notation "m ;; k" := (bind m (fun _ => k))
  (at level 61, right associativity) : eff_scope.

(** ** TFourVectorReal *)

(** The four components [fVector[0..3]] = (t, x, y, z). *)
Record TFourVectorReal : Type := FourVector {
  vt : LDouble_t;
  vx : LDouble_t;
  vy : LDouble_t;
  vz : LDouble_t
}.

(** [fVector[k]] for a subscript the C++ array really has; reading the
    array elsewhere is not something the methods below ever do. *)
Definition fVector (v : TFourVectorReal) (k : Int_t) : LDouble_t :=
  match k with
  | 0%Z => vt v
  | 1%Z => vx v
  | 2%Z => vy v
  | 3%Z => vz v
  | _ => 0
  end.

Arguments fVector v k%_Z.

(** [void GetCoord(LDouble_t *array) const] : the four components in order. *)
Definition GetCoord (v : TFourVectorReal) : list LDouble_t :=
  [fVector v 0; fVector v 1; fVector v 2; fVector v 3].

(** Modelled from the spec: [TThreeVectorReal::LengthSqr] (the base class
    [TThreeVectorReal.h] is not among the sources); the spec gives the
    invariant as t^2 - x^2 - y^2 - z^2, so the squared length of the
    spatial part is x^2 + y^2 + z^2. *)
Definition LengthSqr (v : TFourVectorReal) : LDouble_t :=
  fVector v 1 * fVector v 1 + fVector v 2 * fVector v 2 + fVector v 3 * fVector v 3.

(** Modelled from the spec: [TThreeVectorReal::Length], the length of the
    spatial part. *)
Definition Length (v : TFourVectorReal) : LDouble_t := sqrt (LengthSqr v).

Definition InvariantSqr (v : TFourVectorReal) : LDouble_t :=
  fVector v 0 * fVector v 0 - LengthSqr v.

Definition ScalarProd (v other : TFourVectorReal) : LDouble_t :=
  fVector v 0 * fVector other 0 -
  fVector v 1 * fVector other 1 -
  fVector v 2 * fVector other 2 -
  fVector v 3 * fVector other 3.

(** [DistanceTo(const TFourVectorReal &vec2)] *)
Definition DistanceTo (v vec2 : TFourVectorReal) : LDouble_t :=
  let t := fVector v 0 - fVector vec2 0 in
  let x := fVector v 1 - fVector vec2 1 in
  let y := fVector v 2 - fVector vec2 2 in
  let z := fVector v 3 - fVector vec2 3 in
  sqrt (t * t + x * x + y * y + z * z).

Definition Zero : TFourVectorReal := FourVector 0 0 0 0.

(** [operator+=], [operator-=], [operator*=], [operator/=] return the
    updated object; the free operators copy their first argument and apply
    them. *)
Definition plus_assign (v source : TFourVectorReal) : TFourVectorReal :=
  FourVector (fVector v 0 + fVector source 0) (fVector v 1 + fVector source 1)
             (fVector v 2 + fVector source 2) (fVector v 3 + fVector source 3).

Definition minus_assign (v source : TFourVectorReal) : TFourVectorReal :=
  FourVector (fVector v 0 - fVector source 0) (fVector v 1 - fVector source 1)
             (fVector v 2 - fVector source 2) (fVector v 3 - fVector source 3).

Definition times_assign (v : TFourVectorReal) (factor : LDouble_t) : TFourVectorReal :=
  FourVector (fVector v 0 * factor) (fVector v 1 * factor)
             (fVector v 2 * factor) (fVector v 3 * factor).

Definition div_assign (v : TFourVectorReal) (factor : LDouble_t) : TFourVectorReal :=
  FourVector (fVector v 0 / factor) (fVector v 1 / factor)
             (fVector v 2 / factor) (fVector v 3 / factor).

Definition operator_plus (v1 v2 : TFourVectorReal) : TFourVectorReal :=
  let result := v1 in plus_assign result v2.

Definition operator_minus (v1 v2 : TFourVectorReal) : TFourVectorReal :=
  let result := v1 in minus_assign result v2.

Definition operator_times (vec : TFourVectorReal) (factor : LDouble_t) : TFourVectorReal :=
  let result := vec in times_assign result factor.

Definition operator_neg (v : TFourVectorReal) : TFourVectorReal :=
  FourVector (- fVector v 0) (- fVector v 1) (- fVector v 2) (- fVector v 3).

(** [LDouble_t &operator[](const Int_t index) const] *)
Definition operator_index (v : TFourVectorReal) (index : Int_t) : Eff LDouble_t :=
  (if (index <? 0)%Z || (index >? 3)%Z then
     Error "TFourVectorReal::operator[]" "index out of range" ;;
     ret (fVector v 0)
   else
     ret (fVector v index))%eff.

Arguments operator_index v index%_Z.

(** The diagnostic of [operator[]]. *)
Definition index_out_of_range : ErrorRecord :=
  mkError "TFourVectorReal::operator[]" "index out of range".

(** The Euclidean size of the four components, the [scale] of
    [Resolution]. *)
Definition magnitude (v : TFourVectorReal) : LDouble_t :=
  sqrt (fVector v 0 * fVector v 0 + LengthSqr v).

Section Resolving.

(** [TThreeVectorReal::fResolution], the static resolving "distance" of
    the vector classes.  Its declaration and its value are in
    [TThreeVectorReal], which is not among the sources: a parameter. *)
Variable fResolution : LDouble_t.

Definition Resolution (v : TFourVectorReal) : LDouble_t :=
  let scale := sqrt (fVector v 0 * fVector v 0 + LengthSqr v) in
  if Rlt_bool 0 scale then fResolution * scale else fResolution.

Definition Invariant (v : TFourVectorReal) : Eff LDouble_t :=
  (let inv2 := InvariantSqr v in
   if Rlt_bool 0 inv2 then ret (sqrt inv2)
   else if Rlt_bool (- Resolution v) inv2 then ret 0
   else
     Error "TFourVectorReal::Invariant()"
           "invoked on a vector with negative norm" ;;
     ret (-1))%eff.

(** The diagnostic of [Invariant]. *)
Definition negative_norm : ErrorRecord :=
  mkError "TFourVectorReal::Invariant()" "invoked on a vector with negative norm".

Definition operator_eq (v other : TFourVectorReal) : Bool_t :=
  Rlt_bool (DistanceTo v other) (Resolution v).

Definition operator_neq (v other : TFourVectorReal) : Bool_t :=
  negb (operator_eq v other).

End Resolving.

(** ** Complex_t

    [std::complex<LDouble_t>] : a real and an imaginary part. *)

Record Complex_t : Type := mkComplex { real : LDouble_t; imag : LDouble_t }.

Definition Czero : Complex_t := mkComplex 0 0.
Definition Cone : Complex_t := mkComplex 1 0.
Definition Ci : Complex_t := mkComplex 0 1.

Definition Cadd (a b : Complex_t) : Complex_t :=
  mkComplex (real a + real b) (imag a + imag b).

Definition Cmul (a b : Complex_t) : Complex_t :=
  mkComplex (real a * real b - imag a * imag b)
            (real a * imag b + imag a * real b).

Definition Copp (a : Complex_t) : Complex_t := mkComplex (- real a) (- imag a).

Definition Csub (a b : Complex_t) : Complex_t := Cadd a (Copp b).

(** [std::conj] *)
Definition conj (a : Complex_t) : Complex_t := mkComplex (real a) (- imag a).

(** A complex number times an [LDouble_t]. *)
Definition Cscale (a : Complex_t) (k : LDouble_t) : Complex_t :=
  mkComplex (real a * k) (imag a * k).

Declare Scope complex_scope.
Delimit Scope complex_scope with C.
Bind Scope complex_scope with Complex_t.
Infix "+" := Cadd : complex_scope.
Infix "*" := Cmul : complex_scope.
Infix "-" := Csub : complex_scope.

(** ** Loops

    [for (Int_t i=0; i < n; i++) body] run on a state: the body is applied
    for i = 0, 1, ..., n-1 in this order. *)

Definition for_ {S : Type} (n : nat) (body : nat -> S -> S) (s : S) : S :=
  fold_left (fun acc i => body i acc) (seq 0 n) s.

(** ** Particles *)

(** [TPauliMatrix] as [SDM()[i][j]] reads it: a 2x2 array of [Complex_t]. *)
Definition TPauliMatrix : Type := nat -> nat -> Complex_t.

(** Modelled from the spec: [TLepton] and [TPhoton] ([TLepton.h] and
    [TPhoton.h] are not among the sources): a particle is a four-momentum,
    a mass for a lepton, and a spin-density matrix. *)
Record TLepton : Type := Lepton {
  Lepton_Mom : TFourVectorReal;
  Lepton_Mass : LDouble_t;
  Lepton_SDM : TPauliMatrix
}.

Record TPhoton : Type := Photon {
  Photon_Mom : TFourVectorReal;
  Photon_SDM : TPauliMatrix
}.

(** ** The spin sums of TCrossSection

    Each sum is the loop nest of the source over the amplitude array
    [invAmp] the function has filled before; the array is an argument. *)

Section SpinSums.

Local Open Scope complex_scope.

(** [TCrossSection::Compton], "Average over initial and final spins". *)
Definition Compton_ampSquared
    (invAmp : nat -> nat -> nat -> nat -> Complex_t)
    (eI eF : TLepton) (gI gF : TPhoton) : Complex_t :=
  for_ 2 (fun gi =>
  for_ 2 (fun gibar =>
  for_ 2 (fun gf =>
  for_ 2 (fun gfbar =>
  for_ 2 (fun hi =>
  for_ 2 (fun hibar =>
  for_ 2 (fun hf =>
  for_ 2 (fun hfbar ampSquared =>
    ampSquared + invAmp hi hf gi gf *
                 conj (invAmp hibar hfbar gibar gfbar) *
                 Lepton_SDM eI hi hibar *
                 Lepton_SDM eF hfbar hf *
                 Photon_SDM gI gi gibar *
                 Photon_SDM gF gfbar gf)))))))) Czero.

(** [AAbar[gf][gfbar] += term] on a 2x2 array. *)
Definition array2_add (A : nat -> nat -> Complex_t) (i j : nat) (term : Complex_t)
  : nat -> nat -> Complex_t :=
  fun i' j' => if (Nat.eqb i i' && Nat.eqb j j')%bool then A i' j' + term else A i' j'.

(** [TCrossSection::Bremsstrahlung], "Sum over spins": the loop also fills
    [AAbar], which only the debugging message reads.  The state is
    ([AAbar], [ampSquared]). *)
Definition Bremsstrahlung_sums
    (invAmp : nat -> nat -> nat -> Complex_t)
    (eI eF : TLepton) (gF : TPhoton) : (nat -> nat -> Complex_t) * Complex_t :=
  for_ 2 (fun gf =>
  for_ 2 (fun gfbar =>
  for_ 2 (fun hi =>
  for_ 2 (fun hibar =>
  for_ 2 (fun hf =>
  for_ 2 (fun hfbar st =>
    let term := invAmp hi hf gf *
                conj (invAmp hibar hfbar gfbar) *
                Lepton_SDM eI hi hibar *
                Lepton_SDM eF hfbar hf *
                Photon_SDM gF gfbar gf in
    (array2_add (fst st) gf gfbar term, snd st + term)))))))
  (fun _ _ => Czero, Czero).

Definition Bremsstrahlung_ampSquared
    (invAmp : nat -> nat -> nat -> Complex_t)
    (eI eF : TLepton) (gF : TPhoton) : Complex_t :=
  snd (Bremsstrahlung_sums invAmp eI eF gF).

(** [TCrossSection::PairProduction], "Sum over spins"; [pF] is the
    outgoing positron, [eF] the outgoing electron. *)
Definition PairProduction_ampSquared
    (invAmp : nat -> nat -> nat -> Complex_t)
    (gI : TPhoton) (eF pF : TLepton) : Complex_t :=
  for_ 2 (fun gi =>
  for_ 2 (fun gibar =>
  for_ 2 (fun hi =>
  for_ 2 (fun hibar =>
  for_ 2 (fun hf =>
  for_ 2 (fun hfbar ampSquared =>
    ampSquared + invAmp hi hf gi *
                 conj (invAmp hibar hfbar gibar) *
                 Lepton_SDM pF hi hibar *
                 Lepton_SDM eF hfbar hf *
                 Photon_SDM gI gi gibar)))))) Czero.

(** [TCrossSection::TripletProduction], "Sum over spins"; [e1] is the
    outgoing positron [pOut]. *)
Definition TripletProduction_ampSquared
    (invAmp : nat -> nat -> nat -> nat -> nat -> Complex_t)
    (g0 : TPhoton) (e0 e1 e2 e3 : TLepton) : Complex_t :=
  for_ 2 (fun gi =>
  for_ 2 (fun gibar =>
  for_ 2 (fun h0 =>
  for_ 2 (fun h0bar =>
  for_ 2 (fun h1 =>
  for_ 2 (fun h1bar =>
  for_ 2 (fun h2 =>
  for_ 2 (fun h2bar =>
  for_ 2 (fun h3 =>
  for_ 2 (fun h3bar ampSquared =>
    ampSquared + invAmp h0 h1 h2 h3 gi *
                 conj (invAmp h0bar h1bar h2bar h3bar gibar) *
                 Lepton_SDM e0 h0 h0bar *
                 Lepton_SDM e1 h1 h1bar *
                 Lepton_SDM e2 h2bar h2 *
                 Lepton_SDM e3 h3bar h3 *
                 Photon_SDM g0 gi gibar)))))))))) Czero.

(** [TCrossSection::eeBremsstrahlung], "Sum over spins". *)
Definition eeBremsstrahlung_ampSquared
    (invAmp : nat -> nat -> nat -> nat -> nat -> Complex_t)
    (e0 e1 e2 e3 : TLepton) (g0 : TPhoton) : Complex_t :=
  for_ 2 (fun gf =>
  for_ 2 (fun gfbar =>
  for_ 2 (fun h0 =>
  for_ 2 (fun h0bar =>
  for_ 2 (fun h1 =>
  for_ 2 (fun h1bar =>
  for_ 2 (fun h2 =>
  for_ 2 (fun h2bar =>
  for_ 2 (fun h3 =>
  for_ 2 (fun h3bar ampSquared =>
    ampSquared + invAmp h0 h1 h2 h3 gf *
                 conj (invAmp h0bar h1bar h2bar h3bar gfbar) *
                 Lepton_SDM e0 h0 h0bar *
                 Lepton_SDM e1 h1 h1bar *
                 Lepton_SDM e2 h2bar h2 *
                 Lepton_SDM e3 h3bar h3 *
                 Photon_SDM g0 gfbar gf)))))))))) Czero.

End SpinSums.

(** ** The spin sum as the specification words it

    A sum over all pairs (h, hbar) of index tuples of
    amplitude[h] * conj(amplitude[hbar]), weighted for each leg by its SDM
    element: [h, hbar] for a leg contracted as incoming, [hbar, h] for a
    leg contracted as outgoing. *)

Inductive Leg : Type := Incoming | Outgoing.

(** Every tuple of [n] indices in {0, 1}. *)
Fixpoint all_tuples (n : nat) : list (list nat) :=
  match n with
  | O => [[]]
  | S n' => flat_map (fun i => map (cons i) (all_tuples n')) [0%nat; 1%nat]
  end.

Definition Csum {A : Type} (l : list A) (f : A -> Complex_t) : Complex_t :=
  fold_right (fun a s => Cadd (f a) s) Czero l.

Fixpoint sdm_weight (legs : list (Leg * TPauliMatrix)) (h hbar : list nat)
  : Complex_t :=
  match legs, h, hbar with
  | (leg, rho) :: legs', i :: h', j :: hbar' =>
      Cmul (match leg with
            | Incoming => rho i j
            | Outgoing => rho j i
            end)
           (sdm_weight legs' h' hbar')
  | _, _, _ => Cone
  end.

Definition spin_sum (amplitude : list nat -> Complex_t)
    (legs : list (Leg * TPauliMatrix)) : Complex_t :=
  Csum (all_tuples (List.length legs)) (fun h =>
  Csum (all_tuples (List.length legs)) (fun hbar =>
    Cmul (Cmul (amplitude h) (conj (amplitude hbar))) (sdm_weight legs h hbar))).

(** The arrays [invAmp[..][..][..]] read at a tuple of indices. *)
Definition at3 (invAmp : nat -> nat -> nat -> Complex_t) (h : list nat) : Complex_t :=
  invAmp (nth 0 h 0%nat) (nth 1 h 0%nat) (nth 2 h 0%nat).

Definition at4 (invAmp : nat -> nat -> nat -> nat -> Complex_t) (h : list nat)
  : Complex_t :=
  invAmp (nth 0 h 0%nat) (nth 1 h 0%nat) (nth 2 h 0%nat) (nth 3 h 0%nat).

Definition at5 (invAmp : nat -> nat -> nat -> nat -> nat -> Complex_t) (h : list nat)
  : Complex_t :=
  invAmp (nth 0 h 0%nat) (nth 1 h 0%nat) (nth 2 h 0%nat) (nth 3 h 0%nat)
         (nth 4 h 0%nat).

(** ** Dirac matrices

    [TDiracMatrix.h] is not among the sources.  The operators
    [TCrossSection.cxx] applies to Dirac matrices form an interface; the
    reaction functions are written against it. *)

Class DiracMatrixOps (TDiracMatrix : Type) : Type := {
  (** [operator*(const TDiracMatrix &, const TDiracMatrix &)] *)
  dm_mul : TDiracMatrix -> TDiracMatrix -> TDiracMatrix;
  (** [operator+(const TDiracMatrix &, const TDiracMatrix &)] *)
  dm_add : TDiracMatrix -> TDiracMatrix -> TDiracMatrix;
  (** [operator+(const TDiracMatrix &, const LDouble_t &)] *)
  dm_add_scalar : TDiracMatrix -> LDouble_t -> TDiracMatrix;
  (** [operator*=(const LDouble_t &)] *)
  dm_scale : TDiracMatrix -> LDouble_t -> TDiracMatrix;
  (** [operator/=(const LDouble_t &)] *)
  dm_div : TDiracMatrix -> LDouble_t -> TDiracMatrix
}.

Declare Scope dirac_scope.
Delimit Scope dirac_scope with dirac.
Infix "*" := dm_mul : dirac_scope.
Infix "+" := dm_add : dirac_scope.

Section Chains.

Context {TDiracMatrix : Type} {ops : DiracMatrixOps TDiracMatrix}.
Local Open Scope dirac_scope.

(** The chain of one diagram pair as the Feynman rules give it: two
    triple products vertex * propagator * vertex, summed, times the photon
    propagator. *)
Definition vertex_propagator_chain
    (gamma_mu eprop_a eprop_b eps : TDiracMatrix) (gprop : LDouble_t)
  : TDiracMatrix :=
  dm_scale (gamma_mu * eprop_a * eps + eps * eprop_b * gamma_mu) gprop.

(** [TCrossSection::TripletProduction], "Compute the product chains of
    Dirac matrices": [CD2], [BH2], [CD3], [BH3]. *)
Definition TripletProduction_CD2
    (gamma_mu epropCD2a epropCD2b epsI : TDiracMatrix) (gpropCD2 : LDouble_t)
  : TDiracMatrix :=
  let CD2 := gamma_mu * epropCD2a * epsI + epsI * epropCD2b * gamma_mu in
  dm_scale CD2 gpropCD2.

Definition TripletProduction_BH2
    (gamma_mu epropBH2a epropBH2b epsI : TDiracMatrix) (gpropBH2 : LDouble_t)
  : TDiracMatrix :=
  let BH2 := gamma_mu * epropBH2a * epsI + epsI * epropBH2b * gamma_mu in
  dm_scale BH2 gpropBH2.

Definition TripletProduction_CD3
    (gamma_mu epropCD3a epropCD3b epsI : TDiracMatrix) (gpropCD3 : LDouble_t)
  : TDiracMatrix :=
  let CD3 := gamma_mu * epropCD3a * epsI + epsI * epropCD3b * gamma_mu in
  dm_scale CD3 gpropCD3.

Definition TripletProduction_BH3
    (gamma_mu epropBH3a epropBH3b epsI : TDiracMatrix) (gpropBH3 : LDouble_t)
  : TDiracMatrix :=
  let BH3 := gamma_mu * epropBH3a * epsI + epsI * epropBH3b * gamma_mu in
  dm_scale BH3 gpropBH3.

(** [TCrossSection::eeBremsstrahlung], "Compute the product chains of
    Dirac matrices": [A], [B], [C], [D], operator by operator as the
    source has them. *)
Definition eeBremsstrahlung_A
    (gamma_mu epropA1 epropA2 epsF : TDiracMatrix) (gpropA : LDouble_t)
  : TDiracMatrix :=
  let A := gamma_mu * epropA1 * epsF + epsF * epropA2 * gamma_mu in
  dm_scale A gpropA.

Definition eeBremsstrahlung_B
    (gamma_mu epropB1 epropB2 epsF : TDiracMatrix) (gpropB : LDouble_t)
  : TDiracMatrix :=
  let B := gamma_mu + epropB1 * epsF + epsF * epropB2 * gamma_mu in
  dm_scale B gpropB.

Definition eeBremsstrahlung_C
    (gamma_mu epropC1 epropC2 epsF : TDiracMatrix) (gpropC : LDouble_t)
  : TDiracMatrix :=
  let C := gamma_mu + epropC1 * epsF + epsF * epropC2 * gamma_mu in
  dm_scale C gpropC.

Definition eeBremsstrahlung_D
    (gamma_mu epropD1 epropD2 epsF : TDiracMatrix) (gpropD : LDouble_t)
  : TDiracMatrix :=
  let D := gamma_mu + epropD1 * epsF + epsF * epropD2 * gamma_mu in
  dm_scale D gpropD.

End Chains.

(** Modelled from the spec: [TDiracMatrix] ([TDiracMatrix.h] and
    [TDiracMatrix.cxx] are not among the sources): a 4x4 complex matrix;
    matrices compose under ordinary matrix multiplication, add entry by
    entry, and a real scalar stands for that multiple of the unit matrix. *)
Definition Mat4 : Type := nat -> nat -> Complex_t.

Definition Mat4_mul (a b : Mat4) : Mat4 :=
  fun i j => Csum (seq 0 4) (fun k => Cmul (a i k) (b k j)).

Definition Mat4_add (a b : Mat4) : Mat4 := fun i j => Cadd (a i j) (b i j).

Definition Mat4_add_scalar (a : Mat4) (m : LDouble_t) : Mat4 :=
  fun i j => if Nat.eqb i j then Cadd (a i j) (mkComplex m 0) else a i j.

Definition Mat4_scale (a : Mat4) (k : LDouble_t) : Mat4 :=
  fun i j => Cscale (a i j) k.

Definition Mat4_div (a : Mat4) (k : LDouble_t) : Mat4 :=
  fun i j => mkComplex (real (a i j) / k) (imag (a i j) / k).

#[export] Instance Mat4_ops : DiracMatrixOps Mat4 := {
  dm_mul := Mat4_mul;
  dm_add := Mat4_add;
  dm_add_scalar := Mat4_add_scalar;
  dm_scale := Mat4_scale;
  dm_div := Mat4_div
}.

(** Modelled from the spec: [kDiracGamma0], the time-like matrix of the
    gamma basis, in the Dirac representation diag(1, 1, -1, -1); its square
    is the unit matrix, as the anticommutation relation asks. *)
Definition kDiracGamma0 : Mat4 :=
  fun i j =>
    if Nat.eqb i j then (if Nat.ltb i 2 then Cone else Copp Cone) else Czero.

(** ** Function bodies with [return]

    A statement either completes normally or returns a value from the
    enclosing function; what follows a [return] is skipped. *)

Inductive Completion (A : Type) : Type :=
| Normal (a : A)
| Returned (value : LDouble_t).

Arguments Normal {A} a.
Arguments Returned {A} value.

Definition Stmt (A : Type) : Type := ErrLog -> Completion A * ErrLog.

Definition step {A : Type} (m : Eff A) : Stmt A :=
  fun l => let (a, l') := m l in (Normal a, l').

Definition return_ (value : LDouble_t) : Stmt unit :=
  fun l => (Returned value, l).

Definition then_ {A B : Type} (m : Stmt A) (k : A -> Stmt B) : Stmt B :=
  fun l =>
    match m l with
    | (Normal a, l') => k a l'
    | (Returned value, l') => (Returned value, l')
    end.

(** Calling a function whose body is [body]: the value it returns, or
    nothing when control runs off the end of a value-returning function. *)
Definition call (body : Stmt unit) : Eff (option LDouble_t) :=
  fun l =>
    match body l with
    | (Returned value, l') => (Some value, l')
    | (Normal _, l') => (None, l')
    end.

Declare Scope stmt_scope.
Delimit Scope stmt_scope with stmt.
Notation "x <- m ;; k" := (then_ m (fun x => k))
  (at level 61, m at next level, right associativity) : stmt_scope.
Notation "m ;; k" := (then_ m (fun _ => k))
  (at level 61, right associativity) : stmt_scope.

(** ** TCrossSection::Compton *)

(** The helicity of the spinor stored at [u[h]]: [+0.5] at 0, [-0.5] at 1. *)
Definition helicity (h : nat) : LDouble_t :=
  match h with
  | O => 1 / 2
  | _ => - (1 / 2)
  end.

Section Compton.

Context {TDiracMatrix : Type} {ops : DiracMatrixOps TDiracMatrix}.

(** What [TDiracSpinor.h], [TFourVectorComplex.h], [TPhoton.h] and
    [TCrossSection.h] declare and the sources given do not include. *)
Variables TDiracSpinor TFourVectorComplex : Type.
Variable Slash : TFourVectorReal -> TDiracMatrix.
Variable SlashComplex : TFourVectorComplex -> TDiracMatrix.
Variable dm_apply : TDiracMatrix -> TDiracSpinor -> TDiracSpinor.
Variable Spinor_ScalarProd : TDiracSpinor -> TDiracSpinor -> Complex_t.
Variable SetStateU : TFourVectorReal -> LDouble_t -> TDiracSpinor.
Variables Eps EpsStar : TPhoton -> Int_t -> TFourVectorComplex.
Variables hbarcSqr alphaQED : LDouble_t.

(** "Evaluate the leading order Feynman amplitude": the loops assign every
    entry [invAmp[hi][hf][gi][gf]] once; the array is given by its entries. *)
Definition Compton_invAmp (gI : TPhoton) (eI : TLepton) (gF : TPhoton) (eF : TLepton)
  : nat -> nat -> nat -> nat -> Complex_t :=
  let uI := fun h => SetStateU (Lepton_Mom eI) (helicity h) in
  let uF := fun h => SetStateU (Lepton_Mom eF) (helicity h) in
  let mLepton := Lepton_Mass eI in
  let edenom1 := 2 * ScalarProd (Lepton_Mom eI) (Photon_Mom gI) in
  let edenom2 := -2 * ScalarProd (Lepton_Mom eI) (Photon_Mom gF) in
  let ePropagator1 :=
    dm_add_scalar (Slash (operator_plus (Lepton_Mom eI) (Photon_Mom gI))) mLepton in
  let ePropagator2 :=
    dm_add_scalar (Slash (operator_minus (Lepton_Mom eI) (Photon_Mom gF))) mLepton in
  let ePropagator1 := dm_div ePropagator1 edenom1 in
  let ePropagator2 := dm_div ePropagator2 edenom2 in
  fun hi hf gi gf =>
    let epsI := SlashComplex (Eps gI (Z.of_nat gi + 1)%Z) in
    let epsF := SlashComplex (EpsStar gF (Z.of_nat gf + 1)%Z) in
    let D := (epsF * ePropagator1 * epsI + epsI * ePropagator2 * epsF)%dirac in
    Spinor_ScalarProd (uF hf) (dm_apply D (uI hi)).

(** The statements after [return diffXsect;]: "The unpolarized Klein
    Nishina formula is here for comparison". *)
Definition KleinNishina_statements (gI gF : TPhoton) (mLepton : LDouble_t)
  : Stmt unit :=
  (gF3 <- step (operator_index (Photon_Mom gF) 3) ;;
   gF0 <- step (operator_index (Photon_Mom gF) 0) ;;
   let sinSqrTheta := 1 - sqr (gF3 / gF0) in
   let KleinNishinaResult := sqr (alphaQED / mLepton) / 2 in
   gF0' <- step (operator_index (Photon_Mom gF) 0) ;;
   gI0' <- step (operator_index (Photon_Mom gI) 0) ;;
   let KleinNishinaResult := KleinNishinaResult * sqr (gF0' / gI0') in
   a <- step (operator_index (Photon_Mom gF) 0) ;;
   b <- step (operator_index (Photon_Mom gI) 0) ;;
   c <- step (operator_index (Photon_Mom gI) 0) ;;
   d <- step (operator_index (Photon_Mom gF) 0) ;;
   let KleinNishinaResult := KleinNishinaResult * (a / b + c / d - sinSqrTheta) in
   let KleinNishinaResult := KleinNishinaResult * hbarcSqr in
   return_ KleinNishinaResult)%stmt.

(** The body of [Compton], with the statements that follow
    [return diffXsect;] as [rest]. *)
Definition Compton_body (rest : TPhoton -> TPhoton -> LDouble_t -> Stmt unit)
    (gIn : TPhoton) (eIn : TLepton) (gOut : TPhoton) (eOut : TLepton)
  : Stmt unit :=
  (let gI := gIn in
   let eI := eIn in
   let gF := gOut in
   let eF := eOut in
   let mLepton := Lepton_Mass eI in
   let invAmp := Compton_invAmp gI eI gF eF in
   let ampSquared := Compton_ampSquared invAmp eI eF gI gF in
   gI0 <- step (operator_index (Photon_Mom gI) 0) ;;
   eI0 <- step (operator_index (Lepton_Mom eI) 0) ;;
   let fluxIn := 4 * gI0 * (Length (Lepton_Mom eI) + eI0) in
   gF0 <- step (operator_index (Photon_Mom gF) 0) ;;
   let rhoFin := sqr gF0 / ScalarProd (Lepton_Mom eF) (Photon_Mom gF) / 4 in
   let kinFactor := 4 * rhoFin / fluxIn in
   let diffXsect := hbarcSqr * sqr alphaQED * real ampSquared * kinFactor in
   return_ diffXsect ;;
   rest gI gF mLepton)%stmt.

Definition Compton (gIn : TPhoton) (eIn : TLepton) (gOut : TPhoton) (eOut : TLepton)
  : Eff (option LDouble_t) :=
  call (Compton_body KleinNishina_statements gIn eIn gOut eOut).

(** The kinematic factor of [Compton]: [4*rhoFin/fluxIn]. *)
Definition Compton_kinFactor (gIn : TPhoton) (eIn : TLepton) (gOut : TPhoton)
    (eOut : TLepton) : LDouble_t :=
  let fluxIn := 4 * vt (Photon_Mom gIn) * (Length (Lepton_Mom eIn) + vt (Lepton_Mom eIn)) in
  let rhoFin :=
    sqr (vt (Photon_Mom gOut)) / ScalarProd (Lepton_Mom eOut) (Photon_Mom gOut) / 4 in
  4 * rhoFin / fluxIn.

End Compton.

(** ** Lorentz transforms *)

(** Modelled from the spec: [TThreeVectorReal], a 3-component spatial
    vector (here a velocity). *)
Record TThreeVectorReal : Type := ThreeVector {
  beta_x : LDouble_t;
  beta_y : LDouble_t;
  beta_z : LDouble_t
}.

(** Modelled from the spec: [TLorentzTransform] ([TLorentzTransform.h] is
    not among the sources), a general 4x4 real matrix [fMatrix[i][j]]
    acting on four-vectors. *)
Definition TLorentzTransform : Type := nat -> nat -> LDouble_t.

Definition sum4 (f : nat -> LDouble_t) : LDouble_t :=
  f 0%nat + f 1%nat + f 2%nat + f 3%nat.

Definition component (v : TFourVectorReal) (mu : nat) : LDouble_t :=
  fVector v (Z.of_nat mu).

(** Modelled from the spec: [TFourVectorReal::Transform] and
    [TFourVectorReal::Boost(const TLorentzBoost &)], defined in
    [TFourVectorReal.cxx], which is not among the sources: "applying a
    transform to a FourVector is matrix-vector multiplication". *)
Definition Transform (v : TFourVectorReal) (xformOp : TLorentzTransform)
  : TFourVectorReal :=
  let row := fun mu => sum4 (fun nu => xformOp mu nu * component v nu) in
  FourVector (row 0%nat) (row 1%nat) (row 2%nat) (row 3%nat).

(** Modelled from the spec: [TFourVectorReal::Boost(const TLorentzBoost &)],
    the application of the boost's matrix. *)
Definition Boost (v : TFourVectorReal) (boostOp : TLorentzTransform)
  : TFourVectorReal :=
  Transform v boostOp.

(** Modelled from the spec: the metric G = diag(1, -1, -1, -1). *)
Definition metric (mu nu : nat) : LDouble_t :=
  if Nat.eqb mu nu then (if Nat.eqb mu 0 then 1 else -1) else 0.

(** Modelled from the spec: a physically valid [TLorentzTransform]
    preserves the Minkowski inner product, M^T G M = G. *)
Definition valid_transform (M : TLorentzTransform) : Prop :=
  forall mu nu : nat, (mu < 4)%nat -> (nu < 4)%nat ->
    sum4 (fun a => sum4 (fun b => M a mu * metric a b * M b nu)) = metric mu nu.

(** Modelled from the spec: [TLorentzBoost::SetBeta(const TThreeVectorReal &)]
    ([TLorentzBoost.cxx] is not among the sources): "the standard boost
    formula", gamma in the time-time entry, -gamma*beta cross terms, and
    delta_ij + (gamma - 1) beta_i beta_j / beta^2 in the spatial block. *)
Definition SetBeta (beta : TThreeVectorReal) : TLorentzTransform :=
  let b := fun i : nat =>
    match i with
    | 1%nat => beta_x beta
    | 2%nat => beta_y beta
    | 3%nat => beta_z beta
    | _ => 0
    end in
  let betaSqr := beta_x beta * beta_x beta + beta_y beta * beta_y beta +
                 beta_z beta * beta_z beta in
  let gamma := 1 / sqrt (1 - betaSqr) in
  fun mu nu =>
    match mu, nu with
    | O, O => gamma
    | O, _ => - gamma * b nu
    | _, O => - gamma * b mu
    | _, _ => (if Nat.eqb mu nu then 1 else 0) + (gamma - 1) * b mu * b nu / betaSqr
    end.

(** [TLorentzBoost::SetBeta(betaX, betaY, betaZ)] ([TLorentzBoost.h]). *)
Definition SetBeta3 (betaX betaY betaZ : LDouble_t) : TLorentzTransform :=
  let betaV := ThreeVector betaX betaY betaZ in
  SetBeta betaV.

(** [TLorentzBoost::Beta] and [TLorentzBoost::Gamma] ([TLorentzBoost.h]):
    the velocity and the Lorentz factor read back from the matrix. *)
Definition Beta (boostOp : TLorentzTransform) : TThreeVectorReal :=
  ThreeVector (- boostOp 0%nat 1%nat / boostOp 0%nat 0%nat)
              (- boostOp 0%nat 2%nat / boostOp 0%nat 0%nat)
              (- boostOp 0%nat 3%nat / boostOp 0%nat 0%nat).

Definition Gamma (boostOp : TLorentzTransform) : LDouble_t :=
  boostOp 0%nat 0%nat.

(** Modelled from the spec: a boost is parameterized by a 3-velocity with
    |beta| < 1. *)
Definition valid_beta (beta : TThreeVectorReal) : Prop :=
  beta_x beta * beta_x beta + beta_y beta * beta_y beta + beta_z beta * beta_z beta < 1.

(** ** Rearranging a loop nest into a sum over pairs of tuples

    The loop nests run over the indices and the barred indices
    interleaved; [split_indices] sends such a run of indices to the pair
    (h, hbar) it stands for, and [rearranges] checks that the runs of the
    nest are, up to order, all the pairs. *)

Fixpoint tuple_eqb (a b : list nat) : bool :=
  match a, b with
  | [], [] => true
  | i :: a', j :: b' => Nat.eqb i j && tuple_eqb a' b'
  | _, _ => false
  end.

Definition pair_eqb (p q : list nat * list nat) : bool :=
  tuple_eqb (fst p) (fst q) && tuple_eqb (snd p) (snd q).

Fixpoint memb (p : list nat * list nat) (l : list (list nat * list nat)) : bool :=
  match l with
  | [] => false
  | q :: l' => pair_eqb p q || memb p l'
  end.

Fixpoint nodupb (l : list (list nat * list nat)) : bool :=
  match l with
  | [] => true
  | p :: l' => negb (memb p l') && nodupb l'
  end.

Definition pick (positions : list nat) (q : list nat) : list nat :=
  map (fun i => nth i q 0%nat) positions.

Definition split_indices (ih ihbar : list nat) (q : list nat) : list nat * list nat :=
  (pick ih q, pick ihbar q).

Definition rearranges (n k : nat) (ih ihbar : list nat) : bool :=
  let l := map (split_indices ih ihbar) (all_tuples n) in
  let l' := list_prod (all_tuples k) (all_tuples k) in
  nodupb l && forallb (fun p => memb p l') l && Nat.leb (List.length l') (List.length l).


(** ** A pair-production configuration

    Amplitudes 1 and i for the two positron helicities (electron helicity
    and photon polarization fixed at the first state), and a positron
    polarized transversely: its SDM is Hermitian with imaginary
    off-diagonal elements. *)

Definition example_invAmp : nat -> nat -> nat -> Complex_t :=
  fun hi hf gi =>
    match hf, gi with
    | O, O => match hi with O => Cone | _ => Ci end
    | _, _ => Czero
    end.

Definition sdm_first_state : TPauliMatrix :=
  fun i j => match i, j with O, O => Cone | _, _ => Czero end.

Definition sdm_transverse : TPauliMatrix :=
  fun i j =>
    match i, j with
    | O, O => mkComplex (1 / 2) 0
    | O, _ => mkComplex 0 (- (1 / 2))
    | _, O => mkComplex 0 (1 / 2)
    | _, _ => mkComplex (1 / 2) 0
    end.

Definition example_gI : TPhoton := Photon (FourVector 3 0 0 3) sdm_first_state.
Definition example_eF : TLepton := Lepton (FourVector 2 0 1 1) 0.000511 sdm_first_state.
Definition example_pF : TLepton := Lepton (FourVector 1 0 (-1) 0) 0.000511 sdm_transverse.


(** ** Further methods of TFourVectorReal *)

(** [DistanceTo(const LDouble_t t, x, y, z)]: the arguments are copied and
    the components subtracted from the copies. *)
Definition DistanceTo_txyz (v : TFourVectorReal) (t x y z : LDouble_t) : LDouble_t :=
  let tloc := t in
  let xloc := x in
  let yloc := y in
  let zloc := z in
  let tloc := tloc - fVector v 0 in
  let xloc := xloc - fVector v 1 in
  let yloc := yloc - fVector v 2 in
  let zloc := zloc - fVector v 3 in
  sqrt (tloc * tloc + xloc * xloc + yloc * yloc + zloc * zloc).

(** A [const LDouble_t *array] argument is the list of the elements the
    pointer gives access to.  The methods read the first four; with fewer
    they would read outside the array, and have no result here. *)

(** [DistanceTo(const LDouble_t *array)] *)
Definition DistanceTo_array (v : TFourVectorReal) (array : list LDouble_t)
  : option LDouble_t :=
  match array with
  | a0 :: a1 :: a2 :: a3 :: _ =>
      let t := fVector v 0 - a0 in
      let x := fVector v 1 - a1 in
      let y := fVector v 2 - a2 in
      let z := fVector v 3 - a3 in
      Some (sqrt (t * t + x * x + y * y + z * z))
  | _ => None
  end.

(** [TFourVectorReal(const LDouble_t *array)] and
    [operator=(const LDouble_t *array)] *)
Definition FromArray (array : list LDouble_t) : option TFourVectorReal :=
  match array with
  | a0 :: a1 :: a2 :: a3 :: _ => Some (FourVector a0 a1 a2 a3)
  | _ => None
  end.

(** [operator+=(const LDouble_t *array)] *)
Definition plus_assign_array (v : TFourVectorReal) (array : list LDouble_t)
  : option TFourVectorReal :=
  match array with
  | a0 :: a1 :: a2 :: a3 :: _ =>
      Some (FourVector (fVector v 0 + a0) (fVector v 1 + a1)
                       (fVector v 2 + a2) (fVector v 3 + a3))
  | _ => None
  end.

(** [operator-=(const LDouble_t *array)] *)
Definition minus_assign_array (v : TFourVectorReal) (array : list LDouble_t)
  : option TFourVectorReal :=
  match array with
  | a0 :: a1 :: a2 :: a3 :: _ =>
      Some (FourVector (fVector v 0 - a0) (fVector v 1 - a1)
                       (fVector v 2 - a2) (fVector v 3 - a3))
  | _ => None
  end.

(** [GetCoord(LDouble_t &t, LDouble_t &x, LDouble_t &y, LDouble_t &z)]:
    the values written to the four references. *)
Definition GetCoord_txyz (v : TFourVectorReal)
  : LDouble_t * LDouble_t * LDouble_t * LDouble_t :=
  (fVector v 0, fVector v 1, fVector v 2, fVector v 3).

(** [operator*(const LDouble_t factor, const TFourVectorReal &vec)] *)
Definition operator_times_left (factor : LDouble_t) (vec : TFourVectorReal)
  : TFourVectorReal :=
  let result := vec in times_assign result factor.

(** [operator/(const TFourVectorReal &vec, const LDouble_t factor)] *)
Definition operator_div (vec : TFourVectorReal) (factor : LDouble_t)
  : TFourVectorReal :=
  let result := vec in div_assign result factor.


(** ** Spin-density matrices *)

(** A Hermitian 2x2 matrix: [rho[j][i]] is the conjugate of [rho[i][j]]. *)
Definition Hermitian (rho : TPauliMatrix) : Prop :=
  forall i j : nat, (i < 2)%nat -> (j < 2)%nat -> rho j i = conj (rho i j).

(** A diagonal 2x2 matrix. *)
Definition diagonal (rho : TPauliMatrix) : Prop :=
  rho 0%nat 1%nat = Czero /\ rho 1%nat 0%nat = Czero.

(** A diagonal matrix with real, non-negative diagonal elements. *)
Definition diagonal_nonneg (rho : TPauliMatrix) : Prop :=
  diagonal rho /\
  imag (rho 0%nat 0%nat) = 0 /\ imag (rho 1%nat 1%nat) = 0 /\
  0 <= real (rho 0%nat 0%nat) /\ 0 <= real (rho 1%nat 1%nat).

(** The unit matrix, the SDM of an unpolarized sum. *)
Definition unit_SDM : TPauliMatrix :=
  fun i j => if Nat.eqb i j then Cone else Czero.

(** [std::norm]: the squared modulus. *)
Definition Cnorm (a : Complex_t) : LDouble_t := real a * real a + imag a * imag a.

(** [std::abs] of a complex number. *)
Definition Cabs (a : Complex_t) : LDouble_t := sqrt (Cnorm a).

(** A complex number that is real and not negative. *)
Definition real_nonneg (a : Complex_t) : Prop := imag a = 0 /\ 0 <= real a.

(** ** Propagator denominators of the reaction functions

    Each fermion propagator is [Slash(p) + mLepton] over a denominator
    [edenom]; [p] is the momentum given to [Slash]. *)

(** A lepton momentum on the mass shell of mass [m]; a lightlike photon
    momentum. *)
Definition on_shell (p : TFourVectorReal) (m : LDouble_t) : Prop :=
  InvariantSqr p = sqr m.

Definition lightlike (k : TFourVectorReal) : Prop := InvariantSqr k = 0.

(** [TCrossSection::Compton], "Obtain the electron propagators for the two
    diagrams". *)
Definition Compton_edenom1 (gI : TPhoton) (eI : TLepton) : LDouble_t :=
  2 * ScalarProd (Lepton_Mom eI) (Photon_Mom gI).

Definition Compton_edenom2 (gF : TPhoton) (eI : TLepton) : LDouble_t :=
  -2 * ScalarProd (Lepton_Mom eI) (Photon_Mom gF).

Definition Compton_momentum1 (gI : TPhoton) (eI : TLepton) : TFourVectorReal :=
  operator_plus (Lepton_Mom eI) (Photon_Mom gI).

Definition Compton_momentum2 (gF : TPhoton) (eI : TLepton) : TFourVectorReal :=
  operator_minus (Lepton_Mom eI) (Photon_Mom gF).

(** [TCrossSection::Bremsstrahlung]: the recoil momentum and the two
    propagators. *)
Definition Bremsstrahlung_qRecoil (eI eF : TLepton) (gF : TPhoton) : TFourVectorReal :=
  operator_minus (operator_minus (Lepton_Mom eI) (Lepton_Mom eF)) (Photon_Mom gF).

Definition Bremsstrahlung_edenom1 (eI eF : TLepton) (gF : TPhoton) : LDouble_t :=
  let qRecoil := Bremsstrahlung_qRecoil eI eF gF in
  InvariantSqr qRecoil - 2 * ScalarProd qRecoil (Lepton_Mom eI).

Definition Bremsstrahlung_edenom2 (eI eF : TLepton) (gF : TPhoton) : LDouble_t :=
  let qRecoil := Bremsstrahlung_qRecoil eI eF gF in
  InvariantSqr qRecoil + 2 * ScalarProd qRecoil (Lepton_Mom eF).

Definition Bremsstrahlung_momentum1 (eI eF : TLepton) (gF : TPhoton) : TFourVectorReal :=
  operator_minus (Lepton_Mom eI) (Bremsstrahlung_qRecoil eI eF gF).

Definition Bremsstrahlung_momentum2 (eI eF : TLepton) (gF : TPhoton) : TFourVectorReal :=
  operator_plus (Lepton_Mom eF) (Bremsstrahlung_qRecoil eI eF gF).

(** [TCrossSection::PairProduction]. *)
Definition PairProduction_qRecoil (gI : TPhoton) (eF pF : TLepton) : TFourVectorReal :=
  operator_minus (operator_minus (Photon_Mom gI) (Lepton_Mom eF)) (Lepton_Mom pF).

Definition PairProduction_edenom1 (gI : TPhoton) (eF : TLepton) : LDouble_t :=
  -2 * ScalarProd (Photon_Mom gI) (Lepton_Mom eF).

Definition PairProduction_edenom2 (gI : TPhoton) (pF : TLepton) : LDouble_t :=
  -2 * ScalarProd (Photon_Mom gI) (Lepton_Mom pF).

Definition PairProduction_momentum1 (gI : TPhoton) (eF : TLepton) : TFourVectorReal :=
  operator_minus (Lepton_Mom eF) (Photon_Mom gI).

Definition PairProduction_momentum2 (gI : TPhoton) (pF : TLepton) : TFourVectorReal :=
  operator_minus (Photon_Mom gI) (Lepton_Mom pF).

(** [TCrossSection::TripletProduction], "Pre-compute the electron
    propagators": the denominators [edenomCD2a], [edenomCD2b],
    [edenomBH2a], [edenomBH2b] and the momenta of [epropCD2a], ... *)
Definition TripletProduction_edenoms (g0 : TPhoton) (e0 e1 e2 e3 : TLepton)
  : LDouble_t * LDouble_t * LDouble_t * LDouble_t :=
  (2 * ScalarProd (Photon_Mom g0) (Lepton_Mom e0),
   -2 * ScalarProd (Photon_Mom g0) (Lepton_Mom e2),
   -2 * ScalarProd (Photon_Mom g0) (Lepton_Mom e1),
   -2 * ScalarProd (Photon_Mom g0) (Lepton_Mom e3)).

Definition TripletProduction_momenta (g0 : TPhoton) (e0 e1 e2 e3 : TLepton)
  : TFourVectorReal * TFourVectorReal * TFourVectorReal * TFourVectorReal :=
  (operator_plus (Photon_Mom g0) (Lepton_Mom e0),
   operator_minus (Lepton_Mom e2) (Photon_Mom g0),
   operator_minus (Photon_Mom g0) (Lepton_Mom e1),
   operator_minus (Lepton_Mom e3) (Photon_Mom g0)).

(** "Pre-compute the photon propagators": [gpropCD2], [gpropBH2],
    [gpropCD3], [gpropBH3]. *)
Definition TripletProduction_gprops (e0 e1 e2 e3 : TLepton)
  : LDouble_t * LDouble_t * LDouble_t * LDouble_t :=
  (1 / InvariantSqr (operator_plus (Lepton_Mom e1) (Lepton_Mom e3)),
   1 / InvariantSqr (operator_minus (Lepton_Mom e0) (Lepton_Mom e2)),
   1 / InvariantSqr (operator_plus (Lepton_Mom e1) (Lepton_Mom e2)),
   1 / InvariantSqr (operator_minus (Lepton_Mom e0) (Lepton_Mom e3))).

(** [TCrossSection::eeBremsstrahlung], "Pre-compute the electron
    propagators": [edenomA1], [edenomA2], [edenomB1], [edenomB2] and the
    momenta of [epropA1], ... *)
Definition eeBremsstrahlung_edenoms (e0 e1 e2 e3 : TLepton) (g0 : TPhoton)
  : LDouble_t * LDouble_t * LDouble_t * LDouble_t :=
  (-2 * ScalarProd (Photon_Mom g0) (Lepton_Mom e0),
   2 * ScalarProd (Photon_Mom g0) (Lepton_Mom e2),
   -2 * ScalarProd (Photon_Mom g0) (Lepton_Mom e1),
   2 * ScalarProd (Photon_Mom g0) (Lepton_Mom e3)).

Definition eeBremsstrahlung_momenta (e0 e1 e2 e3 : TLepton) (g0 : TPhoton)
  : TFourVectorReal * TFourVectorReal * TFourVectorReal * TFourVectorReal :=
  (operator_minus (Lepton_Mom e0) (Photon_Mom g0),
   operator_plus (Lepton_Mom e2) (Photon_Mom g0),
   operator_minus (Lepton_Mom e1) (Photon_Mom g0),
   operator_plus (Lepton_Mom e3) (Photon_Mom g0)).

(** "Pre-compute the photon propagators": [gpropA], [gpropB], [gpropC],
    [gpropD]. *)
Definition eeBremsstrahlung_gprops (e0 e1 e2 e3 : TLepton)
  : LDouble_t * LDouble_t * LDouble_t * LDouble_t :=
  (1 / InvariantSqr (operator_minus (Lepton_Mom e1) (Lepton_Mom e3)),
   1 / InvariantSqr (operator_minus (Lepton_Mom e0) (Lepton_Mom e2)),
   1 / InvariantSqr (operator_minus (Lepton_Mom e1) (Lepton_Mom e2)),
   1 / InvariantSqr (operator_minus (Lepton_Mom e0) (Lepton_Mom e3))).

(** ** The other reaction functions of TCrossSection *)

(** [const LDouble_t PI_=2*atan2(1.,0.)]; [atan2(1., 0.)] is pi/2. *)
Definition PI_ : LDouble_t := 2 * (PI / 2).

(** A complex number divided by an [LDouble_t]. *)
Definition Cdiv_real (a : Complex_t) (k : LDouble_t) : Complex_t :=
  mkComplex (real a / k) (imag a / k).

(** [std::cout << "Warning: ..."]: the first line of the text, added to
    the diagnostics. *)
Definition cout (text : string) : Eff unit :=
  fun l => (tt, l ++ [mkError "std::cout" text]).

(** The test of the [DEBUGGING] blocks:
    [real(ampSquared) < 0 || fabs(ampSquared.imag()) > fabs(ampSquared / 1e8L)]. *)
Definition bad_amplitudes (ampSquared : Complex_t) : Bool_t :=
  Rlt_bool (real ampSquared) 0 ||
  Rlt_bool (Cabs (Cdiv_real ampSquared 1e8)) (Rabs (imag ampSquared)).

Definition warn_if_bad (ampSquared : Complex_t) (text : string) : Eff unit :=
  if bad_amplitudes ampSquared then cout text else ret tt.

(** The metric sign [((mu == 0)? +1.L : -1.L)]. *)
Definition metric_sign (mu : nat) : LDouble_t :=
  if Nat.eqb mu 0 then 1 else -1.

Section Reactions.

Context {TDiracMatrix : Type} {ops : DiracMatrixOps TDiracMatrix}.

(** What [TDiracSpinor.h], [TDiracMatrix.h], [TFourVectorComplex.h],
    [TPhoton.h] and [TCrossSection.h] declare and the sources given do not
    include. *)
Variables TDiracSpinor TFourVectorComplex : Type.
Variable Slash : TFourVectorReal -> TDiracMatrix.
Variable SlashComplex : TFourVectorComplex -> TDiracMatrix.
Variable dm_apply : TDiracMatrix -> TDiracSpinor -> TDiracSpinor.
Variable Spinor_ScalarProd : TDiracSpinor -> TDiracSpinor -> Complex_t.
Variables SetStateU SetStateV : TFourVectorReal -> LDouble_t -> TDiracSpinor.
Variables Eps EpsStar : TPhoton -> Int_t -> TFourVectorComplex.
Variable gamma : nat -> TDiracMatrix.
Variables hbarcSqr alphaQED : LDouble_t.

(** The propagator [(Slash(p) + mLepton) / edenom]. *)
Definition propagator (p : TFourVectorReal) (mLepton edenom : LDouble_t)
  : TDiracMatrix :=
  dm_div (dm_add_scalar (Slash p) mLepton) edenom.

(** [TCrossSection::Bremsstrahlung], "Evaluate the leading order Feynman
    amplitude": the entries of [invAmp]. *)
Definition Bremsstrahlung_invAmp (eI eF : TLepton) (gF : TPhoton)
  : nat -> nat -> nat -> Complex_t :=
  let uI := fun h => SetStateU (Lepton_Mom eI) (helicity h) in
  let uF := fun h => SetStateU (Lepton_Mom eF) (helicity h) in
  let mLepton := Lepton_Mass eI in
  let ePropagator1 :=
    propagator (Bremsstrahlung_momentum1 eI eF gF) mLepton
               (Bremsstrahlung_edenom1 eI eF gF) in
  let ePropagator2 :=
    propagator (Bremsstrahlung_momentum2 eI eF gF) mLepton
               (Bremsstrahlung_edenom2 eI eF gF) in
  let gamma0 := gamma 0 in
  fun hi hf gf =>
    let epsF := SlashComplex (EpsStar gF (Z.of_nat gf + 1)%Z) in
    let D := (epsF * ePropagator1 * gamma0 + gamma0 * ePropagator2 * epsF)%dirac in
    Spinor_ScalarProd (uF hf) (dm_apply D (uI hi)).

Definition Bremsstrahlung (eIn eOut : TLepton) (gOut : TPhoton) : Eff LDouble_t :=
  (let eI := eIn in
   let gF := gOut in
   let eF := eOut in
   let qRecoil := Bremsstrahlung_qRecoil eI eF gF in
   let invAmp := Bremsstrahlung_invAmp eI eF gF in
   let ampSquared := Bremsstrahlung_ampSquared invAmp eI eF gF in
   warn_if_bad ampSquared "Warning: bad Bremsstrahlung amplitudes:" ;;
   eI0 <- operator_index (Lepton_Mom eI) 0 ;;
   let kinFactor := 1 / sqr (2 * PI_ * eI0) in
   let diffXsect := hbarcSqr * alphaQED ^ 3 * real ampSquared * kinFactor /
                    sqr (InvariantSqr qRecoil) in
   ret diffXsect)%eff.

(** [TCrossSection::PairProduction]. *)
Definition PairProduction_invAmp (gI : TPhoton) (eF pF : TLepton)
  : nat -> nat -> nat -> Complex_t :=
  let uF := fun h => SetStateU (Lepton_Mom eF) (helicity h) in
  let vF := fun h => SetStateV (Lepton_Mom pF) (helicity h) in
  let mLepton := Lepton_Mass eF in
  let ePropagator1 :=
    propagator (PairProduction_momentum1 gI eF) mLepton (PairProduction_edenom1 gI eF) in
  let ePropagator2 :=
    propagator (PairProduction_momentum2 gI pF) mLepton (PairProduction_edenom2 gI pF) in
  let gamma0 := gamma 0 in
  fun hi hf gi =>
    let epsI := SlashComplex (Eps gI (Z.of_nat gi + 1)%Z) in
    let D := (epsI * ePropagator1 * gamma0 + gamma0 * ePropagator2 * epsI)%dirac in
    Spinor_ScalarProd (uF hf) (dm_apply D (vF hi)).

Definition PairProduction (gIn : TPhoton) (eOut pOut : TLepton) : Eff LDouble_t :=
  (let gI := gIn in
   let eF := eOut in
   let pF := pOut in
   let qRecoil := PairProduction_qRecoil gI eF pF in
   let invAmp := PairProduction_invAmp gI eF pF in
   let ampSquared := PairProduction_ampSquared invAmp gI eF pF in
   warn_if_bad ampSquared "Warning: bad PairProduction amplitudes:" ;;
   gI0 <- operator_index (Photon_Mom gI) 0 ;;
   let kinFactor := 1 / sqr (2 * PI_ * gI0) in
   let diffXsect := hbarcSqr * alphaQED ^ 3 * real ampSquared * kinFactor /
                    sqr (InvariantSqr qRecoil) in
   ret diffXsect)%eff.

(** [TCrossSection::TripletProduction], "Compute the product chains of
    Dirac matrices": each entry of [invAmp] starts at 0 and receives one
    term for each Lorentz index [mu]. *)
Definition TripletProduction_invAmp (g0 : TPhoton) (e0 e1 e2 e3 : TLepton)
  : nat -> nat -> nat -> nat -> nat -> Complex_t :=
  let mLepton := Lepton_Mass e0 in
  let u0 := fun h => SetStateU (Lepton_Mom e0) (helicity h) in
  let v1 := fun h => SetStateV (Lepton_Mom e1) (helicity h) in
  let u2 := fun h => SetStateU (Lepton_Mom e2) (helicity h) in
  let u3 := fun h => SetStateU (Lepton_Mom e3) (helicity h) in
  let '(edenomCD2a, edenomCD2b, edenomBH2a, edenomBH2b) :=
    TripletProduction_edenoms g0 e0 e1 e2 e3 in
  let '(pCD2a, pCD2b, pBH2a, pBH2b) := TripletProduction_momenta g0 e0 e1 e2 e3 in
  let epropCD2a := propagator pCD2a mLepton edenomCD2a in
  let epropCD2b := propagator pCD2b mLepton edenomCD2b in
  let epropBH2a := propagator pBH2a mLepton edenomBH2a in
  let epropBH2b := propagator pBH2b mLepton edenomBH2b in
  let epropCD3a := epropCD2a in
  let epropCD3b := epropBH2b in
  let epropBH3a := epropBH2a in
  let epropBH3b := epropCD2b in
  let '(gpropCD2, gpropBH2, gpropCD3, gpropBH3) := TripletProduction_gprops e0 e1 e2 e3 in
  fun h0 h1 h2 h3 gi =>
    for_ 4 (fun mu acc =>
      let epsI := SlashComplex (Eps g0 (Z.of_nat gi + 1)%Z) in
      let CD2 := TripletProduction_CD2 (gamma mu) epropCD2a epropCD2b epsI gpropCD2 in
      let BH2 := TripletProduction_BH2 (gamma mu) epropBH2a epropBH2b epsI gpropBH2 in
      let CD3 := TripletProduction_CD3 (gamma mu) epropCD3a epropCD3b epsI gpropCD3 in
      let BH3 := TripletProduction_BH3 (gamma mu) epropBH3a epropBH3b epsI gpropBH3 in
      (acc +
       Cscale
         (Spinor_ScalarProd (u3 h3) (dm_apply (gamma mu) (v1 h1)) *
          Spinor_ScalarProd (u2 h2) (dm_apply CD2 (u0 h0))
          - Spinor_ScalarProd (u2 h2) (dm_apply (gamma mu) (v1 h1)) *
            Spinor_ScalarProd (u3 h3) (dm_apply CD3 (u0 h0))
          + Spinor_ScalarProd (u2 h2) (dm_apply (gamma mu) (u0 h0)) *
            Spinor_ScalarProd (u3 h3) (dm_apply BH2 (v1 h1))
          - Spinor_ScalarProd (u3 h3) (dm_apply (gamma mu) (u0 h0)) *
            Spinor_ScalarProd (u2 h2) (dm_apply BH3 (v1 h1)))
         (metric_sign mu))%C) Czero.

Definition TripletProduction (gIn : TPhoton) (eIn pOut eOut2 eOut3 : TLepton)
  : Eff LDouble_t :=
  (let g0 := gIn in
   let e0 := eIn in
   let e1 := pOut in
   let e2 := eOut2 in
   let e3 := eOut3 in
   let invAmp := TripletProduction_invAmp g0 e0 e1 e2 e3 in
   let ampSquared := TripletProduction_ampSquared invAmp g0 e0 e1 e2 e3 in
   warn_if_bad ampSquared "Warning: bad triplets amplitude: " ;;
   g00 <- operator_index (Photon_Mom g0) 0 ;;
   e00 <- operator_index (Lepton_Mom e0) 0 ;;
   let fluxFactor := 4 * g00 * (Length (Lepton_Mom e0) + e00) in
   e30 <- operator_index (Lepton_Mom e3) 0 ;;
   let rhoFactor :=
     1 / (8 * e30 * Length (operator_plus (Lepton_Mom e1) (Lepton_Mom e2))) in
   let piFactor := powerRZ (2 * PI_) (4 - 9) * (4 * PI_) ^ 3 in
   let diffXsect := hbarcSqr * alphaQED ^ 3 * real ampSquared
                    / fluxFactor * rhoFactor * piFactor in
   ret diffXsect)%eff.

(** [TCrossSection::eeBremsstrahlung]. *)
Definition eeBremsstrahlung_invAmp (e0 e1 e2 e3 : TLepton) (g0 : TPhoton)
  : nat -> nat -> nat -> nat -> nat -> Complex_t :=
  let mLepton := Lepton_Mass e0 in
  let u0 := fun h => SetStateU (Lepton_Mom e0) (helicity h) in
  let u1 := fun h => SetStateU (Lepton_Mom e1) (helicity h) in
  let u2 := fun h => SetStateU (Lepton_Mom e2) (helicity h) in
  let u3 := fun h => SetStateU (Lepton_Mom e3) (helicity h) in
  let '(edenomA1, edenomA2, edenomB1, edenomB2) :=
    eeBremsstrahlung_edenoms e0 e1 e2 e3 g0 in
  let '(pA1, pA2, pB1, pB2) := eeBremsstrahlung_momenta e0 e1 e2 e3 g0 in
  let epropA1 := propagator pA1 mLepton edenomA1 in
  let epropA2 := propagator pA2 mLepton edenomA2 in
  let epropB1 := propagator pB1 mLepton edenomB1 in
  let epropB2 := propagator pB2 mLepton edenomB2 in
  let epropC1 := epropA1 in
  let epropC2 := epropB2 in
  let epropD1 := epropB1 in
  let epropD2 := epropA2 in
  let '(gpropA, gpropB, gpropC, gpropD) := eeBremsstrahlung_gprops e0 e1 e2 e3 in
  fun h0 h1 h2 h3 gf =>
    for_ 4 (fun mu acc =>
      let epsF := SlashComplex (EpsStar g0 (Z.of_nat gf + 1)%Z) in
      let A := eeBremsstrahlung_A (gamma mu) epropA1 epropA2 epsF gpropA in
      let B := eeBremsstrahlung_B (gamma mu) epropB1 epropB2 epsF gpropB in
      let C := eeBremsstrahlung_C (gamma mu) epropC1 epropC2 epsF gpropC in
      let D := eeBremsstrahlung_D (gamma mu) epropD1 epropD2 epsF gpropD in
      (acc +
       Cscale
         (Spinor_ScalarProd (u3 h3) (dm_apply (gamma mu) (u1 h1)) *
          Spinor_ScalarProd (u2 h2) (dm_apply A (u0 h0))
          + Spinor_ScalarProd (u2 h2) (dm_apply (gamma mu) (u0 h0)) *
            Spinor_ScalarProd (u3 h3) (dm_apply B (u1 h1))
          - Spinor_ScalarProd (u2 h2) (dm_apply (gamma mu) (u1 h1)) *
            Spinor_ScalarProd (u3 h3) (dm_apply C (u0 h0))
          - Spinor_ScalarProd (u3 h3) (dm_apply (gamma mu) (u0 h0)) *
            Spinor_ScalarProd (u2 h2) (dm_apply D (u1 h1)))
         (metric_sign mu))%C) Czero.

Definition eeBremsstrahlung (eIn0 eIn1 eOut2 eOut3 : TLepton) (gOut : TPhoton)
  : Eff LDouble_t :=
  (let e0 := eIn0 in
   let e1 := eIn1 in
   let e2 := eOut2 in
   let e3 := eOut3 in
   let g0 := gOut in
   let invAmp := eeBremsstrahlung_invAmp e0 e1 e2 e3 g0 in
   let ampSquared := eeBremsstrahlung_ampSquared invAmp e0 e1 e2 e3 g0 in
   warn_if_bad ampSquared "Warning: bad eeBremsstrahlung amplitude: " ;;
   e00 <- operator_index (Lepton_Mom e0) 0 ;;
   let kinFactor := 1 / sqr (2 * PI_ * e00) in
   e10 <- operator_index (Lepton_Mom e1) 0 ;;
   e30 <- operator_index (Lepton_Mom e3) 0 ;;
   let kinFactor := kinFactor / (4 * e10 * e30) in
   let diffXsect := hbarcSqr * alphaQED ^ 3 * real ampSquared * kinFactor in
   ret diffXsect)%eff.

End Reactions.


(** ** Stand-ins for the Dirac classes

    [TDiracMatrix], [TDiracSpinor] and [TFourVectorComplex] are not among
    the sources; the reaction functions take them as an interface.  To run
    the functions on examples the interface is filled with 4x4 complex
    matrices, four-component spinors and one complex number for a
    polarization vector. *)

Definition example_spinor : Type := nat -> Complex_t.

Definition example_Slash (p : TFourVectorReal) : Mat4 := Mat4_scale kDiracGamma0 (vt p).

Definition example_SlashComplex (e : Complex_t) : Mat4 :=
  fun i j => Cmul e (kDiracGamma0 i j).

Definition example_apply (m : Mat4) (u : example_spinor) : example_spinor :=
  fun i => Csum (seq 0 4) (fun k => Cmul (m i k) (u k)).

Definition example_ScalarProd (u v : example_spinor) : Complex_t :=
  Csum (seq 0 4) (fun k => Cmul (conj (u k)) (v k)).

Definition example_SetState (p : TFourVectorReal) (h : LDouble_t) : example_spinor :=
  fun _ => mkComplex (vt p) h.

Definition example_Eps (g : TPhoton) (i : Int_t) : Complex_t := mkComplex (IZR i) 0.

Definition example_gamma (mu : nat) : Mat4 := kDiracGamma0.

Definition example_electron : TLepton := Lepton (FourVector 5 3 0 0) 4 unit_SDM.
Definition example_electron' : TLepton := Lepton (FourVector 5 0 3 0) 4 unit_SDM.
Definition example_photon : TPhoton := Photon (FourVector 1 1 0 0) unit_SDM.


(** * Properties *)

(** ** Comparisons and the diagnostics log *)

Lemma Rlt_bool_true (a b : R) : a < b -> Rlt_bool a b = true.
Proof.
  intro H; unfold Rlt_bool; destruct (Rlt_dec a b); [reflexivity | contradiction].
Qed.

Lemma Rlt_bool_false (a b : R) : b <= a -> Rlt_bool a b = false.
Proof.
  intro H; unfold Rlt_bool; destruct (Rlt_dec a b); [lra | reflexivity].
Qed.

Lemma Rlt_bool_spec (a b : R) : Rlt_bool a b = true <-> a < b.
Proof.
  split.
  - unfold Rlt_bool; destruct (Rlt_dec a b); [trivial | discriminate].
  - apply Rlt_bool_true.
Qed.

Lemma sqrt_sq_first (a : R) : 0 <= a -> sqrt (a * a + (0 * 0 + 0 * 0 + 0 * 0)) = a.
Proof.
  intro Ha. replace (a * a + (0 * 0 + 0 * 0 + 0 * 0)) with (a * a) by ring.
  now apply sqrt_square.
Qed.

(** ** The norm and the scalar product *)

Lemma InvariantSqr_components (v : TFourVectorReal) :
  InvariantSqr v = vt v * vt v - vx v * vx v - vy v * vy v - vz v * vz v.
Proof. unfold InvariantSqr, LengthSqr; simpl; ring. Qed.

Lemma ScalarProd_components (u v : TFourVectorReal) :
  ScalarProd u v = vt u * vt v - vx u * vx v - vy u * vy v - vz u * vz v.
Proof. reflexivity. Qed.

(** C10. [ScalarProd(v, v)] equals [InvariantSqr(v)], [ScalarProd] is
    symmetric in its two arguments, and both use the metric (+,-,-,-):
    the time components enter with a plus sign, the three spatial
    components with a minus sign. *)
Theorem ScalarProd_InvariantSqr_consistent :
  (forall v : TFourVectorReal, ScalarProd v v = InvariantSqr v) /\
  (forall u v : TFourVectorReal, ScalarProd u v = ScalarProd v u) /\
  (forall u v : TFourVectorReal,
     ScalarProd u v = vt u * vt v - vx u * vx v - vy u * vy v - vz u * vz v) /\
  (forall v : TFourVectorReal,
     InvariantSqr v = vt v * vt v - vx v * vx v - vy v * vy v - vz v * vz v).
Proof.
  split; [| split; [| split]].
  - intro v. rewrite InvariantSqr_components, ScalarProd_components. ring.
  - intros u v. rewrite !ScalarProd_components. ring.
  - intros u v. apply ScalarProd_components.
  - intro v. apply InvariantSqr_components.
Qed.

(** ** Component access *)

Lemma operator_index_in_range (v : TFourVectorReal) (i : Z) (log : ErrLog) :
  (0 <= i <= 3)%Z -> operator_index v i log = (fVector v i, log).
Proof.
  intro Hi. unfold operator_index.
  replace ((i <? 0)%Z || (i >? 3)%Z)%bool with false; [reflexivity |].
  symmetry. apply orb_false_iff. split; [apply Z.ltb_ge | rewrite Z.gtb_ltb; apply Z.ltb_ge]; lia.
Qed.

Lemma operator_index_out_of_range (v : TFourVectorReal) (i : Z) (log : ErrLog) :
  (i < 0 \/ 3 < i)%Z ->
  operator_index v i log = (fVector v 0, log ++ [index_out_of_range]).
Proof.
  intro Hi. unfold operator_index.
  replace ((i <? 0)%Z || (i >? 3)%Z)%bool with true; [reflexivity |].
  symmetry. apply orb_true_iff. rewrite Z.gtb_ltb, !Z.ltb_lt. lia.
Qed.

Lemma fVector_GetCoord (v : TFourVectorReal) (i : Z) :
  (0 <= i <= 3)%Z -> fVector v i = nth (Z.to_nat i) (GetCoord v) 0.
Proof.
  intro Hi.
  assert (H : (i = 0 \/ i = 1 \/ i = 2 \/ i = 3)%Z) by lia.
  destruct H as [-> | [-> | [-> | ->]]]; reflexivity.
Qed.

(** C5. For every four-vector [v] and every integer [i]: when [i] is in
    [0,3], [v[i]] is the component at position [i] and nothing is reported;
    when [i] is outside, one "index out of range" error is reported and the
    first component is the value; in both cases the call yields a value. *)
Theorem operator_index_checked (v : TFourVectorReal) (i : Z) (log : ErrLog) :
  ((0 <= i <= 3)%Z ->
     operator_index v i log = (nth (Z.to_nat i) (GetCoord v) 0, log)) /\
  ((i < 0 \/ 3 < i)%Z ->
     operator_index v i log = (nth 0 (GetCoord v) 0, log ++ [index_out_of_range])) /\
  (exists (x : LDouble_t) (reported : ErrLog),
     operator_index v i log = (x, log ++ reported)).
Proof.
  split; [| split].
  - intro Hi. rewrite operator_index_in_range by assumption.
    now rewrite fVector_GetCoord.
  - intro Hi. now rewrite operator_index_out_of_range.
  - destruct (Z_lt_dec i 0) as [Hlo | Hlo].
    + exists (fVector v 0), [index_out_of_range].
      apply operator_index_out_of_range; lia.
    + destruct (Z_lt_dec 3 i) as [Hhi | Hhi].
      * exists (fVector v 0), [index_out_of_range].
        apply operator_index_out_of_range; lia.
      * exists (fVector v i), []. rewrite app_nil_r.
        apply operator_index_in_range; lia.
Qed.

Lemma operator_index_checked_witness :
  operator_index (FourVector 5 6 7 8) 2 [] = (7, []) /\
  operator_index (FourVector 5 6 7 8) 4 [] = (5, [index_out_of_range]) /\
  operator_index (FourVector 5 6 7 8) (-1) [] = (5, [index_out_of_range]).
Proof.
  split; [| split].
  - apply (proj1 (operator_index_checked (FourVector 5 6 7 8) 2 [])). lia.
  - apply (proj1 (proj2 (operator_index_checked (FourVector 5 6 7 8) 4 []))). lia.
  - apply (proj1 (proj2 (operator_index_checked (FourVector 5 6 7 8) (-1) []))). lia.
Defined.

(** ** Resolution, Invariant and equality *)

Lemma magnitude_nonneg (v : TFourVectorReal) : 0 <= magnitude v.
Proof. apply sqrt_pos. Qed.

Lemma DistanceTo_sym (v w : TFourVectorReal) : DistanceTo v w = DistanceTo w v.
Proof. unfold DistanceTo; simpl; f_equal; ring. Qed.

Lemma DistanceTo_self (v : TFourVectorReal) : DistanceTo v v = 0.
Proof.
  unfold DistanceTo; simpl.
  replace ((vt v - vt v) * (vt v - vt v) + (vx v - vx v) * (vx v - vx v) +
           (vy v - vy v) * (vy v - vy v) + (vz v - vz v) * (vz v - vz v)) with 0 by ring.
  apply sqrt_0.
Qed.

Lemma DistanceTo_plus (v e : TFourVectorReal) :
  DistanceTo v (operator_plus v e) = magnitude e.
Proof.
  unfold DistanceTo, operator_plus, plus_assign, magnitude, LengthSqr; simpl.
  f_equal; ring.
Qed.

Section ResolvingFacts.

Variable fResolution : R.
Hypothesis fResolution_pos : 0 < fResolution.

Lemma Resolution_relative (v : TFourVectorReal) :
  0 < magnitude v -> Resolution fResolution v = fResolution * magnitude v.
Proof.
  intro H. unfold Resolution. fold (magnitude v). now rewrite Rlt_bool_true.
Qed.

Lemma Resolution_absolute (v : TFourVectorReal) :
  magnitude v = 0 -> Resolution fResolution v = fResolution.
Proof.
  intro H. unfold Resolution. fold (magnitude v). rewrite Rlt_bool_false; [reflexivity | lra].
Qed.

Lemma Resolution_pos (v : TFourVectorReal) : 0 < Resolution fResolution v.
Proof.
  destruct (Rlt_dec 0 (magnitude v)) as [H | H].
  - rewrite Resolution_relative by assumption. now apply Rmult_lt_0_compat.
  - rewrite Resolution_absolute; [assumption |].
    pose proof (magnitude_nonneg v). lra.
Qed.

Lemma Invariant_positive (v : TFourVectorReal) (log : ErrLog) :
  0 < InvariantSqr v -> Invariant fResolution v log = (sqrt (InvariantSqr v), log).
Proof.
  intro H. unfold Invariant. now rewrite Rlt_bool_true.
Qed.

Lemma Invariant_clamped (v : TFourVectorReal) (log : ErrLog) :
  InvariantSqr v <= 0 -> - Resolution fResolution v < InvariantSqr v ->
  Invariant fResolution v log = (0, log).
Proof.
  intros H1 H2. unfold Invariant.
  rewrite Rlt_bool_false by assumption. now rewrite Rlt_bool_true.
Qed.

Lemma Invariant_nonneg (v : TFourVectorReal) (log : ErrLog) :
  0 <= InvariantSqr v -> Invariant fResolution v log = (sqrt (InvariantSqr v), log).
Proof.
  intros [H | H].
  - now apply Invariant_positive.
  - rewrite <- H, sqrt_0. apply Invariant_clamped; [lra |].
    pose proof (Resolution_pos v). lra.
Qed.

Lemma Invariant_error (v : TFourVectorReal) (log : ErrLog) :
  InvariantSqr v <= - Resolution fResolution v ->
  Invariant fResolution v log = (-1, log ++ [negative_norm]).
Proof.
  intro H. pose proof (Resolution_pos v) as Hr. unfold Invariant.
  rewrite Rlt_bool_false by lra. now rewrite Rlt_bool_false.
Qed.

(** C3. With a positive resolving distance: when [InvariantSqr(v)] is
    non-negative, [Invariant(v)] is its square root and nothing is
    reported; when it is negative but above [-Resolution(v)], the value is
    exactly 0 and nothing is reported, in particular for a vector of
    magnitude at least one whose invariant-squared is -1e-20 (the
    resolving distance being larger than 1e-20); when it is at or below
    [-Resolution(v)], the "negative norm" error is reported. *)
Theorem Invariant_cases (v : TFourVectorReal) (log : ErrLog) :
  (0 <= InvariantSqr v ->
     Invariant fResolution v log = (sqrt (InvariantSqr v), log)) /\
  (InvariantSqr v < 0 -> - Resolution fResolution v < InvariantSqr v ->
     Invariant fResolution v log = (0, log)) /\
  (InvariantSqr v = - 1e-20 -> 1e-20 < fResolution -> 1 <= magnitude v ->
     Invariant fResolution v log = (0, log)) /\
  (InvariantSqr v <= - Resolution fResolution v ->
     Invariant fResolution v log = (-1, log ++ [negative_norm])).
Proof.
  split; [| split; [| split]].
  - apply Invariant_nonneg.
  - intros H1 H2. apply Invariant_clamped; [lra | assumption].
  - intros H1 H2 H3. apply Invariant_clamped; [lra |].
    rewrite Resolution_relative by lra. rewrite H1. nra.
  - apply Invariant_error.
Qed.

(** The parts of C6 that hold: reflexivity, tolerance, the relative
    resolution, and symmetry between vectors of equal resolution. *)

Lemma operator_eq_refl (v : TFourVectorReal) : operator_eq fResolution v v = true.
Proof.
  unfold operator_eq. rewrite DistanceTo_self. apply Rlt_bool_true, Resolution_pos.
Qed.

Lemma operator_eq_below (v e : TFourVectorReal) :
  magnitude e < Resolution fResolution v ->
  operator_eq fResolution v (operator_plus v e) = true.
Proof.
  intro H. unfold operator_eq. rewrite DistanceTo_plus. now apply Rlt_bool_true.
Qed.

Lemma operator_neq_above (v d : TFourVectorReal) :
  Resolution fResolution v <= magnitude d ->
  operator_neq fResolution v (operator_plus v d) = true.
Proof.
  intro H. unfold operator_neq, operator_eq. rewrite DistanceTo_plus.
  now rewrite Rlt_bool_false.
Qed.

Lemma operator_eq_sym_same_resolution (v w : TFourVectorReal) :
  Resolution fResolution v = Resolution fResolution w ->
  operator_eq fResolution v w = operator_eq fResolution w v.
Proof.
  intro H. unfold operator_eq. now rewrite H, DistanceTo_sym.
Qed.

End ResolvingFacts.

Lemma magnitude_time_axis (a : R) : 0 <= a -> magnitude (FourVector a 0 0 0) = a.
Proof.
  intro Ha. unfold magnitude, LengthSqr; simpl. now apply sqrt_sq_first.
Qed.

Lemma magnitude_ge_1 (v : TFourVectorReal) :
  1 <= fVector v 0 * fVector v 0 + LengthSqr v -> 1 <= magnitude v.
Proof.
  intro H. unfold magnitude. rewrite <- sqrt_1 at 1. apply sqrt_le_1; lra.
Qed.

Lemma Invariant_cases_witness :
  Invariant 1e-12 (FourVector 5 3 0 0) [] =
    (sqrt (InvariantSqr (FourVector 5 3 0 0)), []) /\
  Invariant 1e-12 (FourVector (1 - 2.5e-21) (1 + 2.5e-21) 0 0) [] = (0, []) /\
  Invariant 1e-12 (FourVector 0 0 1e-13 0) [] = (0, []) /\
  Invariant 1e-12 (FourVector 1 2 0 0) [] = (-1, [negative_norm]).
Proof.
  assert (Hpos : 0 < 1e-12) by lra.
  split; [| split; [| split]].
  - apply (proj1 (Invariant_cases 1e-12 Hpos (FourVector 5 3 0 0) [])).
    rewrite InvariantSqr_components; simpl; lra.
  - apply (proj1 (proj2 (proj2
      (Invariant_cases 1e-12 Hpos (FourVector (1 - 2.5e-21) (1 + 2.5e-21) 0 0) [])))).
    + rewrite InvariantSqr_components; simpl; lra.
    + lra.
    + apply magnitude_ge_1. unfold LengthSqr; simpl; nra.
  - apply (proj1 (proj2 (Invariant_cases 1e-12 Hpos (FourVector 0 0 1e-13 0) []))).
    + rewrite InvariantSqr_components; simpl; lra.
    + assert (Hm : magnitude (FourVector 0 0 1e-13 0) = 1e-13).
      { unfold magnitude, LengthSqr; simpl. apply sqrt_lem_1; lra. }
      rewrite Resolution_relative by lra.
      rewrite Hm, InvariantSqr_components; simpl; lra.
  - apply (proj2 (proj2 (proj2 (Invariant_cases 1e-12 Hpos (FourVector 1 2 0 0) [])))).
    assert (Hm : magnitude (FourVector 1 2 0 0) <= 3).
    { unfold magnitude, LengthSqr; simpl.
      replace 3 with (sqrt (3 * 3)) by (apply sqrt_square; lra).
      apply sqrt_le_1; lra. }
    assert (Hm' : 1 <= magnitude (FourVector 1 2 0 0)).
    { apply magnitude_ge_1. unfold LengthSqr; simpl; lra. }
    rewrite Resolution_relative by lra.
    rewrite InvariantSqr_components; simpl; nra.
Defined.

(** C6.  With a positive resolving distance, [operator==] is
    reflexive; [v == v + e] when the Euclidean size of [e] is below the
    resolution of [v], and [v != v + d] when the size of [d] is at or above
    it; the resolution of a non-zero vector is the resolving distance times
    the vector's own Euclidean magnitude; and [v == w] agrees with [w == v]
    for two vectors of equal resolution. *)
Theorem operator_eq_tolerant (fResolution : R) :
  0 < fResolution ->
  (forall v, operator_eq fResolution v v = true) /\
  (forall v e, magnitude e < Resolution fResolution v ->
     operator_eq fResolution v (operator_plus v e) = true) /\
  (forall v d, Resolution fResolution v <= magnitude d ->
     operator_neq fResolution v (operator_plus v d) = true) /\
  (forall v, 0 < magnitude v ->
     Resolution fResolution v = fResolution * magnitude v) /\
  (forall v w, Resolution fResolution v = Resolution fResolution w ->
     operator_eq fResolution v w = operator_eq fResolution w v).
Proof.
  intro Hpos. split; [| split; [| split; [| split]]].
  - apply operator_eq_refl; assumption.
  - apply operator_eq_below.
  - apply operator_neq_above.
  - apply Resolution_relative.
  - apply operator_eq_sym_same_resolution.
Qed.

Lemma operator_eq_tolerant_witness :
  operator_eq 1e-12 (FourVector 1 0 0 0) (FourVector 1 0 0 0) = true /\
  operator_eq 1e-12 (FourVector 1 0 0 0)
    (operator_plus (FourVector 1 0 0 0) (FourVector 5e-13 0 0 0)) = true /\
  operator_neq 1e-12 (FourVector 1 0 0 0)
    (operator_plus (FourVector 1 0 0 0) (FourVector 1e-6 0 0 0)) = true /\
  Resolution 1e-12 (FourVector 1 0 0 0) = 1e-12 * magnitude (FourVector 1 0 0 0) /\
  operator_eq 1e-12 (FourVector 1 0 0 0) (FourVector 0 1 0 0) =
    operator_eq 1e-12 (FourVector 0 1 0 0) (FourVector 1 0 0 0).
Proof.
  assert (Hpos : 0 < 1e-12) by lra.
  pose proof (operator_eq_tolerant 1e-12 Hpos) as [H1 [H2 [H3 [H4 H5]]]].
  assert (Hm : magnitude (FourVector 1 0 0 0) = 1) by (apply magnitude_time_axis; lra).
  assert (Hr : Resolution 1e-12 (FourVector 1 0 0 0) = 1e-12).
  { rewrite Resolution_relative by lra. rewrite Hm; lra. }
  split; [| split; [| split; [| split]]].
  - apply H1.
  - apply H2. rewrite Hr, magnitude_time_axis; lra.
  - apply H3. rewrite Hr, magnitude_time_axis; lra.
  - apply H4. lra.
  - apply H5. rewrite Hr.
    assert (Hm' : magnitude (FourVector 0 1 0 0) = 1).
    { unfold magnitude, LengthSqr; simpl. apply sqrt_lem_1; lra. }
    rewrite Resolution_relative by lra. rewrite Hm'; lra.
Defined.

(** C6, symmetry.  [operator==] is not symmetric: the zero vector equals a
    vector of size 5e-13 (the distance is below the zero vector's absolute
    resolving distance 1e-12), but not the other way round (the distance is
    far above the small vector's own resolution 5e-25); the same happens
    for two non-zero vectors whose distance lies between their two
    resolutions. *)
Lemma operator_eq_not_symmetric :
  operator_eq 1e-12 Zero (FourVector 5e-13 0 0 0) = true /\
  operator_eq 1e-12 (FourVector 5e-13 0 0 0) Zero = false /\
  operator_eq 1e-12 (FourVector 1 0 0 0) (FourVector (1 - 1e-12 + 5e-25) 0 0 0) = true /\
  operator_eq 1e-12 (FourVector (1 - 1e-12 + 5e-25) 0 0 0) (FourVector 1 0 0 0) = false.
Proof.
  assert (Hpos : 0 < 1e-12) by lra.
  assert (Hd : DistanceTo Zero (FourVector 5e-13 0 0 0) = 5e-13).
  { unfold DistanceTo; simpl. apply sqrt_lem_1; lra. }
  assert (Hd' : DistanceTo (FourVector 1 0 0 0) (FourVector (1 - 1e-12 + 5e-25) 0 0 0)
                = 1e-12 - 5e-25).
  { unfold DistanceTo; simpl. apply sqrt_lem_1; lra. }
  split; [| split; [| split]].
  - unfold operator_eq. rewrite Hd.
    rewrite Resolution_absolute by (apply magnitude_time_axis; lra).
    apply Rlt_bool_true; lra.
  - unfold operator_eq. rewrite DistanceTo_sym, Hd.
    rewrite Resolution_relative by (rewrite magnitude_time_axis; lra).
    rewrite magnitude_time_axis by lra. apply Rlt_bool_false; lra.
  - unfold operator_eq. rewrite Hd'.
    rewrite Resolution_relative by (rewrite magnitude_time_axis; lra).
    rewrite magnitude_time_axis by lra. apply Rlt_bool_true; lra.
  - unfold operator_eq. rewrite DistanceTo_sym, Hd'.
    rewrite Resolution_relative by (rewrite magnitude_time_axis; lra).
    rewrite magnitude_time_axis by lra. apply Rlt_bool_false; lra.
Qed.

(** ** Lorentz transforms preserve the invariant *)

Lemma valid_transform_entries (M : TLorentzTransform) :
  valid_transform M ->
  forall mu nu : nat, (mu < 4)%nat -> (nu < 4)%nat ->
    M 0%nat mu * M 0%nat nu - M 1%nat mu * M 1%nat nu -
    M 2%nat mu * M 2%nat nu - M 3%nat mu * M 3%nat nu = metric mu nu.
Proof.
  intros H mu nu Hmu Hnu. rewrite <- (H mu nu Hmu Hnu).
  unfold sum4, metric; simpl. ring.
Qed.

Lemma Transform_InvariantSqr (M : TLorentzTransform) (v : TFourVectorReal) :
  valid_transform M -> InvariantSqr (Transform v M) = InvariantSqr v.
Proof.
  intro H. pose proof (valid_transform_entries M H) as K.
  set (q := fun mu nu : nat =>
    M 0%nat mu * M 0%nat nu - M 1%nat mu * M 1%nat nu -
    M 2%nat mu * M 2%nat nu - M 3%nat mu * M 3%nat nu).
  transitivity (sum4 (fun mu => sum4 (fun nu => q mu nu * component v mu * component v nu))).
  - rewrite InvariantSqr_components. unfold Transform, sum4, q, component; simpl. ring.
  - unfold sum4, q. rewrite !K by lia.
    rewrite InvariantSqr_components. unfold metric, component; simpl. ring.
Qed.

Lemma SetBeta_valid (beta : TThreeVectorReal) :
  valid_beta beta -> valid_transform (SetBeta beta).
Proof.
  destruct beta as [bx by_ bz]. unfold valid_beta; simpl. intro Hb.
  set (b2 := bx * bx + by_ * by_ + bz * bz) in *.
  assert (Hs : 0 < sqrt (1 - b2)) by (apply sqrt_lt_R0; lra).
  assert (Hss : sqrt (1 - b2) * sqrt (1 - b2) = 1 - b2) by (apply sqrt_sqrt; lra).
  intros mu nu Hmu Hnu.
  assert (Hmu' : (mu = 0 \/ mu = 1 \/ mu = 2 \/ mu = 3)%nat) by lia.
  assert (Hnu' : (nu = 0 \/ nu = 1 \/ nu = 2 \/ nu = 3)%nat) by lia.
  clear Hmu Hnu.
  unfold SetBeta; simpl. fold b2.
  set (g := 1 / sqrt (1 - b2)).
  assert (Hg : g * g * (1 - b2) = 1).
  { unfold g.
    transitivity (1 / sqrt (1 - b2) * (1 / sqrt (1 - b2)) *
                  (sqrt (1 - b2) * sqrt (1 - b2))).
    - now rewrite Hss.
    - field. lra. }
  destruct (Req_dec b2 0) as [Hz | Hnz].
  - assert (bx = 0 /\ by_ = 0 /\ bz = 0) as [-> [-> ->]].
    { unfold b2 in Hz. repeat split; nra. }
    destruct Hmu' as [-> | [-> | [-> | ->]]];
    destruct Hnu' as [-> | [-> | [-> | ->]]];
    unfold sum4, metric; simpl; unfold Rdiv; ring_simplify; try lra; nra.
  - set (k := (g - 1) / b2).
    assert (Hk2 : k * b2 = g - 1) by (unfold k; field; assumption).
    assert (Hk : k * (g + 1) = g * g).
    { apply Rmult_eq_reg_r with b2; [| assumption].
      replace (k * (g + 1) * b2) with ((k * b2) * (g + 1)) by ring.
      rewrite Hk2. nra. }
    assert (Hdiv : forall x y, (g - 1) * x * y / b2 = k * x * y).
    { intros; unfold k; field; assumption. }
    destruct Hmu' as [-> | [-> | [-> | ->]]];
    destruct Hnu' as [-> | [-> | [-> | ->]]];
    unfold sum4, metric; simpl; rewrite ?Hdiv; unfold b2 in *; nsatz.
Qed.

(** The accessors of [TLorentzBoost.h] read the velocity and the Lorentz
    factor back from the boost matrix. *)
Lemma SetBeta_Beta_Gamma (beta : TThreeVectorReal) :
  valid_beta beta ->
  Beta (SetBeta beta) = beta /\
  Gamma (SetBeta beta) =
    1 / sqrt (1 - (beta_x beta * beta_x beta + beta_y beta * beta_y beta +
                   beta_z beta * beta_z beta)).
Proof.
  destruct beta as [bx by_ bz]. unfold valid_beta; simpl. intro Hb.
  assert (Hs : 0 < sqrt (1 - (bx * bx + by_ * by_ + bz * bz)))
    by (apply sqrt_lt_R0; lra).
  split; [| reflexivity].
  unfold Beta, SetBeta; simpl. f_equal; field; lra.
Qed.

Lemma Invariant_of_InvariantSqr (fResolution : R) (v w : TFourVectorReal) (log : ErrLog) :
  0 < fResolution -> InvariantSqr w = InvariantSqr v -> 0 <= InvariantSqr v ->
  Invariant fResolution w log = Invariant fResolution v log.
Proof.
  intros Hpos Heq Hnn.
  rewrite (Invariant_nonneg fResolution Hpos v log Hnn).
  rewrite <- Heq in Hnn |- *.
  apply (Invariant_nonneg fResolution Hpos w log Hnn).
Qed.

(** C7.  Every boost velocity below the speed of light gives a
    valid transform; a valid transform (in particular such a boost) leaves
    t^2 - x^2 - y^2 - z^2 unchanged, hence within the resolution of the
    vector; and [Invariant] of the transformed vector is [Invariant] of the
    vector whenever its invariant-squared is not negative. *)
Theorem Lorentz_invariance (fResolution : R) :
  0 < fResolution ->
  (forall beta, valid_beta beta -> valid_transform (SetBeta beta)) /\
  (forall beta v, valid_beta beta ->
     InvariantSqr (Boost v (SetBeta beta)) = InvariantSqr v) /\
  (forall M v, valid_transform M ->
     InvariantSqr (Transform v M) = InvariantSqr v /\
     Rabs (InvariantSqr (Transform v M) - InvariantSqr v) < Resolution fResolution v /\
     (0 <= InvariantSqr v -> forall log,
        Invariant fResolution (Transform v M) log = Invariant fResolution v log)).
Proof.
  intro Hpos. split; [| split].
  - apply SetBeta_valid.
  - intros beta v Hb. apply Transform_InvariantSqr, SetBeta_valid, Hb.
  - intros M v HM. pose proof (Transform_InvariantSqr M v HM) as E.
    split; [exact E | split].
    + rewrite E. replace (InvariantSqr v - InvariantSqr v) with 0 by ring.
      rewrite Rabs_R0. now apply Resolution_pos.
    + intros Hnn log. now apply Invariant_of_InvariantSqr.
Qed.

Lemma Lorentz_invariance_witness :
  valid_transform (SetBeta (ThreeVector (3 / 5) 0 0)) /\
  InvariantSqr (Boost (FourVector 5 3 0 0) (SetBeta (ThreeVector (3 / 5) 0 0))) =
    InvariantSqr (FourVector 5 3 0 0) /\
  Invariant 1e-12 (Transform (FourVector 5 3 0 0) (SetBeta (ThreeVector (3 / 5) 0 0))) [] =
    Invariant 1e-12 (FourVector 5 3 0 0) [].
Proof.
  assert (Hpos : 0 < 1e-12) by lra.
  assert (Hb : valid_beta (ThreeVector (3 / 5) 0 0)) by (unfold valid_beta; simpl; lra).
  pose proof (Lorentz_invariance 1e-12 Hpos) as [H1 [H2 H3]].
  split; [| split].
  - apply H1, Hb.
  - apply H2, Hb.
  - apply (H3 _ (FourVector 5 3 0 0) (H1 _ Hb)).
    rewrite InvariantSqr_components; simpl; lra.
Defined.

Lemma Boost_four_fifths :
  Boost (FourVector 2e-12 2.5e-12 0 0) (SetBeta (ThreeVector (4 / 5) 0 0)) =
  FourVector 0 1.5e-12 0 0.
Proof.
  assert (Hsq : sqrt (1 - (4 / 5 * (4 / 5) + 0 * 0 + 0 * 0)) = 3 / 5)
    by (apply sqrt_lem_1; lra).
  unfold Boost, Transform, SetBeta, sum4, component; simpl.
  rewrite Hsq. f_equal; lra.
Qed.

(** C7, [Invariant] of a slightly spacelike vector is not boost
    invariant: the clamp threshold [-Resolution] scales with the Euclidean
    magnitude, which a boost changes.  Before the boost the invariant-squared -2.25e-24 is
    above the threshold and [Invariant] is 0; after the boost of velocity
    4/5 along x the same invariant-squared is below the threshold of the
    shorter vector, and [Invariant] reports the error and yields -1. *)
Lemma Invariant_not_boost_invariant :
  valid_beta (ThreeVector (4 / 5) 0 0) /\
  Invariant 1e-12 (FourVector 2e-12 2.5e-12 0 0) [] = (0, []) /\
  Invariant 1e-12
    (Boost (FourVector 2e-12 2.5e-12 0 0) (SetBeta (ThreeVector (4 / 5) 0 0))) [] =
    (-1, [negative_norm]).
Proof.
  assert (Hpos : 0 < 1e-12) by lra.
  split; [| split].
  - unfold valid_beta; simpl; lra.
  - apply Invariant_clamped.
    + rewrite InvariantSqr_components; simpl; lra.
    + assert (Hm : 3e-12 <= magnitude (FourVector 2e-12 2.5e-12 0 0)).
      { unfold magnitude, LengthSqr; simpl.
        replace 3e-12 with (sqrt (3e-12 * 3e-12)) by (apply sqrt_square; lra).
        apply sqrt_le_1; lra. }
      rewrite Resolution_relative by lra.
      rewrite InvariantSqr_components; simpl; nra.
  - rewrite Boost_four_fifths.
    assert (Hm : magnitude (FourVector 0 1.5e-12 0 0) = 1.5e-12).
    { unfold magnitude, LengthSqr; simpl. apply sqrt_lem_1; lra. }
    apply (Invariant_error 1e-12 Hpos).
    rewrite Resolution_relative by lra.
    rewrite Hm, InvariantSqr_components; simpl; lra.
Qed.

(** ** The value Compton returns *)

Section ComptonFacts.

Context {TDiracMatrix : Type} {ops : DiracMatrixOps TDiracMatrix}.
Variables TDiracSpinor TFourVectorComplex : Type.
Variable Slash : TFourVectorReal -> TDiracMatrix.
Variable SlashComplex : TFourVectorComplex -> TDiracMatrix.
Variable dm_apply : TDiracMatrix -> TDiracSpinor -> TDiracSpinor.
Variable Spinor_ScalarProd : TDiracSpinor -> TDiracSpinor -> Complex_t.
Variable SetStateU : TFourVectorReal -> LDouble_t -> TDiracSpinor.
Variables Eps EpsStar : TPhoton -> Int_t -> TFourVectorComplex.
Variables hbarcSqr alphaQED : LDouble_t.

Lemma then_return (value : R) (rest : Stmt unit) (log : ErrLog) :
  then_ (return_ value) (fun _ => rest) log = (Returned value, log).
Proof. reflexivity. Qed.

Lemma step_index_0 (v : TFourVectorReal) {B : Type} (k : R -> Stmt B) (log : ErrLog) :
  then_ (step (operator_index v 0)) k log = k (vt v) log.
Proof.
  unfold then_, step. now rewrite operator_index_in_range by lia.
Qed.

(** C4. For every input, [Compton] returns
    [hbarcSqr * sqr(alphaQED) * real(ampSquared) * kinFactor], reporting
    nothing; and whatever statements stand after [return diffXsect;] in
    place of the Klein-Nishina computation, the call gives the same result:
    they are never run. *)
Theorem Compton_returns_engine_value
    (gIn : TPhoton) (eIn : TLepton) (gOut : TPhoton) (eOut : TLepton) (log : ErrLog) :
  Compton TDiracSpinor TFourVectorComplex Slash SlashComplex dm_apply
          Spinor_ScalarProd SetStateU Eps EpsStar hbarcSqr alphaQED
          gIn eIn gOut eOut log =
    (Some (hbarcSqr * sqr alphaQED *
           real (Compton_ampSquared
                   (Compton_invAmp TDiracSpinor TFourVectorComplex Slash SlashComplex
                      dm_apply Spinor_ScalarProd SetStateU Eps EpsStar
                      gIn eIn gOut eOut)
                   eIn eOut gIn gOut) *
           Compton_kinFactor gIn eIn gOut eOut), log) /\
  (forall rest : TPhoton -> TPhoton -> LDouble_t -> Stmt unit,
     call (Compton_body TDiracSpinor TFourVectorComplex Slash SlashComplex dm_apply
             Spinor_ScalarProd SetStateU Eps EpsStar hbarcSqr alphaQED
             rest gIn eIn gOut eOut) log =
     Compton TDiracSpinor TFourVectorComplex Slash SlashComplex dm_apply
             Spinor_ScalarProd SetStateU Eps EpsStar hbarcSqr alphaQED
             gIn eIn gOut eOut log).
Proof.
  assert (Hbody : forall rest,
    call (Compton_body TDiracSpinor TFourVectorComplex Slash SlashComplex dm_apply
            Spinor_ScalarProd SetStateU Eps EpsStar hbarcSqr alphaQED
            rest gIn eIn gOut eOut) log =
    (Some (hbarcSqr * sqr alphaQED *
           real (Compton_ampSquared
                   (Compton_invAmp TDiracSpinor TFourVectorComplex Slash SlashComplex
                      dm_apply Spinor_ScalarProd SetStateU Eps EpsStar
                      gIn eIn gOut eOut)
                   eIn eOut gIn gOut) *
           Compton_kinFactor gIn eIn gOut eOut), log)).
  { intro rest. unfold call, Compton_body.
    rewrite !step_index_0. cbv zeta. rewrite then_return. reflexivity. }
  split.
  - unfold Compton. apply Hbody.
  - intro rest. unfold Compton. now rewrite !Hbody.
Qed.

End ComptonFacts.

(** ** The Dirac-matrix chains of TripletProduction and eeBremsstrahlung *)

Lemma TripletProduction_chains_are_vertex_propagator_chains
    {TDiracMatrix : Type} {ops : DiracMatrixOps TDiracMatrix}
    (gamma_mu eprop_a eprop_b epsI : TDiracMatrix) (gprop : R) :
  TripletProduction_CD2 gamma_mu eprop_a eprop_b epsI gprop =
    vertex_propagator_chain gamma_mu eprop_a eprop_b epsI gprop /\
  TripletProduction_BH2 gamma_mu eprop_a eprop_b epsI gprop =
    vertex_propagator_chain gamma_mu eprop_a eprop_b epsI gprop /\
  TripletProduction_CD3 gamma_mu eprop_a eprop_b epsI gprop =
    vertex_propagator_chain gamma_mu eprop_a eprop_b epsI gprop /\
  TripletProduction_BH3 gamma_mu eprop_a eprop_b epsI gprop =
    vertex_propagator_chain gamma_mu eprop_a eprop_b epsI gprop.
Proof. repeat split. Qed.

Lemma eeBremsstrahlung_A_is_vertex_propagator_chain
    {TDiracMatrix : Type} {ops : DiracMatrixOps TDiracMatrix}
    (gamma_mu epropA1 epropA2 epsF : TDiracMatrix) (gpropA : R) :
  eeBremsstrahlung_A gamma_mu epropA1 epropA2 epsF gpropA =
    vertex_propagator_chain gamma_mu epropA1 epropA2 epsF gpropA.
Proof. reflexivity. Qed.

(** The (0,0) entries of the chain [B] of the source and of the chain of
    two triple products, at [gamma[0]], differ by the photon propagator. *)
Lemma eeBremsstrahlung_B_entry_00 (eprop1 eprop2 epsF : Mat4) (gprop : R) :
  real (eeBremsstrahlung_B kDiracGamma0 eprop1 eprop2 epsF gprop 0%nat 0%nat) =
  real (vertex_propagator_chain kDiracGamma0 eprop1 eprop2 epsF gprop 0%nat 0%nat) + gprop.
Proof.
  unfold eeBremsstrahlung_B, vertex_propagator_chain; simpl.
  unfold Mat4_scale, Mat4_add, Mat4_mul, Csum, kDiracGamma0; simpl. ring.
Qed.

(** C2.  In [eeBremsstrahlung] the chain [A] is the sum of two
    triple products times the photon propagator, as are the four chains of
    [TripletProduction]; the chains [B], [C] and [D] are not: with the
    time-like gamma matrix as the vertex and a photon propagator that is
    not zero, each differs from the chain of two triple products, whatever
    the propagators and the polarization matrix are. *)
Theorem eeBremsstrahlung_B_C_D_add_the_vertex
    (eprop1 eprop2 epsF : Mat4) (gprop : R) :
  gprop <> 0 ->
  eeBremsstrahlung_A kDiracGamma0 eprop1 eprop2 epsF gprop =
    vertex_propagator_chain kDiracGamma0 eprop1 eprop2 epsF gprop /\
  eeBremsstrahlung_B kDiracGamma0 eprop1 eprop2 epsF gprop <>
    vertex_propagator_chain kDiracGamma0 eprop1 eprop2 epsF gprop /\
  eeBremsstrahlung_C kDiracGamma0 eprop1 eprop2 epsF gprop <>
    vertex_propagator_chain kDiracGamma0 eprop1 eprop2 epsF gprop /\
  eeBremsstrahlung_D kDiracGamma0 eprop1 eprop2 epsF gprop <>
    vertex_propagator_chain kDiracGamma0 eprop1 eprop2 epsF gprop.
Proof.
  intro Hg.
  assert (HB : eeBremsstrahlung_B kDiracGamma0 eprop1 eprop2 epsF gprop <>
               vertex_propagator_chain kDiracGamma0 eprop1 eprop2 epsF gprop).
  { intro Heq. pose proof (eeBremsstrahlung_B_entry_00 eprop1 eprop2 epsF gprop) as E.
    rewrite Heq in E. lra. }
  split; [reflexivity | split; [exact HB | split; exact HB]].
Qed.

Lemma eeBremsstrahlung_B_C_D_add_the_vertex_witness :
  eeBremsstrahlung_B kDiracGamma0 kDiracGamma0 kDiracGamma0 kDiracGamma0 1 <>
    vertex_propagator_chain kDiracGamma0 kDiracGamma0 kDiracGamma0 kDiracGamma0 1.
Proof.
  apply (eeBremsstrahlung_B_C_D_add_the_vertex kDiracGamma0 kDiracGamma0 kDiracGamma0 1).
  lra.
Defined.

(** ** The spin sums *)

Lemma tuple_eqb_eq (a b : list nat) : tuple_eqb a b = true <-> a = b.
Proof.
  revert b; induction a as [| i a IH]; intros [| j b]; simpl; split; intro H;
    try reflexivity; try discriminate.
  - apply andb_true_iff in H as [H1 H2]. apply Nat.eqb_eq in H1. apply IH in H2. congruence.
  - injection H as -> ->. rewrite Nat.eqb_refl. simpl. now apply IH.
Qed.

Lemma pair_eqb_eq (p q : list nat * list nat) : pair_eqb p q = true <-> p = q.
Proof.
  destruct p as [a b], q as [c d]. unfold pair_eqb; simpl.
  rewrite andb_true_iff, !tuple_eqb_eq. split; [intros [-> ->]; reflexivity | intro H; injection H; auto].
Qed.

Lemma memb_In p l : memb p l = true <-> In p l.
Proof.
  induction l as [| q l IH]; simpl.
  - split; [discriminate | tauto].
  - rewrite orb_true_iff, pair_eqb_eq, IH. split; intros [H | H]; auto.
Qed.

Lemma nodupb_NoDup l : nodupb l = true -> NoDup l.
Proof.
  induction l as [| p l IH]; simpl; intro H.
  - constructor.
  - apply andb_true_iff in H as [H1 H2]. constructor.
    + intro Hin. apply memb_In in Hin. rewrite Hin in H1. discriminate.
    + now apply IH.
Qed.

Lemma rearranges_Permutation n k ih ihbar :
  rearranges n k ih ihbar = true ->
  Permutation (map (split_indices ih ihbar) (all_tuples n))
              (list_prod (all_tuples k) (all_tuples k)).
Proof.
  unfold rearranges. intro H.
  apply andb_true_iff in H as [H H3]. apply andb_true_iff in H as [H1 H2].
  apply NoDup_Permutation_bis.
  - now apply nodupb_NoDup.
  - now apply Nat.leb_le.
  - intros p Hp. rewrite forallb_forall in H2. apply memb_In. now apply H2.
Qed.

(** Complex numbers form a commutative ring. *)
Lemma Complex_eq (a b : Complex_t) : real a = real b -> imag a = imag b -> a = b.
Proof. destruct a, b; simpl; intros -> ->; reflexivity. Qed.

Lemma complex_ring_theory : ring_theory Czero Cone Cadd Cmul Csub Copp eq.
Proof.
  constructor; intros; try reflexivity; apply Complex_eq; simpl; ring.
Qed.

Add Ring complex_ring : complex_ring_theory.

Lemma Csum_app {A} (l l' : list A) f : Csum (l ++ l') f = Cadd (Csum l f) (Csum l' f).
Proof. induction l as [| a l IH]; simpl; [ring | rewrite IH; ring]. Qed.

Lemma Csum_map {A B} (g : A -> B) (l : list A) f :
  Csum (map g l) f = Csum l (fun a => f (g a)).
Proof. induction l as [| a l IH]; simpl; [reflexivity | now rewrite IH]. Qed.

Lemma Csum_ext {A} (l : list A) f g : (forall a, f a = g a) -> Csum l f = Csum l g.
Proof. intro H. induction l as [| a l IH]; simpl; [reflexivity | now rewrite H, IH]. Qed.

Lemma Csum_Permutation {A} (l l' : list A) f : Permutation l l' -> Csum l f = Csum l' f.
Proof.
  induction 1; simpl.
  - reflexivity.
  - now rewrite IHPermutation.
  - ring.
  - congruence.
Qed.

Lemma Csum_list_prod {A B} (l : list A) (l' : list B) (F : A -> B -> Complex_t) :
  Csum l (fun a => Csum l' (fun b => F a b)) =
  Csum (list_prod l l') (fun p => F (fst p) (snd p)).
Proof.
  induction l as [| a l IH]; simpl; [reflexivity |].
  rewrite Csum_app, Csum_map, IH. reflexivity.
Qed.

Lemma fold_left_Csum {A} (l : list A) (T : A -> Complex_t) (z : Complex_t) :
  fold_left (fun s q => Cadd s (T q)) l z = Cadd z (Csum l T).
Proof.
  revert z; induction l as [| a l IH]; intro z; simpl; [ring | rewrite IH; ring].
Qed.

Lemma loop_sum_is_pair_sum (n k : nat) (ih ihbar : list nat)
    (T : list nat -> Complex_t) (F : list nat -> list nat -> Complex_t) :
  rearranges n k ih ihbar = true ->
  (forall q, T q = F (pick ih q) (pick ihbar q)) ->
  fold_left (fun s q => Cadd s (T q)) (all_tuples n) Czero =
  Csum (all_tuples k) (fun h => Csum (all_tuples k) (fun hbar => F h hbar)).
Proof.
  intros Hperm HT. rewrite fold_left_Csum, Csum_list_prod.
  rewrite <- (Csum_Permutation _ _ _ (rearranges_Permutation n k ih ihbar Hperm)).
  rewrite Csum_map. rewrite (Csum_ext _ _ _ HT). unfold split_indices; simpl. ring.
Qed.

Lemma rearranges_6 : rearranges 6 3 [2; 4; 0]%nat [3; 5; 1]%nat = true.
Proof. vm_compute; reflexivity. Qed.
Lemma rearranges_8 : rearranges 8 4 [4; 6; 0; 2]%nat [5; 7; 1; 3]%nat = true.
Proof. vm_compute; reflexivity. Qed.
Lemma rearranges_10 : rearranges 10 5 [2; 4; 6; 8; 0]%nat [3; 5; 7; 9; 1]%nat = true.
Proof. vm_compute; reflexivity. Qed.

Section LoopNests.
Variables (A : Type) (add : A -> A -> A) (z : A).

Lemma nest6 (T : nat -> nat -> nat -> nat -> nat -> nat -> A) :
  for_ 2 (fun a => for_ 2 (fun b => for_ 2 (fun c => for_ 2 (fun d =>
  for_ 2 (fun e => for_ 2 (fun f s => add s (T a b c d e f))))))) z =
  fold_left (fun s q => add s (T (nth 0 q 0) (nth 1 q 0) (nth 2 q 0) (nth 3 q 0)
                                 (nth 4 q 0) (nth 5 q 0))%nat)
            (all_tuples 6) z.
Proof. reflexivity. Qed.

Lemma nest8 (T : nat -> nat -> nat -> nat -> nat -> nat -> nat -> nat -> A) :
  for_ 2 (fun a => for_ 2 (fun b => for_ 2 (fun c => for_ 2 (fun d =>
  for_ 2 (fun e => for_ 2 (fun f => for_ 2 (fun g => for_ 2 (fun h s =>
    add s (T a b c d e f g h))))))))) z =
  fold_left (fun s q => add s (T (nth 0 q 0) (nth 1 q 0) (nth 2 q 0) (nth 3 q 0)
                                 (nth 4 q 0) (nth 5 q 0) (nth 6 q 0) (nth 7 q 0))%nat)
            (all_tuples 8) z.
Proof. reflexivity. Qed.

Lemma nest10 (T : nat -> nat -> nat -> nat -> nat -> nat -> nat -> nat -> nat -> nat -> A) :
  for_ 2 (fun a => for_ 2 (fun b => for_ 2 (fun c => for_ 2 (fun d =>
  for_ 2 (fun e => for_ 2 (fun f => for_ 2 (fun g => for_ 2 (fun h =>
  for_ 2 (fun i => for_ 2 (fun j s =>
    add s (T a b c d e f g h i j))))))))))) z =
  fold_left (fun s q => add s (T (nth 0 q 0) (nth 1 q 0) (nth 2 q 0) (nth 3 q 0)
                                 (nth 4 q 0) (nth 5 q 0) (nth 6 q 0) (nth 7 q 0)
                                 (nth 8 q 0) (nth 9 q 0))%nat)
            (all_tuples 10) z.
Proof. reflexivity. Qed.
End LoopNests.

Lemma for_snd {S1 S2 : Type} (n : nat) (body : nat -> S1 * S2 -> S1 * S2)
    (body2 : nat -> S2 -> S2) (st : S1 * S2) :
  (forall i st', snd (body i st') = body2 i (snd st')) ->
  snd (for_ n body st) = for_ n body2 (snd st).
Proof.
  intro H. unfold for_. generalize (seq 0 n); intro l.
  revert st; induction l as [| i l IH]; intro st; simpl; [reflexivity |].
  now rewrite IH, H.
Qed.

Lemma Compton_ampSquared_spin_sum invAmp eI eF gI gF :
  Compton_ampSquared invAmp eI eF gI gF =
  spin_sum (at4 invAmp)
    [(Incoming, Lepton_SDM eI); (Outgoing, Lepton_SDM eF);
     (Incoming, Photon_SDM gI); (Outgoing, Photon_SDM gF)].
Proof.
  unfold Compton_ampSquared.
  rewrite (nest8 Complex_t Cadd Czero
    (fun gi gibar gf gfbar hi hibar hf hfbar =>
       (invAmp hi hf gi gf * conj (invAmp hibar hfbar gibar gfbar) *
        Lepton_SDM eI hi hibar * Lepton_SDM eF hfbar hf *
        Photon_SDM gI gi gibar * Photon_SDM gF gfbar gf)%C)).
  unfold spin_sum.
  apply (loop_sum_is_pair_sum 8 4 [4; 6; 0; 2]%nat [5; 7; 1; 3]%nat).
  - exact rearranges_8.
  - intro q. unfold pick, at4; simpl. ring.
Qed.

Lemma Bremsstrahlung_ampSquared_spin_sum invAmp eI eF gF :
  Bremsstrahlung_ampSquared invAmp eI eF gF =
  spin_sum (at3 invAmp)
    [(Incoming, Lepton_SDM eI); (Outgoing, Lepton_SDM eF); (Outgoing, Photon_SDM gF)].
Proof.
  unfold Bremsstrahlung_ampSquared, Bremsstrahlung_sums.
  transitivity (
    for_ 2 (fun gf => for_ 2 (fun gfbar => for_ 2 (fun hi => for_ 2 (fun hibar =>
    for_ 2 (fun hf => for_ 2 (fun hfbar s =>
      Cadd s (invAmp hi hf gf * conj (invAmp hibar hfbar gfbar) *
              Lepton_SDM eI hi hibar * Lepton_SDM eF hfbar hf *
              Photon_SDM gF gfbar gf)%C)))))) Czero).
  - change Czero with (snd (fun _ _ : nat => Czero, Czero)) at 2.
    repeat (apply for_snd; intros); reflexivity.
  - rewrite (nest6 Complex_t Cadd Czero
      (fun gf gfbar hi hibar hf hfbar =>
         (invAmp hi hf gf * conj (invAmp hibar hfbar gfbar) *
          Lepton_SDM eI hi hibar * Lepton_SDM eF hfbar hf *
          Photon_SDM gF gfbar gf)%C)).
    unfold spin_sum.
    apply (loop_sum_is_pair_sum 6 3 [2; 4; 0]%nat [3; 5; 1]%nat).
    + exact rearranges_6.
    + intro q. unfold pick, at3; simpl. ring.
Qed.

Lemma PairProduction_ampSquared_spin_sum invAmp gI eF pF :
  PairProduction_ampSquared invAmp gI eF pF =
  spin_sum (at3 invAmp)
    [(Incoming, Lepton_SDM pF); (Outgoing, Lepton_SDM eF); (Incoming, Photon_SDM gI)].
Proof.
  unfold PairProduction_ampSquared.
  rewrite (nest6 Complex_t Cadd Czero
    (fun gi gibar hi hibar hf hfbar =>
       (invAmp hi hf gi * conj (invAmp hibar hfbar gibar) *
        Lepton_SDM pF hi hibar * Lepton_SDM eF hfbar hf *
        Photon_SDM gI gi gibar)%C)).
  unfold spin_sum.
  apply (loop_sum_is_pair_sum 6 3 [2; 4; 0]%nat [3; 5; 1]%nat).
  - exact rearranges_6.
  - intro q. unfold pick, at3; simpl. ring.
Qed.

Lemma TripletProduction_ampSquared_spin_sum invAmp g0 e0 e1 e2 e3 :
  TripletProduction_ampSquared invAmp g0 e0 e1 e2 e3 =
  spin_sum (at5 invAmp)
    [(Incoming, Lepton_SDM e0); (Incoming, Lepton_SDM e1);
     (Outgoing, Lepton_SDM e2); (Outgoing, Lepton_SDM e3);
     (Incoming, Photon_SDM g0)].
Proof.
  unfold TripletProduction_ampSquared.
  rewrite (nest10 Complex_t Cadd Czero
    (fun gi gibar h0 h0bar h1 h1bar h2 h2bar h3 h3bar =>
       (invAmp h0 h1 h2 h3 gi * conj (invAmp h0bar h1bar h2bar h3bar gibar) *
        Lepton_SDM e0 h0 h0bar * Lepton_SDM e1 h1 h1bar *
        Lepton_SDM e2 h2bar h2 * Lepton_SDM e3 h3bar h3 *
        Photon_SDM g0 gi gibar)%C)).
  unfold spin_sum.
  apply (loop_sum_is_pair_sum 10 5 [2; 4; 6; 8; 0]%nat [3; 5; 7; 9; 1]%nat).
  - exact rearranges_10.
  - intro q. unfold pick, at5; simpl. ring.
Qed.

Lemma eeBremsstrahlung_ampSquared_spin_sum invAmp e0 e1 e2 e3 g0 :
  eeBremsstrahlung_ampSquared invAmp e0 e1 e2 e3 g0 =
  spin_sum (at5 invAmp)
    [(Incoming, Lepton_SDM e0); (Incoming, Lepton_SDM e1);
     (Outgoing, Lepton_SDM e2); (Outgoing, Lepton_SDM e3);
     (Outgoing, Photon_SDM g0)].
Proof.
  unfold eeBremsstrahlung_ampSquared.
  rewrite (nest10 Complex_t Cadd Czero
    (fun gf gfbar h0 h0bar h1 h1bar h2 h2bar h3 h3bar =>
       (invAmp h0 h1 h2 h3 gf * conj (invAmp h0bar h1bar h2bar h3bar gfbar) *
        Lepton_SDM e0 h0 h0bar * Lepton_SDM e1 h1 h1bar *
        Lepton_SDM e2 h2bar h2 * Lepton_SDM e3 h3bar h3 *
        Photon_SDM g0 gfbar gf)%C)).
  unfold spin_sum.
  apply (loop_sum_is_pair_sum 10 5 [2; 4; 6; 8; 0]%nat [3; 5; 7; 9; 1]%nat).
  - exact rearranges_10.
  - intro q. unfold pick, at5; simpl. ring.
Qed.

(** C1, the outgoing positron of [PairProduction] is not reversed: the
    loop nest reads its SDM as [hi][hibar], not reversed.  On this
    configuration the loop nest gives 0 and the sum with the positron's
    indices reversed gives 2. *)
Lemma PairProduction_positron_not_reversed :
  PairProduction_ampSquared example_invAmp example_gI example_eF example_pF =
    mkComplex 0 0 /\
  spin_sum (at3 example_invAmp)
    [(Outgoing, Lepton_SDM example_pF); (Outgoing, Lepton_SDM example_eF);
     (Incoming, Photon_SDM example_gI)] = mkComplex 2 0 /\
  PairProduction_ampSquared example_invAmp example_gI example_eF example_pF <>
  spin_sum (at3 example_invAmp)
    [(Outgoing, Lepton_SDM example_pF); (Outgoing, Lepton_SDM example_eF);
     (Incoming, Photon_SDM example_gI)].
Proof.
  assert (H1 : PairProduction_ampSquared example_invAmp example_gI example_eF example_pF =
               mkComplex 0 0).
  { unfold PairProduction_ampSquared, for_; simpl.
    apply Complex_eq; simpl; lra. }
  assert (H2 : spin_sum (at3 example_invAmp)
    [(Outgoing, Lepton_SDM example_pF); (Outgoing, Lepton_SDM example_eF);
     (Incoming, Photon_SDM example_gI)] = mkComplex 2 0).
  { unfold spin_sum; simpl. apply Complex_eq; simpl; lra. }
  split; [exact H1 | split; [exact H2 |]].
  rewrite H1, H2. intro H. apply (f_equal real) in H. simpl in H. lra.
Qed.

(** C1.  For each of the five reaction functions the
    spin-summed amplitude-squared is the sum over all pairs (h, hbar) of
    index tuples of amplitude[h] * conj(amplitude[hbar]), weighted by the
    SDM element [h, hbar] of each incoming particle and of the outgoing
    positron of [PairProduction] and [TripletProduction], and by the SDM
    element [hbar, h] of every other outgoing particle. *)
Theorem spin_sums_contract_SDMs :
  (forall invAmp eI eF gI gF,
     Compton_ampSquared invAmp eI eF gI gF =
     spin_sum (at4 invAmp)
       [(Incoming, Lepton_SDM eI); (Outgoing, Lepton_SDM eF);
        (Incoming, Photon_SDM gI); (Outgoing, Photon_SDM gF)]) /\
  (forall invAmp eI eF gF,
     Bremsstrahlung_ampSquared invAmp eI eF gF =
     spin_sum (at3 invAmp)
       [(Incoming, Lepton_SDM eI); (Outgoing, Lepton_SDM eF);
        (Outgoing, Photon_SDM gF)]) /\
  (forall invAmp gI eF pF,
     PairProduction_ampSquared invAmp gI eF pF =
     spin_sum (at3 invAmp)
       [(Incoming, Lepton_SDM pF); (Outgoing, Lepton_SDM eF);
        (Incoming, Photon_SDM gI)]) /\
  (forall invAmp g0 e0 e1 e2 e3,
     TripletProduction_ampSquared invAmp g0 e0 e1 e2 e3 =
     spin_sum (at5 invAmp)
       [(Incoming, Lepton_SDM e0); (Incoming, Lepton_SDM e1);
        (Outgoing, Lepton_SDM e2); (Outgoing, Lepton_SDM e3);
        (Incoming, Photon_SDM g0)]) /\
  (forall invAmp e0 e1 e2 e3 g0,
     eeBremsstrahlung_ampSquared invAmp e0 e1 e2 e3 g0 =
     spin_sum (at5 invAmp)
       [(Incoming, Lepton_SDM e0); (Incoming, Lepton_SDM e1);
        (Outgoing, Lepton_SDM e2); (Outgoing, Lepton_SDM e3);
        (Outgoing, Photon_SDM g0)]).
Proof.
  split; [| split; [| split; [| split]]].
  - apply Compton_ampSquared_spin_sum.
  - apply Bremsstrahlung_ampSquared_spin_sum.
  - apply PairProduction_ampSquared_spin_sum.
  - apply TripletProduction_ampSquared_spin_sum.
  - apply eeBremsstrahlung_ampSquared_spin_sum.
Qed.

(** * Further properties of the code *)

(** ** Distances, arrays and vector arithmetic *)

(** ** Distances *)

Lemma FourVector_eq (v w : TFourVectorReal) :
  vt v = vt w -> vx v = vx w -> vy v = vy w -> vz v = vz w -> v = w.
Proof. destruct v, w; simpl; intros -> -> -> ->; reflexivity. Qed.

Lemma DistanceTo_nonneg (v w : TFourVectorReal) : 0 <= DistanceTo v w.
Proof. apply sqrt_pos. Qed.

Lemma sum4_squares_nonneg (a b c d : R) : 0 <= a * a + b * b + c * c + d * d.
Proof.
  pose proof (Rle_0_sqr a); pose proof (Rle_0_sqr b);
  pose proof (Rle_0_sqr c); pose proof (Rle_0_sqr d). unfold Rsqr in *. lra.
Qed.

Lemma DistanceTo_sqr (v w : TFourVectorReal) :
  DistanceTo v w * DistanceTo v w =
  (vt v - vt w) * (vt v - vt w) + (vx v - vx w) * (vx v - vx w) +
  (vy v - vy w) * (vy v - vy w) + (vz v - vz w) * (vz v - vz w).
Proof. unfold DistanceTo; simpl. apply sqrt_sqrt, sum4_squares_nonneg. Qed.

Lemma DistanceTo_zero_iff (v w : TFourVectorReal) : DistanceTo v w = 0 <-> v = w.
Proof.
  split.
  - intro H. pose proof (DistanceTo_sqr v w) as E. rewrite H in E.
    pose proof (Rle_0_sqr (vt v - vt w)); pose proof (Rle_0_sqr (vx v - vx w));
    pose proof (Rle_0_sqr (vy v - vy w)); pose proof (Rle_0_sqr (vz v - vz w)).
    unfold Rsqr in *.
    apply FourVector_eq; apply Rminus_diag_uniq; apply Rsqr_0_uniq; unfold Rsqr; lra.
  - intros ->. apply DistanceTo_self.
Qed.

Lemma Cauchy_Schwarz4 (a b c d a' b' c' d' : R) :
  (a * a' + b * b' + c * c' + d * d') * (a * a' + b * b' + c * c' + d * d') <=
  (a * a + b * b + c * c + d * d) * (a' * a' + b' * b' + c' * c' + d' * d').
Proof.
  assert (E : (a * a + b * b + c * c + d * d) * (a' * a' + b' * b' + c' * c' + d' * d') -
              (a * a' + b * b' + c * c' + d * d') * (a * a' + b * b' + c * c' + d * d') =
              (a * b' - b * a') * (a * b' - b * a') + (a * c' - c * a') * (a * c' - c * a') +
              (a * d' - d * a') * (a * d' - d * a') + (b * c' - c * b') * (b * c' - c * b') +
              (b * d' - d * b') * (b * d' - d * b') + (c * d' - d * c') * (c * d' - d * c'))
    by ring.
  pose proof (Rle_0_sqr (a * b' - b * a')); pose proof (Rle_0_sqr (a * c' - c * a'));
  pose proof (Rle_0_sqr (a * d' - d * a')); pose proof (Rle_0_sqr (b * c' - c * b'));
  pose proof (Rle_0_sqr (b * d' - d * b')); pose proof (Rle_0_sqr (c * d' - d * c')).
  unfold Rsqr in *. lra.
Qed.

Lemma sqrt4_triangle (a b c d a' b' c' d' : R) :
  sqrt ((a + a') * (a + a') + (b + b') * (b + b') + (c + c') * (c + c') + (d + d') * (d + d'))
  <= sqrt (a * a + b * b + c * c + d * d) + sqrt (a' * a' + b' * b' + c' * c' + d' * d').
Proof.
  set (A := sqrt (a * a + b * b + c * c + d * d)).
  set (B := sqrt (a' * a' + b' * b' + c' * c' + d' * d')).
  assert (HA : 0 <= A) by apply sqrt_pos.
  assert (HB : 0 <= B) by apply sqrt_pos.
  assert (HA2 : A * A = a * a + b * b + c * c + d * d)
    by (apply sqrt_sqrt, sum4_squares_nonneg).
  assert (HB2 : B * B = a' * a' + b' * b' + c' * c' + d' * d')
    by (apply sqrt_sqrt, sum4_squares_nonneg).
  pose proof (Cauchy_Schwarz4 a b c d a' b' c' d') as CS.
  rewrite <- HA2, <- HB2 in CS.
  assert (Hdot : a * a' + b * b' + c * c' + d * d' <= A * B).
  { assert (HP : 0 <= A * B) by (apply Rmult_le_pos; assumption).
    replace (A * A * (B * B)) with ((A * B) * (A * B)) in CS by ring.
    revert CS HP. generalize (a * a' + b * b' + c * c' + d * d') (A * B).
    intros D P CS HP. apply Rnot_lt_le. intro Hlt. nra. }
  rewrite <- (sqrt_square (A + B)) by lra.
  apply sqrt_le_1.
  - apply sum4_squares_nonneg.
  - nra.
  - replace ((a + a') * (a + a') + (b + b') * (b + b') + (c + c') * (c + c') +
             (d + d') * (d + d'))
      with (A * A + 2 * (a * a' + b * b' + c * c' + d * d') + B * B)
      by (rewrite HA2, HB2; ring).
    replace ((A + B) * (A + B)) with (A * A + 2 * (A * B) + B * B) by ring.
    lra.
Qed.

Lemma DistanceTo_triangle (u v w : TFourVectorReal) :
  DistanceTo u w <= DistanceTo u v + DistanceTo v w.
Proof.
  unfold DistanceTo; simpl.
  replace ((vt u - vt w) * (vt u - vt w) + (vx u - vx w) * (vx u - vx w) +
           (vy u - vy w) * (vy u - vy w) + (vz u - vz w) * (vz u - vz w))
    with (((vt u - vt v) + (vt v - vt w)) * ((vt u - vt v) + (vt v - vt w)) +
          ((vx u - vx v) + (vx v - vx w)) * ((vx u - vx v) + (vx v - vx w)) +
          ((vy u - vy v) + (vy v - vy w)) * ((vy u - vy v) + (vy v - vy w)) +
          ((vz u - vz v) + (vz v - vz w)) * ((vz u - vz v) + (vz v - vz w))) by ring.
  apply sqrt4_triangle.
Qed.

(** X1. The three overloads of [DistanceTo] agree: the one taking four
    components and the one taking an array give the Euclidean distance to
    the four-vector with those components, and the array of a vector's
    own coordinates gives the distance to that vector. *)
Theorem DistanceTo_overloads_agree (v : TFourVectorReal) :
  (forall t x y z, DistanceTo_txyz v t x y z = DistanceTo v (FourVector t x y z)) /\
  (forall a0 a1 a2 a3 rest,
     DistanceTo_array v (a0 :: a1 :: a2 :: a3 :: rest) =
     Some (DistanceTo v (FourVector a0 a1 a2 a3))) /\
  (forall w, DistanceTo_array v (GetCoord w) = Some (DistanceTo v w)).
Proof.
  split; [| split].
  - intros. unfold DistanceTo_txyz, DistanceTo; simpl. f_equal; ring.
  - reflexivity.
  - reflexivity.
Qed.

(** X2. [DistanceTo] is a metric on four-vectors: it is never negative,
    symmetric, zero exactly between equal vectors, and satisfies the
    triangle inequality. *)
Theorem DistanceTo_is_a_metric :
  (forall v w, 0 <= DistanceTo v w) /\
  (forall v w, DistanceTo v w = DistanceTo w v) /\
  (forall v w, DistanceTo v w = 0 <-> v = w) /\
  (forall u v w, DistanceTo u w <= DistanceTo u v + DistanceTo v w).
Proof.
  split; [| split; [| split]].
  - apply DistanceTo_nonneg.
  - apply DistanceTo_sym.
  - apply DistanceTo_zero_iff.
  - apply DistanceTo_triangle.
Qed.

(** X3. Arrays and four-vectors round-trip: the vector built from
    [GetCoord(v)] is [v], reading back a vector built from an array gives
    its first four elements, [operator+=] with an array followed by
    [operator-=] with the same array restores the vector, and the array
    overloads of [+=] and [-=] agree with the vector overloads. *)
Theorem array_round_trips (v : TFourVectorReal) :
  FromArray (GetCoord v) = Some v /\
  (forall a0 a1 a2 a3 rest,
     option_map GetCoord (FromArray (a0 :: a1 :: a2 :: a3 :: rest)) = Some [a0; a1; a2; a3]) /\
  (forall a0 a1 a2 a3 rest,
     match plus_assign_array v (a0 :: a1 :: a2 :: a3 :: rest) with
     | Some v' => minus_assign_array v' (a0 :: a1 :: a2 :: a3 :: rest)
     | None => None
     end = Some v) /\
  (forall w, plus_assign_array v (GetCoord w) = Some (plus_assign v w)) /\
  (forall w, minus_assign_array v (GetCoord w) = Some (minus_assign v w)).
Proof.
  split; [| split; [| split; [| split]]].
  - destruct v; reflexivity.
  - reflexivity.
  - intros. simpl. f_equal. apply FourVector_eq; simpl; ring.
  - reflexivity.
  - reflexivity.
Qed.

(** X4. The vector operators form a group: [(v + w) - w] and
    [(v - w) + w] are [v], [v - w] is [v + (-w)], negation is an
    involution, [v + (-v)] is the zero vector, the zero vector is neutral,
    and [+] is commutative and associative. *)
Theorem vector_addition_group :
  (forall v w, operator_minus (operator_plus v w) w = v) /\
  (forall v w, operator_plus (operator_minus v w) w = v) /\
  (forall v w, operator_minus v w = operator_plus v (operator_neg w)) /\
  (forall v, operator_neg (operator_neg v) = v) /\
  (forall v, operator_plus v (operator_neg v) = Zero) /\
  (forall v, operator_plus v Zero = v) /\
  (forall v w, operator_plus v w = operator_plus w v) /\
  (forall u v w, operator_plus (operator_plus u v) w = operator_plus u (operator_plus v w)).
Proof.
  repeat match goal with |- _ /\ _ => split end;
    intros; apply FourVector_eq; simpl; ring.
Qed.

(** X5. Scaling: for a factor [k] that is not zero, [(v * k) / k] and
    [(v / k) * k] are [v] and [v / k] is [v * (1/k)]; [k * v] equals
    [v * k], successive factors multiply, scaling distributes over [+],
    and [v * (-1)] is [-v]. *)
Theorem vector_scaling (v : TFourVectorReal) (k : R) :
  k <> 0 ->
  operator_div (operator_times v k) k = v /\
  operator_times (operator_div v k) k = v /\
  operator_div v k = operator_times v (/ k) /\
  operator_times_left k v = operator_times v k /\
  (forall m, operator_times (operator_times v k) m = operator_times v (k * m)) /\
  (forall w, operator_times (operator_plus v w) k =
             operator_plus (operator_times v k) (operator_times w k)) /\
  operator_times v (-1) = operator_neg v.
Proof.
  intro Hk.
  repeat match goal with |- _ /\ _ => split end;
    intros; apply FourVector_eq; simpl; try field; try ring; assumption.
Qed.

Lemma vector_scaling_witness :
  operator_div (operator_times (FourVector 5 3 0 1) 2) 2 = FourVector 5 3 0 1.
Proof.
  apply (vector_scaling (FourVector 5 3 0 1) 2). lra.
Defined.

(** ** Scalar products, scaling and resolution *)

(** X6. [ScalarProd] is bilinear over the vector operators: additive in
    each argument, compatible with [-], homogeneous in each argument under
    [operator*], and negated by unary minus. *)
Theorem ScalarProd_bilinear :
  (forall u v w, ScalarProd (operator_plus u v) w = ScalarProd u w + ScalarProd v w) /\
  (forall u v w, ScalarProd u (operator_plus v w) = ScalarProd u v + ScalarProd u w) /\
  (forall u v w, ScalarProd (operator_minus u v) w = ScalarProd u w - ScalarProd v w) /\
  (forall u v k, ScalarProd (operator_times u k) v = k * ScalarProd u v) /\
  (forall u v k, ScalarProd u (operator_times v k) = k * ScalarProd u v) /\
  (forall u v, ScalarProd (operator_neg u) v = - ScalarProd u v).
Proof.
  repeat match goal with |- _ /\ _ => split end;
    intros; unfold ScalarProd; simpl; ring.
Qed.

(** X7. [InvariantSqr] of a sum and of a difference expand with the
    cross term [2 * ScalarProd]; it is the same for [v - w] and [w - v],
    scales with the square of a factor, is unchanged by negation, and the
    scalar product is recovered by polarization. *)
Theorem InvariantSqr_of_sums :
  (forall v w, InvariantSqr (operator_plus v w) =
               InvariantSqr v + 2 * ScalarProd v w + InvariantSqr w) /\
  (forall v w, InvariantSqr (operator_minus v w) =
               InvariantSqr v - 2 * ScalarProd v w + InvariantSqr w) /\
  (forall v w, InvariantSqr (operator_minus v w) = InvariantSqr (operator_minus w v)) /\
  (forall v k, InvariantSqr (operator_times v k) = k * k * InvariantSqr v) /\
  (forall v, InvariantSqr (operator_neg v) = InvariantSqr v) /\
  (forall v w, 4 * ScalarProd v w =
               InvariantSqr (operator_plus v w) - InvariantSqr (operator_minus v w)).
Proof.
  repeat match goal with |- _ /\ _ => split end;
    intros; unfold InvariantSqr, LengthSqr, ScalarProd; simpl; ring.
Qed.

Lemma sqrt_scale (k s : R) : 0 <= s -> sqrt (k * k * s) = Rabs k * sqrt s.
Proof.
  intro Hs. rewrite sqrt_mult; [| nra | assumption].
  f_equal. apply sqrt_Rsqr_abs.
Qed.

Lemma magnitude_times (v : TFourVectorReal) (k : R) :
  magnitude (operator_times v k) = Rabs k * magnitude v.
Proof.
  unfold magnitude. rewrite <- sqrt_scale.
  - f_equal. unfold LengthSqr; simpl. ring.
  - unfold LengthSqr; simpl.
    replace (vt v * vt v + (vx v * vx v + vy v * vy v + vz v * vz v))
      with (vt v * vt v + vx v * vx v + vy v * vy v + vz v * vz v) by ring.
    apply sum4_squares_nonneg.
Qed.

Lemma DistanceTo_times (v w : TFourVectorReal) (k : R) :
  DistanceTo (operator_times v k) (operator_times w k) = Rabs k * DistanceTo v w.
Proof.
  unfold DistanceTo; simpl. rewrite <- sqrt_scale.
  - f_equal. ring.
  - apply sum4_squares_nonneg.
Qed.

Lemma Rlt_bool_scale (c a b : R) : 0 < c -> Rlt_bool (c * a) (c * b) = Rlt_bool a b.
Proof.
  intro Hc. destruct (Rlt_dec a b) as [H | H].
  - rewrite (Rlt_bool_true a b H). apply Rlt_bool_true. now apply Rmult_lt_compat_l.
  - rewrite (Rlt_bool_false a b) by lra. apply Rlt_bool_false.
    apply Rmult_le_compat_l; lra.
Qed.

Lemma Resolution_times (fResolution : R) (v : TFourVectorReal) (k : R) :
  k <> 0 -> 0 < magnitude v ->
  Resolution fResolution (operator_times v k) = Rabs k * Resolution fResolution v.
Proof.
  intros Hk Hv. pose proof (Rabs_pos_lt k Hk) as Hak.
  rewrite !Resolution_relative.
  - rewrite magnitude_times. ring.
  - assumption.
  - rewrite magnitude_times. now apply Rmult_lt_0_compat.
Qed.

(** X8. The tolerance scales with the vector: for [k] not zero and [v]
    not the zero vector, the Euclidean magnitude and [Resolution] of
    [v * k] are [|k|] times those of [v], [Resolution(-v)] equals
    [Resolution(v)], and [operator==] gives the same answer on [v * k],
    [w * k] as on [v], [w]. *)
Theorem Resolution_scales (fResolution : R) (v : TFourVectorReal) (k : R) :
  k <> 0 -> 0 < magnitude v ->
  magnitude (operator_times v k) = Rabs k * magnitude v /\
  Resolution fResolution (operator_times v k) = Rabs k * Resolution fResolution v /\
  Resolution fResolution (operator_neg v) = Resolution fResolution v /\
  (forall w, operator_eq fResolution (operator_times v k) (operator_times w k) =
             operator_eq fResolution v w).
Proof.
  intros Hk Hv. split; [| split; [| split]].
  - apply magnitude_times.
  - now apply Resolution_times.
  - unfold Resolution, LengthSqr; simpl.
    replace (- vt v * - vt v + (- vx v * - vx v + - vy v * - vy v + - vz v * - vz v))
      with (vt v * vt v + (vx v * vx v + vy v * vy v + vz v * vz v)) by ring.
    reflexivity.
  - intro w. unfold operator_eq.
    rewrite DistanceTo_times, Resolution_times by assumption.
    apply Rlt_bool_scale. now apply Rabs_pos_lt.
Qed.

Lemma Resolution_scales_witness :
  operator_eq 1e-12 (operator_times (FourVector 1 0 0 0) 3)
                    (operator_times (FourVector 0 1 0 0) 3) =
  operator_eq 1e-12 (FourVector 1 0 0 0) (FourVector 0 1 0 0).
Proof.
  apply (Resolution_scales 1e-12 (FourVector 1 0 0 0) 3).
  - lra.
  - rewrite magnitude_time_axis; lra.
Defined.

(** ** Invariant and the tolerance of equality *)

Lemma app_singleton_neq {A : Type} (l : list A) (x : A) : l ++ [x] <> l.
Proof.
  intro H. apply (f_equal (@List.length A)) in H. rewrite length_app in H. simpl in H. lia.
Qed.

(** X9. When the invariant squared is not negative (and the resolving
    distance is positive), [Invariant] is its non-negative square root:
    its square is [InvariantSqr], nothing is reported, and [Invariant] of
    [v * k] is [|k|] times [Invariant] of [v]. *)
Theorem Invariant_squares_to_InvariantSqr (fResolution : R) (v : TFourVectorReal)
    (log : ErrLog) :
  0 < fResolution -> 0 <= InvariantSqr v ->
  fst (Invariant fResolution v log) * fst (Invariant fResolution v log) = InvariantSqr v /\
  0 <= fst (Invariant fResolution v log) /\
  snd (Invariant fResolution v log) = log /\
  (forall k, Invariant fResolution (operator_times v k) log =
             (Rabs k * fst (Invariant fResolution v log), log)).
Proof.
  intros Hpos Hnn.
  rewrite (Invariant_nonneg fResolution Hpos v log Hnn); simpl.
  split; [| split; [| split]].
  - now apply sqrt_sqrt.
  - apply sqrt_pos.
  - reflexivity.
  - intro k.
    assert (E : InvariantSqr (operator_times v k) = k * k * InvariantSqr v)
      by (unfold InvariantSqr, LengthSqr; simpl; ring).
    rewrite (Invariant_nonneg fResolution Hpos) by (rewrite E; nra).
    rewrite E. now rewrite sqrt_scale.
Qed.

Lemma Invariant_squares_to_InvariantSqr_witness :
  fst (Invariant 1e-12 (FourVector 5 3 0 0) []) *
  fst (Invariant 1e-12 (FourVector 5 3 0 0) []) = InvariantSqr (FourVector 5 3 0 0).
Proof.
  apply (Invariant_squares_to_InvariantSqr 1e-12 (FourVector 5 3 0 0) []).
  - lra.
  - rewrite InvariantSqr_components; simpl; lra.
Defined.

(** X10. [Invariant] reports the negative-norm error, with value [-1],
    exactly when [InvariantSqr <= -Resolution]; the value [-1] occurs in no
    other case, and whenever nothing is reported the value is not
    negative. *)
Theorem Invariant_error_exactly (fResolution : R) (v : TFourVectorReal) (log : ErrLog) :
  0 < fResolution ->
  (InvariantSqr v <= - Resolution fResolution v <->
     Invariant fResolution v log = (-1, log ++ [negative_norm])) /\
  (- Resolution fResolution v < InvariantSqr v <->
     snd (Invariant fResolution v log) = log) /\
  (fst (Invariant fResolution v log) = -1 <->
     InvariantSqr v <= - Resolution fResolution v) /\
  (snd (Invariant fResolution v log) = log -> 0 <= fst (Invariant fResolution v log)).
Proof.
  intro Hpos. pose proof (Resolution_pos fResolution Hpos v) as Hr.
  assert (Hok : - Resolution fResolution v < InvariantSqr v ->
                snd (Invariant fResolution v log) = log /\
                0 <= fst (Invariant fResolution v log)).
  { intro H. destruct (Rle_dec 0 (InvariantSqr v)) as [Hnn | Hneg].
    - rewrite (Invariant_nonneg fResolution Hpos v log Hnn); simpl.
      split; [reflexivity | apply sqrt_pos].
    - rewrite (Invariant_clamped fResolution v log) by lra. simpl. split; [reflexivity | lra]. }
  assert (Herr : InvariantSqr v <= - Resolution fResolution v ->
                 Invariant fResolution v log = (-1, log ++ [negative_norm]))
    by apply (Invariant_error fResolution Hpos).
  split; [| split; [| split]].
  - split; [exact Herr |]. intro H.
    destruct (Rle_dec (InvariantSqr v) (- Resolution fResolution v)) as [Hle | Hgt]; [exact Hle |].
    exfalso. destruct (Hok ltac:(lra)) as [Hl _]. rewrite H in Hl. simpl in Hl.
    now apply app_singleton_neq in Hl.
  - split; [apply Hok |]. intro H.
    destruct (Rle_dec (InvariantSqr v) (- Resolution fResolution v)) as [Hle | Hgt]; [| lra].
    exfalso. rewrite (Herr Hle) in H. simpl in H. now apply app_singleton_neq in H.
  - split.
    + intro H.
      destruct (Rle_dec (InvariantSqr v) (- Resolution fResolution v)) as [Hle | Hgt]; [exact Hle |].
      exfalso. destruct (Hok ltac:(lra)) as [_ Hv]. lra.
    + intro H. now rewrite (Herr H).
  - intro H.
    destruct (Rle_dec (InvariantSqr v) (- Resolution fResolution v)) as [Hle | Hgt].
    + exfalso. rewrite (Herr Hle) in H. simpl in H. now apply app_singleton_neq in H.
    + apply Hok. lra.
Qed.

Lemma Invariant_error_exactly_witness :
  fst (Invariant 1e-12 (FourVector 1 2 0 0) []) = -1 <->
  InvariantSqr (FourVector 1 2 0 0) <= - Resolution 1e-12 (FourVector 1 2 0 0).
Proof.
  apply (Invariant_error_exactly 1e-12 (FourVector 1 2 0 0) []). lra.
Defined.

(** X11. The zero vector is the only vector of Euclidean magnitude 0 and
    its tolerance is the bare resolving distance: [Zero == w] holds exactly
    when the magnitude of [w] is below [fResolution], whereas for any [w]
    other than zero, [w == Zero] holds exactly when [fResolution] exceeds
    1. *)
Theorem zero_vector_tolerance_is_absolute (fResolution : R) :
  (forall v, magnitude v = 0 <-> v = Zero) /\
  Resolution fResolution Zero = fResolution /\
  (forall w, operator_eq fResolution Zero w = true <-> magnitude w < fResolution) /\
  (forall w, 0 < magnitude w ->
     (operator_eq fResolution w Zero = true <-> 1 < fResolution)).
Proof.
  assert (Hz : magnitude Zero = 0) by (apply magnitude_time_axis; lra).
  assert (Hd : forall w, DistanceTo Zero w = magnitude w).
  { intro w. unfold DistanceTo, magnitude, LengthSqr; simpl. f_equal. ring. }
  split; [| split; [| split]].
  - intro v. split.
    + intro H. apply DistanceTo_zero_iff. rewrite DistanceTo_sym, Hd. exact H.
    + intros ->. exact Hz.
  - now apply Resolution_absolute.
  - intro w. unfold operator_eq. rewrite Hd, (Resolution_absolute fResolution Zero Hz).
    apply Rlt_bool_spec.
  - intros w Hw. unfold operator_eq.
    rewrite DistanceTo_sym, Hd, Resolution_relative by assumption.
    rewrite Rlt_bool_spec. split; intro H; nra.
Qed.

Lemma zero_vector_tolerance_is_absolute_witness :
  operator_eq 1e-12 (FourVector 1 0 0 0) Zero = true <-> 1 < 1e-12.
Proof.
  apply (proj2 (proj2 (proj2 (zero_vector_tolerance_is_absolute 1e-12)))
           (FourVector 1 0 0 0)).
  rewrite magnitude_time_axis; lra.
Defined.

Lemma abs_le_sqrt4_1 (a b c d : R) : Rabs a <= sqrt (a * a + b * b + c * c + d * d).
Proof.
  rewrite <- sqrt_Rsqr_abs. unfold Rsqr. apply sqrt_le_1.
  - nra.
  - apply sum4_squares_nonneg.
  - pose proof (Rle_0_sqr b); pose proof (Rle_0_sqr c); pose proof (Rle_0_sqr d).
    unfold Rsqr in *. lra.
Qed.

Lemma component_le_DistanceTo (v w : TFourVectorReal) :
  Rabs (vt v - vt w) <= DistanceTo v w /\ Rabs (vx v - vx w) <= DistanceTo v w /\
  Rabs (vy v - vy w) <= DistanceTo v w /\ Rabs (vz v - vz w) <= DistanceTo v w.
Proof.
  unfold DistanceTo; simpl.
  set (a := vt v - vt w); set (b := vx v - vx w);
  set (c := vy v - vy w); set (d := vz v - vz w).
  split; [| split; [| split]].
  - apply abs_le_sqrt4_1.
  - replace (a * a + b * b + c * c + d * d) with (b * b + a * a + c * c + d * d) by ring.
    apply abs_le_sqrt4_1.
  - replace (a * a + b * b + c * c + d * d) with (c * c + a * a + b * b + d * d) by ring.
    apply abs_le_sqrt4_1.
  - replace (a * a + b * b + c * c + d * d) with (d * d + a * a + b * b + c * c) by ring.
    apply abs_le_sqrt4_1.
Qed.

(** X12. When [v == w] holds, each of the four components of [v] and [w]
    differ by less than [Resolution(v)], and any two vectors both equal to
    [v] are closer to each other than twice [Resolution(v)]. *)
Theorem operator_eq_bounds_components (fResolution : R) (v w : TFourVectorReal) :
  operator_eq fResolution v w = true ->
  Rabs (vt v - vt w) < Resolution fResolution v /\
  Rabs (vx v - vx w) < Resolution fResolution v /\
  Rabs (vy v - vy w) < Resolution fResolution v /\
  Rabs (vz v - vz w) < Resolution fResolution v /\
  (forall z, operator_eq fResolution v z = true ->
             DistanceTo w z < 2 * Resolution fResolution v).
Proof.
  unfold operator_eq. rewrite Rlt_bool_spec. intro H.
  destruct (component_le_DistanceTo v w) as [H0 [H1 [H2 H3]]].
  repeat split; try lra.
  intro z. rewrite Rlt_bool_spec. intro Hz.
  pose proof (DistanceTo_triangle w v z) as T. rewrite (DistanceTo_sym w v) in T. lra.
Qed.

Lemma operator_eq_bounds_components_witness :
  Rabs (vt (FourVector 1 0 0 0) - vt (FourVector (1 + 5e-13) 0 0 0)) <
    Resolution 1e-12 (FourVector 1 0 0 0).
Proof.
  apply (operator_eq_bounds_components 1e-12 (FourVector 1 0 0 0)
           (FourVector (1 + 5e-13) 0 0 0)).
  unfold operator_eq. apply Rlt_bool_true.
  rewrite Resolution_relative by (rewrite magnitude_time_axis; lra).
  rewrite magnitude_time_axis by lra.
  assert (Hd : DistanceTo (FourVector 1 0 0 0) (FourVector (1 + 5e-13) 0 0 0) = 5e-13).
  { unfold DistanceTo; simpl. apply sqrt_lem_1; lra. }
  rewrite Hd. lra.
Defined.

(** ** Sums over index tuples *)

Lemma conj_add a b : conj (Cadd a b) = Cadd (conj a) (conj b).
Proof. apply Complex_eq; simpl; ring. Qed.

Lemma conj_mul a b : conj (Cmul a b) = Cmul (conj a) (conj b).
Proof. apply Complex_eq; simpl; ring. Qed.

Lemma conj_conj a : conj (conj a) = a.
Proof. apply Complex_eq; simpl; ring. Qed.

Lemma conj_one : conj Cone = Cone.
Proof. apply Complex_eq; simpl; ring. Qed.

Lemma conj_zero : conj Czero = Czero.
Proof. apply Complex_eq; simpl; ring. Qed.

Lemma conj_fixed_real a : conj a = a -> imag a = 0.
Proof. intro H. apply (f_equal imag) in H. simpl in H. lra. Qed.

Lemma Csum_conj {A} (l : list A) f : conj (Csum l f) = Csum l (fun a => conj (f a)).
Proof.
  induction l as [| a l IH]; simpl; [apply conj_zero | now rewrite conj_add, IH].
Qed.

Lemma Csum_ext_in {A} (l : list A) f g :
  (forall a, In a l -> f a = g a) -> Csum l f = Csum l g.
Proof.
  induction l as [| a l IH]; simpl; intro H; [reflexivity |].
  rewrite H by (now left). rewrite IH; [reflexivity |]. intros; apply H; now right.
Qed.

Lemma Csum_add {A} (l : list A) f g :
  Csum l (fun a => Cadd (f a) (g a)) = Cadd (Csum l f) (Csum l g).
Proof. induction l as [| a l IH]; simpl; [ring | rewrite IH; ring]. Qed.

Lemma Csum_mul_l {A} (l : list A) (k : Complex_t) f :
  Csum l (fun a => Cmul k (f a)) = Cmul k (Csum l f).
Proof. induction l as [| a l IH]; simpl; [ring | rewrite IH; ring]. Qed.

Lemma Csum_zero {A} (l : list A) f : (forall a, In a l -> f a = Czero) -> Csum l f = Czero.
Proof.
  induction l as [| a l IH]; simpl; intro H; [reflexivity |].
  rewrite H by (now left). rewrite IH; [ring |]. intros; apply H; now right.
Qed.

Lemma Csum_swap {A B} (l : list A) (l' : list B) (F : A -> B -> Complex_t) :
  Csum l (fun a => Csum l' (fun b => F a b)) = Csum l' (fun b => Csum l (fun a => F a b)).
Proof.
  induction l as [| a l IH]; simpl.
  - symmetry. apply Csum_zero. reflexivity.
  - rewrite IH. now rewrite Csum_add.
Qed.

Lemma Csum_single {A} (l : list A) (a : A) f :
  NoDup l -> In a l -> (forall b, In b l -> b <> a -> f b = Czero) -> Csum l f = f a.
Proof.
  induction l as [| x l IH]; simpl; intros Hnd Hin Hz; [contradiction |].
  inversion Hnd as [| ? ? Hx Hnd']; subst.
  destruct Hin as [-> | Hin].
  - rewrite Csum_zero; [ring |]. intros b Hb. apply Hz; [now right |].
    intros ->. contradiction.
  - rewrite (Hz x) by (auto; intros ->; contradiction).
    rewrite IH; auto. ring.
Qed.

(** Index tuples *)

Lemma all_tuples_spec (n : nat) (h : list nat) :
  In h (all_tuples n) <-> List.length h = n /\ Forall (fun i => (i < 2)%nat) h.
Proof.
  revert h; induction n as [| n IH]; intro h; simpl.
  - split.
    + intros [<- | []]. split; [reflexivity | constructor].
    + intros [H _]. left. destruct h; [reflexivity | discriminate].
  - rewrite !in_app_iff, !in_map_iff. split.
    + intros [[t [<- Ht]] | [[t [<- Ht]] | []]]; apply IH in Ht as [Hl Hf];
        simpl; (split; [congruence | constructor; [lia | assumption]]).
    + intros [Hl Hf]. destruct h as [| i t]; [discriminate |].
      injection Hl as Hl. inversion Hf as [| ? ? Hi Ht]; subst.
      assert (Hin : In t (all_tuples (List.length t))) by (apply IH; auto).
      destruct i as [| [| i]]; [left | right; left | lia]; exists t; auto.
Qed.

Lemma all_tuples_NoDup (n : nat) : NoDup (all_tuples n).
Proof.
  induction n as [| n IH]; simpl.
  - constructor; [intros [] | constructor].
  - rewrite app_nil_r. 
    assert (Hinj : forall i, NoDup (map (cons i) (all_tuples n))).
    { intro i. apply Finite.Injective_map_NoDup; [| exact IH].
      intros a b H. now injection H. }
    apply NoDup_app; auto.
    intros x H0 H1. apply in_map_iff in H0 as [a [<- _]].
    apply in_map_iff in H1 as [b [Hb _]]. discriminate.
Qed.

Lemma sdm_weight_hermitian (legs : list (Leg * TPauliMatrix)) :
  Forall (fun p => Hermitian (snd p)) legs ->
  forall h hbar, Forall (fun i => (i < 2)%nat) h -> Forall (fun i => (i < 2)%nat) hbar ->
  sdm_weight legs hbar h = conj (sdm_weight legs h hbar).
Proof.
  induction 1 as [| [leg rho] legs Hrho Hlegs IH]; intros h hbar Hh Hhbar.
  - simpl. now rewrite conj_one.
  - destruct h as [| i h], hbar as [| j hbar]; simpl; try (now rewrite conj_one).
    inversion Hh; inversion Hhbar; subst. simpl in Hrho.
    rewrite conj_mul, <- IH by assumption.
    destruct leg; rewrite <- Hrho by assumption; reflexivity.
Qed.

Lemma spin_sum_real (A : list nat -> Complex_t) (legs : list (Leg * TPauliMatrix)) :
  Forall (fun p => Hermitian (snd p)) legs -> imag (spin_sum A legs) = 0.
Proof.
  intro H. apply conj_fixed_real. unfold spin_sum.
  rewrite Csum_conj.
  rewrite (Csum_ext_in _ _
    (fun h => Csum (all_tuples (List.length legs))
       (fun hbar => Cmul (Cmul (A hbar) (conj (A h))) (sdm_weight legs hbar h)))).
  - apply Csum_swap.
  - intros h Hh. rewrite Csum_conj. apply Csum_ext_in. intros hbar Hhbar.
    apply all_tuples_spec in Hh as [_ Hh]. apply all_tuples_spec in Hhbar as [_ Hhbar].
    rewrite !conj_mul, conj_conj, <- (sdm_weight_hermitian legs H h hbar Hh Hhbar). ring.
Qed.

Lemma sdm_weight_offdiag (legs : list (Leg * TPauliMatrix)) :
  Forall (fun p => diagonal (snd p)) legs ->
  forall h hbar, List.length h = List.length legs -> List.length hbar = List.length legs ->
  Forall (fun i => (i < 2)%nat) h -> Forall (fun i => (i < 2)%nat) hbar ->
  hbar <> h -> sdm_weight legs h hbar = Czero.
Proof.
  induction 1 as [| [leg rho] legs Hrho Hlegs IH]; intros h hbar Lh Lhbar Hh Hhbar Hne.
  - destruct h, hbar; try discriminate. contradiction.
  - destruct h as [| i h], hbar as [| j hbar]; try discriminate. simpl.
    injection Lh as Lh. injection Lhbar as Lhbar.
    inversion Hh as [| ? ? Hi Hh']; inversion Hhbar as [| ? ? Hj Hhbar']; subst.
    destruct Hrho as [H01 H10]. simpl in H01, H10.
    destruct (Nat.eq_dec i j) as [-> | Hij].
    + rewrite (IH h hbar) by (auto; congruence). ring.
    + assert (Hcase : ((i = 0 /\ j = 1) \/ (i = 1 /\ j = 0))%nat) by lia.
      destruct Hcase as [[-> ->] | [-> ->]]; destruct leg; rewrite ?H01, ?H10; ring.
Qed.

Lemma spin_sum_diagonal (A : list nat -> Complex_t) (legs : list (Leg * TPauliMatrix)) :
  Forall (fun p => diagonal (snd p)) legs ->
  spin_sum A legs =
  Csum (all_tuples (List.length legs))
       (fun h => Cmul (Cmul (A h) (conj (A h))) (sdm_weight legs h h)).
Proof.
  intro H. unfold spin_sum. apply Csum_ext_in. intros h Hh.
  rewrite (Csum_single _ h); [reflexivity | apply all_tuples_NoDup | assumption |].
  intros hbar Hhbar Hne.
  apply all_tuples_spec in Hh as [Lh Hh]. apply all_tuples_spec in Hhbar as [Lhbar Hhbar].
  rewrite (sdm_weight_offdiag legs H h hbar) by assumption. ring.
Qed.

Lemma real_nonneg_mul a b : real_nonneg a -> real_nonneg b -> real_nonneg (Cmul a b).
Proof. intros [Ha1 Ha2] [Hb1 Hb2]. split; simpl; rewrite ?Ha1, ?Hb1; nra. Qed.

Lemma real_nonneg_add a b : real_nonneg a -> real_nonneg b -> real_nonneg (Cadd a b).
Proof. intros [Ha1 Ha2] [Hb1 Hb2]. split; simpl; lra. Qed.

Lemma real_nonneg_norm a : real_nonneg (Cmul a (conj a)).
Proof. split; simpl; [ring | nra]. Qed.

Lemma Csum_real_nonneg {T} (l : list T) f :
  (forall a, In a l -> real_nonneg (f a)) -> real_nonneg (Csum l f).
Proof.
  induction l as [| x l IH]; simpl; intro H.
  - split; simpl; lra.
  - apply real_nonneg_add; [apply H; now left | apply IH; intros; apply H; now right].
Qed.

Lemma sdm_weight_diag_nonneg (legs : list (Leg * TPauliMatrix)) :
  Forall (fun p => diagonal_nonneg (snd p)) legs ->
  forall h, Forall (fun i => (i < 2)%nat) h -> real_nonneg (sdm_weight legs h h).
Proof.
  induction 1 as [| [leg rho] legs Hrho Hlegs IH]; intros h Hh.
  - simpl. split; simpl; lra.
  - destruct h as [| i h]; simpl; [split; simpl; lra |].
    inversion Hh as [| ? ? Hi Hh']; subst.
    apply real_nonneg_mul; [| now apply IH].
    destruct Hrho as [_ [I0 [I1 [R0 R1]]]]. simpl in *.
    assert (Hc : i = 0%nat \/ i = 1%nat) by lia.
    destruct Hc as [-> | ->]; destruct leg; split; assumption.
Qed.

Lemma diagonal_nonneg_diagonal legs :
  Forall (fun p : Leg * TPauliMatrix => diagonal_nonneg (snd p)) legs ->
  Forall (fun p => diagonal (snd p)) legs.
Proof. apply Forall_impl. intros p [H _]. exact H. Qed.

Lemma spin_sum_nonneg (A : list nat -> Complex_t) (legs : list (Leg * TPauliMatrix)) :
  Forall (fun p => diagonal_nonneg (snd p)) legs -> real_nonneg (spin_sum A legs).
Proof.
  intro H. rewrite spin_sum_diagonal by now apply diagonal_nonneg_diagonal.
  apply Csum_real_nonneg. intros h Hh. apply all_tuples_spec in Hh as [_ Hh].
  apply real_nonneg_mul; [apply real_nonneg_norm | now apply sdm_weight_diag_nonneg].
Qed.

Lemma spin_sum_scale (c : Complex_t) (A : list nat -> Complex_t) legs :
  spin_sum (fun h => Cmul c (A h)) legs = Cmul (Cmul c (conj c)) (spin_sum A legs).
Proof.
  unfold spin_sum. rewrite <- Csum_mul_l. apply Csum_ext. intro h.
  rewrite <- Csum_mul_l. apply Csum_ext. intro hbar. rewrite conj_mul. ring.
Qed.

Lemma unit_SDM_diagonal_nonneg : diagonal_nonneg unit_SDM.
Proof. unfold diagonal_nonneg, diagonal, unit_SDM; simpl. repeat split; lra. Qed.

Lemma sdm_weight_unit (legs : list (Leg * TPauliMatrix)) :
  Forall (fun p => snd p = unit_SDM) legs ->
  forall h, sdm_weight legs h h = Cone.
Proof.
  induction 1 as [| [leg rho] legs Hrho Hlegs IH]; intro h; [reflexivity |].
  destruct h as [| i h]; [reflexivity |]. simpl in *. subst rho.
  rewrite IH. unfold unit_SDM. rewrite Nat.eqb_refl. destruct leg; ring.
Qed.

(** ** Spin sums and the spin-density matrices *)

Ltac legs_hyp := repeat (constructor; [simpl; assumption |]); constructor.

(** X13. In all five reaction functions the spin-summed [ampSquared] has
    imaginary part zero whenever every spin-density matrix is Hermitian,
    whatever the amplitudes. *)
Theorem ampSquared_real_for_Hermitian_SDMs :
  (forall invAmp eI eF gI gF,
     Hermitian (Lepton_SDM eI) -> Hermitian (Lepton_SDM eF) ->
     Hermitian (Photon_SDM gI) -> Hermitian (Photon_SDM gF) ->
     imag (Compton_ampSquared invAmp eI eF gI gF) = 0) /\
  (forall invAmp eI eF gF,
     Hermitian (Lepton_SDM eI) -> Hermitian (Lepton_SDM eF) ->
     Hermitian (Photon_SDM gF) ->
     imag (Bremsstrahlung_ampSquared invAmp eI eF gF) = 0) /\
  (forall invAmp gI eF pF,
     Hermitian (Photon_SDM gI) -> Hermitian (Lepton_SDM eF) ->
     Hermitian (Lepton_SDM pF) ->
     imag (PairProduction_ampSquared invAmp gI eF pF) = 0) /\
  (forall invAmp g0 e0 e1 e2 e3,
     Hermitian (Photon_SDM g0) -> Hermitian (Lepton_SDM e0) ->
     Hermitian (Lepton_SDM e1) -> Hermitian (Lepton_SDM e2) ->
     Hermitian (Lepton_SDM e3) ->
     imag (TripletProduction_ampSquared invAmp g0 e0 e1 e2 e3) = 0) /\
  (forall invAmp e0 e1 e2 e3 g0,
     Hermitian (Lepton_SDM e0) -> Hermitian (Lepton_SDM e1) ->
     Hermitian (Lepton_SDM e2) -> Hermitian (Lepton_SDM e3) ->
     Hermitian (Photon_SDM g0) ->
     imag (eeBremsstrahlung_ampSquared invAmp e0 e1 e2 e3 g0) = 0).
Proof.
  split; [| split; [| split; [| split]]]; intros.
  - rewrite Compton_ampSquared_spin_sum. apply spin_sum_real. legs_hyp.
  - rewrite Bremsstrahlung_ampSquared_spin_sum. apply spin_sum_real. legs_hyp.
  - rewrite PairProduction_ampSquared_spin_sum. apply spin_sum_real. legs_hyp.
  - rewrite TripletProduction_ampSquared_spin_sum. apply spin_sum_real. legs_hyp.
  - rewrite eeBremsstrahlung_ampSquared_spin_sum. apply spin_sum_real. legs_hyp.
Qed.

Lemma Hermitian_sdm_first_state : Hermitian sdm_first_state.
Proof.
  intros i j Hi Hj.
  assert (Hc : (i = 0 \/ i = 1)%nat) by lia. assert (Hd : (j = 0 \/ j = 1)%nat) by lia.
  destruct Hc as [-> | ->], Hd as [-> | ->]; apply Complex_eq; simpl; lra.
Qed.

Lemma Hermitian_sdm_transverse : Hermitian sdm_transverse.
Proof.
  intros i j Hi Hj.
  assert (Hc : (i = 0 \/ i = 1)%nat) by lia. assert (Hd : (j = 0 \/ j = 1)%nat) by lia.
  destruct Hc as [-> | ->], Hd as [-> | ->]; apply Complex_eq; simpl; lra.
Qed.

Lemma ampSquared_real_for_Hermitian_SDMs_witness :
  imag (PairProduction_ampSquared example_invAmp example_gI example_eF example_pF) = 0.
Proof.
  apply (proj1 (proj2 (proj2 ampSquared_real_for_Hermitian_SDMs))).
  - apply Hermitian_sdm_first_state.
  - apply Hermitian_sdm_first_state.
  - apply Hermitian_sdm_transverse.
Defined.

(** X14. In all five reaction functions, when every spin-density matrix
    is diagonal the double helicity sum collapses to a single sum: each
    amplitude times its own conjugate, weighted by the product of the
    diagonal SDM elements. *)
Theorem ampSquared_for_diagonal_SDMs :
  (forall invAmp eI eF gI gF,
     diagonal (Lepton_SDM eI) -> diagonal (Lepton_SDM eF) ->
     diagonal (Photon_SDM gI) -> diagonal (Photon_SDM gF) ->
     Compton_ampSquared invAmp eI eF gI gF =
     Csum (all_tuples 4) (fun h =>
       let hi := nth 0 h 0%nat in let hf := nth 1 h 0%nat in
       let gi := nth 2 h 0%nat in let gf := nth 3 h 0%nat in
       (invAmp hi hf gi gf * conj (invAmp hi hf gi gf) *
        (Lepton_SDM eI hi hi * Lepton_SDM eF hf hf *
         Photon_SDM gI gi gi * Photon_SDM gF gf gf))%C)) /\
  (forall invAmp eI eF gF,
     diagonal (Lepton_SDM eI) -> diagonal (Lepton_SDM eF) ->
     diagonal (Photon_SDM gF) ->
     Bremsstrahlung_ampSquared invAmp eI eF gF =
     Csum (all_tuples 3) (fun h =>
       let hi := nth 0 h 0%nat in let hf := nth 1 h 0%nat in
       let gf := nth 2 h 0%nat in
       (invAmp hi hf gf * conj (invAmp hi hf gf) *
        (Lepton_SDM eI hi hi * Lepton_SDM eF hf hf * Photon_SDM gF gf gf))%C)) /\
  (forall invAmp gI eF pF,
     diagonal (Photon_SDM gI) -> diagonal (Lepton_SDM eF) ->
     diagonal (Lepton_SDM pF) ->
     PairProduction_ampSquared invAmp gI eF pF =
     Csum (all_tuples 3) (fun h =>
       let hi := nth 0 h 0%nat in let hf := nth 1 h 0%nat in
       let gi := nth 2 h 0%nat in
       (invAmp hi hf gi * conj (invAmp hi hf gi) *
        (Lepton_SDM pF hi hi * Lepton_SDM eF hf hf * Photon_SDM gI gi gi))%C)) /\
  (forall invAmp g0 e0 e1 e2 e3,
     diagonal (Photon_SDM g0) -> diagonal (Lepton_SDM e0) ->
     diagonal (Lepton_SDM e1) -> diagonal (Lepton_SDM e2) ->
     diagonal (Lepton_SDM e3) ->
     TripletProduction_ampSquared invAmp g0 e0 e1 e2 e3 =
     Csum (all_tuples 5) (fun h =>
       let h0 := nth 0 h 0%nat in let h1 := nth 1 h 0%nat in
       let h2 := nth 2 h 0%nat in let h3 := nth 3 h 0%nat in
       let gi := nth 4 h 0%nat in
       (invAmp h0 h1 h2 h3 gi * conj (invAmp h0 h1 h2 h3 gi) *
        (Lepton_SDM e0 h0 h0 * Lepton_SDM e1 h1 h1 * Lepton_SDM e2 h2 h2 *
         Lepton_SDM e3 h3 h3 * Photon_SDM g0 gi gi))%C)) /\
  (forall invAmp e0 e1 e2 e3 g0,
     diagonal (Lepton_SDM e0) -> diagonal (Lepton_SDM e1) ->
     diagonal (Lepton_SDM e2) -> diagonal (Lepton_SDM e3) ->
     diagonal (Photon_SDM g0) ->
     eeBremsstrahlung_ampSquared invAmp e0 e1 e2 e3 g0 =
     Csum (all_tuples 5) (fun h =>
       let h0 := nth 0 h 0%nat in let h1 := nth 1 h 0%nat in
       let h2 := nth 2 h 0%nat in let h3 := nth 3 h 0%nat in
       let gf := nth 4 h 0%nat in
       (invAmp h0 h1 h2 h3 gf * conj (invAmp h0 h1 h2 h3 gf) *
        (Lepton_SDM e0 h0 h0 * Lepton_SDM e1 h1 h1 * Lepton_SDM e2 h2 h2 *
         Lepton_SDM e3 h3 h3 * Photon_SDM g0 gf gf))%C)).
Proof.
  split; [| split; [| split; [| split]]]; intros.
  - rewrite Compton_ampSquared_spin_sum, spin_sum_diagonal by legs_hyp.
    apply Csum_ext_in. intros h Hh. apply all_tuples_spec in Hh as [Hl _].
    destruct h as [| a [| b [| c [| d [| ? ?]]]]]; try discriminate. unfold at3, at4, at5; simpl. ring.
  - rewrite Bremsstrahlung_ampSquared_spin_sum, spin_sum_diagonal by legs_hyp.
    apply Csum_ext_in. intros h Hh. apply all_tuples_spec in Hh as [Hl _].
    destruct h as [| a [| b [| c [| ? ?]]]]; try discriminate. unfold at3, at4, at5; simpl. ring.
  - rewrite PairProduction_ampSquared_spin_sum, spin_sum_diagonal by legs_hyp.
    apply Csum_ext_in. intros h Hh. apply all_tuples_spec in Hh as [Hl _].
    destruct h as [| a [| b [| c [| ? ?]]]]; try discriminate. unfold at3, at4, at5; simpl. ring.
  - rewrite TripletProduction_ampSquared_spin_sum, spin_sum_diagonal by legs_hyp.
    apply Csum_ext_in. intros h Hh. apply all_tuples_spec in Hh as [Hl _].
    destruct h as [| a [| b [| c [| d [| e [| ? ?]]]]]]; try discriminate. unfold at3, at4, at5; simpl. ring.
  - rewrite eeBremsstrahlung_ampSquared_spin_sum, spin_sum_diagonal by legs_hyp.
    apply Csum_ext_in. intros h Hh. apply all_tuples_spec in Hh as [Hl _].
    destruct h as [| a [| b [| c [| d [| e [| ? ?]]]]]]; try discriminate. unfold at3, at4, at5; simpl. ring.
Qed.

Lemma diagonal_sdm_first_state : diagonal sdm_first_state.
Proof. split; reflexivity. Qed.

Lemma ampSquared_for_diagonal_SDMs_witness :
  PairProduction_ampSquared example_invAmp example_gI example_eF example_eF =
  Csum (all_tuples 3) (fun h =>
    let hi := nth 0 h 0%nat in let hf := nth 1 h 0%nat in
    let gi := nth 2 h 0%nat in
    (example_invAmp hi hf gi * conj (example_invAmp hi hf gi) *
     (Lepton_SDM example_eF hi hi * Lepton_SDM example_eF hf hf *
      Photon_SDM example_gI gi gi))%C).
Proof.
  apply (proj1 (proj2 (proj2 ampSquared_for_diagonal_SDMs)));
    apply diagonal_sdm_first_state.
Defined.

(** X15. In all five reaction functions, when every spin-density matrix
    is diagonal with real non-negative diagonal elements, [ampSquared] is
    real and not negative, whatever the amplitudes. *)
Theorem ampSquared_nonneg_for_diagonal_nonneg_SDMs :
  (forall invAmp eI eF gI gF,
     diagonal_nonneg (Lepton_SDM eI) -> diagonal_nonneg (Lepton_SDM eF) ->
     diagonal_nonneg (Photon_SDM gI) -> diagonal_nonneg (Photon_SDM gF) ->
     imag (Compton_ampSquared invAmp eI eF gI gF) = 0 /\
     0 <= real (Compton_ampSquared invAmp eI eF gI gF)) /\
  (forall invAmp eI eF gF,
     diagonal_nonneg (Lepton_SDM eI) -> diagonal_nonneg (Lepton_SDM eF) ->
     diagonal_nonneg (Photon_SDM gF) ->
     imag (Bremsstrahlung_ampSquared invAmp eI eF gF) = 0 /\
     0 <= real (Bremsstrahlung_ampSquared invAmp eI eF gF)) /\
  (forall invAmp gI eF pF,
     diagonal_nonneg (Photon_SDM gI) -> diagonal_nonneg (Lepton_SDM eF) ->
     diagonal_nonneg (Lepton_SDM pF) ->
     imag (PairProduction_ampSquared invAmp gI eF pF) = 0 /\
     0 <= real (PairProduction_ampSquared invAmp gI eF pF)) /\
  (forall invAmp g0 e0 e1 e2 e3,
     diagonal_nonneg (Photon_SDM g0) -> diagonal_nonneg (Lepton_SDM e0) ->
     diagonal_nonneg (Lepton_SDM e1) -> diagonal_nonneg (Lepton_SDM e2) ->
     diagonal_nonneg (Lepton_SDM e3) ->
     imag (TripletProduction_ampSquared invAmp g0 e0 e1 e2 e3) = 0 /\
     0 <= real (TripletProduction_ampSquared invAmp g0 e0 e1 e2 e3)) /\
  (forall invAmp e0 e1 e2 e3 g0,
     diagonal_nonneg (Lepton_SDM e0) -> diagonal_nonneg (Lepton_SDM e1) ->
     diagonal_nonneg (Lepton_SDM e2) -> diagonal_nonneg (Lepton_SDM e3) ->
     diagonal_nonneg (Photon_SDM g0) ->
     imag (eeBremsstrahlung_ampSquared invAmp e0 e1 e2 e3 g0) = 0 /\
     0 <= real (eeBremsstrahlung_ampSquared invAmp e0 e1 e2 e3 g0)).
Proof.
  split; [| split; [| split; [| split]]]; intros.
  - rewrite Compton_ampSquared_spin_sum. apply spin_sum_nonneg. legs_hyp.
  - rewrite Bremsstrahlung_ampSquared_spin_sum. apply spin_sum_nonneg. legs_hyp.
  - rewrite PairProduction_ampSquared_spin_sum. apply spin_sum_nonneg. legs_hyp.
  - rewrite TripletProduction_ampSquared_spin_sum. apply spin_sum_nonneg. legs_hyp.
  - rewrite eeBremsstrahlung_ampSquared_spin_sum. apply spin_sum_nonneg. legs_hyp.
Qed.

Lemma ampSquared_nonneg_for_diagonal_nonneg_SDMs_witness :
  0 <= real (Compton_ampSquared (fun hi hf gi gf => Ci)
               (Lepton (FourVector 5 3 0 0) 4 unit_SDM)
               (Lepton (FourVector 5 0 3 0) 4 unit_SDM)
               (Photon (FourVector 1 1 0 0) unit_SDM)
               (Photon (FourVector 1 0 1 0) unit_SDM)).
Proof.
  apply (proj1 ampSquared_nonneg_for_diagonal_nonneg_SDMs);
    apply unit_SDM_diagonal_nonneg.
Defined.

(** X16. In all five reaction functions, multiplying every amplitude by
    a common complex factor [c] multiplies [ampSquared] by [c * conj(c)]:
    an overall phase drops out. *)
Theorem ampSquared_scales_with_the_amplitudes (c : Complex_t) :
  (forall invAmp eI eF gI gF,
     Compton_ampSquared (fun hi hf gi gf => c * invAmp hi hf gi gf)%C eI eF gI gF =
     (c * conj c * Compton_ampSquared invAmp eI eF gI gF)%C) /\
  (forall invAmp eI eF gF,
     Bremsstrahlung_ampSquared (fun hi hf gf => c * invAmp hi hf gf)%C eI eF gF =
     (c * conj c * Bremsstrahlung_ampSquared invAmp eI eF gF)%C) /\
  (forall invAmp gI eF pF,
     PairProduction_ampSquared (fun hi hf gi => c * invAmp hi hf gi)%C gI eF pF =
     (c * conj c * PairProduction_ampSquared invAmp gI eF pF)%C) /\
  (forall invAmp g0 e0 e1 e2 e3,
     TripletProduction_ampSquared
       (fun h0 h1 h2 h3 gi => c * invAmp h0 h1 h2 h3 gi)%C g0 e0 e1 e2 e3 =
     (c * conj c * TripletProduction_ampSquared invAmp g0 e0 e1 e2 e3)%C) /\
  (forall invAmp e0 e1 e2 e3 g0,
     eeBremsstrahlung_ampSquared
       (fun h0 h1 h2 h3 gf => c * invAmp h0 h1 h2 h3 gf)%C e0 e1 e2 e3 g0 =
     (c * conj c * eeBremsstrahlung_ampSquared invAmp e0 e1 e2 e3 g0)%C).
Proof.
  split; [| split; [| split; [| split]]]; intros.
  - rewrite !Compton_ampSquared_spin_sum. apply (spin_sum_scale c (at4 invAmp)).
  - rewrite !Bremsstrahlung_ampSquared_spin_sum. apply (spin_sum_scale c (at3 invAmp)).
  - rewrite !PairProduction_ampSquared_spin_sum. apply (spin_sum_scale c (at3 invAmp)).
  - rewrite !TripletProduction_ampSquared_spin_sum. apply (spin_sum_scale c (at5 invAmp)).
  - rewrite !eeBremsstrahlung_ampSquared_spin_sum. apply (spin_sum_scale c (at5 invAmp)).
Qed.

Lemma Cmul_conj_norm a : Cmul a (conj a) = mkComplex (Cnorm a) 0.
Proof. apply Complex_eq; unfold Cnorm; simpl; ring. Qed.

(** X17. In all five reaction functions, with unit spin-density matrices
    on every leg [ampSquared] is the sum over all helicity combinations of
    the squared modulus of the amplitude. *)
Theorem unpolarized_ampSquared_is_the_sum_of_squared_moduli :
  (forall invAmp pI mI pF mF kI kF,
     Compton_ampSquared invAmp (Lepton pI mI unit_SDM) (Lepton pF mF unit_SDM)
                        (Photon kI unit_SDM) (Photon kF unit_SDM) =
     Csum (all_tuples 4) (fun h => mkComplex (Cnorm (at4 invAmp h)) 0)) /\
  (forall invAmp pI mI pF mF kF,
     Bremsstrahlung_ampSquared invAmp (Lepton pI mI unit_SDM) (Lepton pF mF unit_SDM)
                               (Photon kF unit_SDM) =
     Csum (all_tuples 3) (fun h => mkComplex (Cnorm (at3 invAmp h)) 0)) /\
  (forall invAmp kI pe me pp mp,
     PairProduction_ampSquared invAmp (Photon kI unit_SDM) (Lepton pe me unit_SDM)
                               (Lepton pp mp unit_SDM) =
     Csum (all_tuples 3) (fun h => mkComplex (Cnorm (at3 invAmp h)) 0)) /\
  (forall invAmp k0 p0 m0 p1 m1 p2 m2 p3 m3,
     TripletProduction_ampSquared invAmp (Photon k0 unit_SDM)
       (Lepton p0 m0 unit_SDM) (Lepton p1 m1 unit_SDM)
       (Lepton p2 m2 unit_SDM) (Lepton p3 m3 unit_SDM) =
     Csum (all_tuples 5) (fun h => mkComplex (Cnorm (at5 invAmp h)) 0)) /\
  (forall invAmp p0 m0 p1 m1 p2 m2 p3 m3 k0,
     eeBremsstrahlung_ampSquared invAmp
       (Lepton p0 m0 unit_SDM) (Lepton p1 m1 unit_SDM)
       (Lepton p2 m2 unit_SDM) (Lepton p3 m3 unit_SDM) (Photon k0 unit_SDM) =
     Csum (all_tuples 5) (fun h => mkComplex (Cnorm (at5 invAmp h)) 0)).
Proof.
  assert (Hd : diagonal unit_SDM) by apply unit_SDM_diagonal_nonneg.
  assert (Hall : forall (A : list nat -> Complex_t) legs,
    Forall (fun p : Leg * TPauliMatrix => snd p = unit_SDM) legs ->
    spin_sum A legs = Csum (all_tuples (List.length legs)) (fun h => mkComplex (Cnorm (A h)) 0)).
  { intros A legs Hl. rewrite spin_sum_diagonal.
    - apply Csum_ext. intro h. rewrite (sdm_weight_unit legs Hl), Cmul_conj_norm. ring.
    - revert Hl. apply Forall_impl. intros p ->. exact Hd. }
  split; [| split; [| split; [| split]]]; intros.
  - rewrite Compton_ampSquared_spin_sum. apply Hall. repeat constructor.
  - rewrite Bremsstrahlung_ampSquared_spin_sum. apply Hall. repeat constructor.
  - rewrite PairProduction_ampSquared_spin_sum. apply Hall. repeat constructor.
  - rewrite TripletProduction_ampSquared_spin_sum. apply Hall. repeat constructor.
  - rewrite eeBremsstrahlung_ampSquared_spin_sum. apply Hall. repeat constructor.
Qed.

Lemma two_photon_index_sums
    (T : nat -> nat -> nat -> nat -> nat -> nat -> Complex_t) :
  let sums :=
    for_ 2 (fun gf => for_ 2 (fun gfbar => for_ 2 (fun hi => for_ 2 (fun hibar =>
    for_ 2 (fun hf => for_ 2 (fun hfbar (st : (nat -> nat -> Complex_t) * Complex_t) =>
      let term := T gf gfbar hi hibar hf hfbar in
      (array2_add (fst st) gf gfbar term, Cadd (snd st) term)))))))
    (fun _ _ => Czero, Czero) in
  snd sums = Cadd (Cadd (Cadd (fst sums 0%nat 0%nat) (fst sums 0%nat 1%nat))
                        (fst sums 1%nat 0%nat))
                  (fst sums 1%nat 1%nat) /\
  (forall gf gfbar, (gf < 2)%nat -> (gfbar < 2)%nat ->
     fst sums gf gfbar =
     Csum (all_tuples 4) (fun h =>
       T gf gfbar (nth 0 h 0) (nth 1 h 0) (nth 2 h 0) (nth 3 h 0))%nat) /\
  (forall gf gfbar, (2 <= gf)%nat \/ (2 <= gfbar)%nat -> fst sums gf gfbar = Czero).
Proof.
  cbv zeta. split; [| split].
  - cbv [for_ seq fold_left fst snd array2_add Nat.eqb andb]. ring.
  - intros gf gfbar Hgf Hgfbar.
    assert (Hc : (gf = 0 \/ gf = 1)%nat) by lia.
    assert (Hd : (gfbar = 0 \/ gfbar = 1)%nat) by lia.
    destruct Hc as [-> | ->], Hd as [-> | ->];
      cbv [for_ seq fold_left fst snd array2_add Nat.eqb andb all_tuples flat_map map
           app Csum fold_right nth]; ring.
  - intros gf gfbar H.
    destruct gf as [| [| gf]], gfbar as [| [| gfbar]]; try lia;
      cbv [for_ seq fold_left fst snd array2_add Nat.eqb andb]; reflexivity.
Qed.

(** X18. In [Bremsstrahlung], [ampSquared] is the sum of the four
    elements of [AAbar], and the element [AAbar[gf][gfbar]] is the sum
    over the lepton helicities of the term with the photon polarization
    indices fixed to [gf], [gfbar]. *)
Theorem Bremsstrahlung_AAbar_sums (invAmp : nat -> nat -> nat -> Complex_t)
    (eI eF : TLepton) (gF : TPhoton) :
  let AAbar := fst (Bremsstrahlung_sums invAmp eI eF gF) in
  let ampSquared := snd (Bremsstrahlung_sums invAmp eI eF gF) in
  ampSquared = (AAbar 0%nat 0%nat + AAbar 0%nat 1%nat + AAbar 1%nat 0%nat +
                AAbar 1%nat 1%nat)%C /\
  (forall gf gfbar, (gf < 2)%nat -> (gfbar < 2)%nat ->
     AAbar gf gfbar =
     Csum (all_tuples 4) (fun h =>
       let hi := nth 0 h 0%nat in let hibar := nth 1 h 0%nat in
       let hf := nth 2 h 0%nat in let hfbar := nth 3 h 0%nat in
       (invAmp hi hf gf * conj (invAmp hibar hfbar gfbar) *
        Lepton_SDM eI hi hibar * Lepton_SDM eF hfbar hf *
        Photon_SDM gF gfbar gf)%C)).
Proof.
  destruct (two_photon_index_sums
    (fun gf gfbar hi hibar hf hfbar =>
       (invAmp hi hf gf * conj (invAmp hibar hfbar gfbar) *
        Lepton_SDM eI hi hibar * Lepton_SDM eF hfbar hf *
        Photon_SDM gF gfbar gf)%C)) as (Hsum & Hentry & _).
  split; [exact Hsum | exact Hentry].
Qed.

Lemma Bremsstrahlung_AAbar_sums_witness :
  fst (Bremsstrahlung_sums example_invAmp example_eF example_pF example_gI) 0%nat 1%nat =
  Csum (all_tuples 4) (fun h =>
    (example_invAmp (nth 0 h 0%nat) (nth 2 h 0%nat) 0%nat *
     conj (example_invAmp (nth 1 h 0%nat) (nth 3 h 0%nat) 1%nat) *
     Lepton_SDM example_eF (nth 0 h 0%nat) (nth 1 h 0%nat) *
     Lepton_SDM example_pF (nth 3 h 0%nat) (nth 2 h 0%nat) *
     Photon_SDM example_gI 1%nat 0%nat)%C).
Proof.
  apply (proj2 (Bremsstrahlung_AAbar_sums example_invAmp example_eF example_pF
                  example_gI) 0%nat 1%nat); lia.
Defined.

Lemma Hermitian_entries (rho : TPauliMatrix) :
  Hermitian rho ->
  conj (rho 0 0)%nat = rho 0%nat 0%nat /\ conj (rho 0 1)%nat = rho 1%nat 0%nat /\
  conj (rho 1 0)%nat = rho 0%nat 1%nat /\ conj (rho 1 1)%nat = rho 1%nat 1%nat.
Proof.
  intro H. repeat split; symmetry; apply H; lia.
Qed.

(** X19. In [Bremsstrahlung] with Hermitian spin-density matrices,
    [AAbar[1][0]] is the conjugate of [AAbar[0][1]] and the diagonal
    elements [AAbar[0][0]], [AAbar[1][1]] are real: "the rest of these
    should be conjugate pairs". *)
Theorem Bremsstrahlung_AAbar_Hermitian (invAmp : nat -> nat -> nat -> Complex_t)
    (eI eF : TLepton) (gF : TPhoton) :
  Hermitian (Lepton_SDM eI) -> Hermitian (Lepton_SDM eF) -> Hermitian (Photon_SDM gF) ->
  let AAbar := fst (Bremsstrahlung_sums invAmp eI eF gF) in
  AAbar 1%nat 0%nat = conj (AAbar 0%nat 1%nat) /\
  imag (AAbar 0%nat 0%nat) = 0 /\ imag (AAbar 1%nat 1%nat) = 0.
Proof.
  intros HI HF Hg. cbv zeta.
  destruct (Hermitian_entries _ HI) as [I00 [I01 [I10 I11]]].
  destruct (Hermitian_entries _ HF) as [F00 [F01 [F10 F11]]].
  destruct (Hermitian_entries _ Hg) as [G00 [G01 [G10 G11]]].
  pose proof (two_photon_index_sums
    (fun gf gfbar hi hibar hf hfbar =>
       (invAmp hi hf gf * conj (invAmp hibar hfbar gfbar) *
        Lepton_SDM eI hi hibar * Lepton_SDM eF hfbar hf *
        Photon_SDM gF gfbar gf)%C)) as [_ [H _]].
  cbv zeta in H.
  assert (Hconj : forall gf gfbar, (gf < 2)%nat -> (gfbar < 2)%nat ->
    fst (Bremsstrahlung_sums invAmp eI eF gF) gfbar gf =
    conj (fst (Bremsstrahlung_sums invAmp eI eF gF) gf gfbar)).
  { intros gf gfbar Hgf Hgfbar.
    transitivity (Csum (all_tuples 4) (fun h =>
       (invAmp (nth 0 h 0%nat) (nth 2 h 0%nat) gfbar *
        conj (invAmp (nth 1 h 0%nat) (nth 3 h 0%nat) gf) *
        Lepton_SDM eI (nth 0 h 0%nat) (nth 1 h 0%nat) *
        Lepton_SDM eF (nth 3 h 0%nat) (nth 2 h 0%nat) *
        Photon_SDM gF gf gfbar)%C)); [exact (H gfbar gf Hgfbar Hgf) |].
    transitivity (conj (Csum (all_tuples 4) (fun h =>
       (invAmp (nth 0 h 0%nat) (nth 2 h 0%nat) gf *
        conj (invAmp (nth 1 h 0%nat) (nth 3 h 0%nat) gfbar) *
        Lepton_SDM eI (nth 0 h 0%nat) (nth 1 h 0%nat) *
        Lepton_SDM eF (nth 3 h 0%nat) (nth 2 h 0%nat) *
        Photon_SDM gF gfbar gf)%C)));
      [| f_equal; symmetry; exact (H gf gfbar Hgf Hgfbar)].
    assert (Hc : (gf = 0 \/ gf = 1)%nat) by lia.
    assert (Hd : (gfbar = 0 \/ gfbar = 1)%nat) by lia.
    destruct Hc as [-> | ->], Hd as [-> | ->];
      cbv [all_tuples flat_map map app Csum fold_right nth];
      rewrite ?conj_add, ?conj_mul, ?conj_conj, ?conj_zero,
              ?I00, ?I01, ?I10, ?I11, ?F00, ?F01, ?F10, ?F11, ?G00, ?G01, ?G10, ?G11;
      ring. }
  split; [| split].
  - apply (Hconj 0%nat 1%nat); lia.
  - apply conj_fixed_real. symmetry. apply (Hconj 0%nat 0%nat); lia.
  - apply conj_fixed_real. symmetry. apply (Hconj 1%nat 1%nat); lia.
Qed.

Lemma Bremsstrahlung_AAbar_Hermitian_witness :
  imag (fst (Bremsstrahlung_sums example_invAmp example_pF example_eF example_gI)
            0%nat 0%nat) = 0.
Proof.
  apply (Bremsstrahlung_AAbar_Hermitian example_invAmp example_pF example_eF example_gI).
  - apply Hermitian_sdm_transverse.
  - apply Hermitian_sdm_first_state.
  - apply Hermitian_sdm_first_state.
Defined.

(** ** Propagator denominators on the mass shell *)

Ltac minkowski :=
  unfold on_shell, lightlike, sqr, InvariantSqr, LengthSqr, ScalarProd in *;
  simpl in *; nra.

(** X20. In [Compton], each propagator denominator is the squared
    invariant of the momentum given to [Slash] minus the squared lepton
    mass, when the incoming electron is on its mass shell and the photon
    concerned is lightlike. *)
Theorem Compton_denominators (gI gF : TPhoton) (eI : TLepton) :
  on_shell (Lepton_Mom eI) (Lepton_Mass eI) ->
  (lightlike (Photon_Mom gI) ->
     InvariantSqr (Compton_momentum1 gI eI) - sqr (Lepton_Mass eI) =
     Compton_edenom1 gI eI) /\
  (lightlike (Photon_Mom gF) ->
     InvariantSqr (Compton_momentum2 gF eI) - sqr (Lepton_Mass eI) =
     Compton_edenom2 gF eI).
Proof.
  intro HI. split; intro Hg;
    unfold Compton_momentum1, Compton_momentum2, Compton_edenom1, Compton_edenom2;
    minkowski.
Qed.

Lemma Compton_denominators_witness :
  InvariantSqr (Compton_momentum1 (Photon (FourVector 1 1 0 0) unit_SDM)
                  (Lepton (FourVector 5 3 0 0) 4 unit_SDM)) - sqr 4 =
  Compton_edenom1 (Photon (FourVector 1 1 0 0) unit_SDM)
                  (Lepton (FourVector 5 3 0 0) 4 unit_SDM).
Proof.
  apply (Compton_denominators (Photon (FourVector 1 1 0 0) unit_SDM)
           (Photon (FourVector 1 1 0 0) unit_SDM)
           (Lepton (FourVector 5 3 0 0) 4 unit_SDM)).
  - unfold on_shell, sqr. rewrite InvariantSqr_components; simpl; lra.
  - unfold lightlike. rewrite InvariantSqr_components; simpl; lra.
Defined.

(** X21. In [Bremsstrahlung], when both electrons are on the mass shell
    of [mLepton], [edenom1] and [edenom2] are the squared invariants of
    the propagator momenta minus [mLepton^2]; the momenta [eI - qRecoil]
    and [eF + qRecoil] are [eF + gF] and [eI - gF]. *)
Theorem Bremsstrahlung_denominators (eI eF : TLepton) (gF : TPhoton) :
  on_shell (Lepton_Mom eI) (Lepton_Mass eI) ->
  on_shell (Lepton_Mom eF) (Lepton_Mass eI) ->
  InvariantSqr (Bremsstrahlung_momentum1 eI eF gF) - sqr (Lepton_Mass eI) =
    Bremsstrahlung_edenom1 eI eF gF /\
  InvariantSqr (Bremsstrahlung_momentum2 eI eF gF) - sqr (Lepton_Mass eI) =
    Bremsstrahlung_edenom2 eI eF gF /\
  Bremsstrahlung_momentum1 eI eF gF = operator_plus (Lepton_Mom eF) (Photon_Mom gF) /\
  Bremsstrahlung_momentum2 eI eF gF = operator_minus (Lepton_Mom eI) (Photon_Mom gF).
Proof.
  intros HI HF.
  unfold Bremsstrahlung_momentum1, Bremsstrahlung_momentum2, Bremsstrahlung_edenom1,
         Bremsstrahlung_edenom2, Bremsstrahlung_qRecoil.
  split; [| split; [| split]].
  - minkowski.
  - minkowski.
  - destruct eI as [[? ? ? ?] ? ?], eF as [[? ? ? ?] ? ?], gF as [[? ? ? ?] ?].
    unfold operator_minus, operator_plus, minus_assign, plus_assign; simpl. f_equal; ring.
  - destruct eI as [[? ? ? ?] ? ?], eF as [[? ? ? ?] ? ?], gF as [[? ? ? ?] ?].
    unfold operator_minus, operator_plus, minus_assign, plus_assign; simpl. f_equal; ring.
Qed.

Lemma Bremsstrahlung_denominators_witness :
  InvariantSqr (Bremsstrahlung_momentum1 (Lepton (FourVector 5 3 0 0) 4 unit_SDM)
                  (Lepton (FourVector 5 0 3 0) 4 unit_SDM)
                  (Photon (FourVector 1 1 0 0) unit_SDM)) - sqr 4 =
  Bremsstrahlung_edenom1 (Lepton (FourVector 5 3 0 0) 4 unit_SDM)
                  (Lepton (FourVector 5 0 3 0) 4 unit_SDM)
                  (Photon (FourVector 1 1 0 0) unit_SDM).
Proof.
  apply (Bremsstrahlung_denominators (Lepton (FourVector 5 3 0 0) 4 unit_SDM)
           (Lepton (FourVector 5 0 3 0) 4 unit_SDM)
           (Photon (FourVector 1 1 0 0) unit_SDM)).
  - unfold on_shell, sqr. rewrite InvariantSqr_components; simpl; lra.
  - unfold on_shell, sqr. rewrite InvariantSqr_components; simpl; lra.
Defined.

(** X22. In [PairProduction], for a lightlike photon, [edenom1] and
    [edenom2] are the squared invariants of the propagator momenta
    [eF - gI] and [gI - pF] minus [mLepton^2], when the lepton concerned
    is on the mass shell. *)
Theorem PairProduction_denominators (gI : TPhoton) (eF pF : TLepton) :
  lightlike (Photon_Mom gI) ->
  (on_shell (Lepton_Mom eF) (Lepton_Mass eF) ->
     InvariantSqr (PairProduction_momentum1 gI eF) - sqr (Lepton_Mass eF) =
     PairProduction_edenom1 gI eF) /\
  (on_shell (Lepton_Mom pF) (Lepton_Mass eF) ->
     InvariantSqr (PairProduction_momentum2 gI pF) - sqr (Lepton_Mass eF) =
     PairProduction_edenom2 gI pF).
Proof.
  intro Hg. split; intro H;
    unfold PairProduction_momentum1, PairProduction_momentum2,
           PairProduction_edenom1, PairProduction_edenom2;
    minkowski.
Qed.

Lemma PairProduction_denominators_witness :
  InvariantSqr (PairProduction_momentum1 (Photon (FourVector 10 10 0 0) unit_SDM)
                  (Lepton (FourVector 5 3 0 0) 4 unit_SDM)) - sqr 4 =
  PairProduction_edenom1 (Photon (FourVector 10 10 0 0) unit_SDM)
                  (Lepton (FourVector 5 3 0 0) 4 unit_SDM).
Proof.
  apply (PairProduction_denominators (Photon (FourVector 10 10 0 0) unit_SDM)
           (Lepton (FourVector 5 3 0 0) 4 unit_SDM)
           (Lepton (FourVector 5 3 0 0) 4 unit_SDM)).
  - unfold lightlike. rewrite InvariantSqr_components; simpl; lra.
  - unfold on_shell, sqr. rewrite InvariantSqr_components; simpl; lra.
Defined.

(** X23. In [TripletProduction], for a lightlike photon and leptons on
    the mass shell of [mLepton], the four electron-propagator denominators
    are the squared invariants of the four propagator momenta minus
    [mLepton^2]. *)
Theorem TripletProduction_denominators (g0 : TPhoton) (e0 e1 e2 e3 : TLepton) :
  lightlike (Photon_Mom g0) ->
  on_shell (Lepton_Mom e0) (Lepton_Mass e0) ->
  on_shell (Lepton_Mom e1) (Lepton_Mass e0) ->
  on_shell (Lepton_Mom e2) (Lepton_Mass e0) ->
  on_shell (Lepton_Mom e3) (Lepton_Mass e0) ->
  let '(edenomCD2a, edenomCD2b, edenomBH2a, edenomBH2b) :=
    TripletProduction_edenoms g0 e0 e1 e2 e3 in
  let '(pCD2a, pCD2b, pBH2a, pBH2b) := TripletProduction_momenta g0 e0 e1 e2 e3 in
  InvariantSqr pCD2a - sqr (Lepton_Mass e0) = edenomCD2a /\
  InvariantSqr pCD2b - sqr (Lepton_Mass e0) = edenomCD2b /\
  InvariantSqr pBH2a - sqr (Lepton_Mass e0) = edenomBH2a /\
  InvariantSqr pBH2b - sqr (Lepton_Mass e0) = edenomBH2b.
Proof.
  intros Hg H0 H1 H2 H3. unfold TripletProduction_edenoms, TripletProduction_momenta.
  repeat split; minkowski.
Qed.

(** X24. In [eeBremsstrahlung], for a lightlike photon and leptons on the
    mass shell of [mLepton], the four electron-propagator denominators are
    the squared invariants of the four propagator momenta minus
    [mLepton^2]. *)
Theorem eeBremsstrahlung_denominators (e0 e1 e2 e3 : TLepton) (g0 : TPhoton) :
  lightlike (Photon_Mom g0) ->
  on_shell (Lepton_Mom e0) (Lepton_Mass e0) ->
  on_shell (Lepton_Mom e1) (Lepton_Mass e0) ->
  on_shell (Lepton_Mom e2) (Lepton_Mass e0) ->
  on_shell (Lepton_Mom e3) (Lepton_Mass e0) ->
  let '(edenomA1, edenomA2, edenomB1, edenomB2) :=
    eeBremsstrahlung_edenoms e0 e1 e2 e3 g0 in
  let '(pA1, pA2, pB1, pB2) := eeBremsstrahlung_momenta e0 e1 e2 e3 g0 in
  InvariantSqr pA1 - sqr (Lepton_Mass e0) = edenomA1 /\
  InvariantSqr pA2 - sqr (Lepton_Mass e0) = edenomA2 /\
  InvariantSqr pB1 - sqr (Lepton_Mass e0) = edenomB1 /\
  InvariantSqr pB2 - sqr (Lepton_Mass e0) = edenomB2.
Proof.
  intros Hg H0 H1 H2 H3. unfold eeBremsstrahlung_edenoms, eeBremsstrahlung_momenta.
  repeat split; minkowski.
Qed.

Lemma TripletProduction_denominators_witness :
  InvariantSqr (operator_plus (FourVector 1 1 0 0) (FourVector 5 3 0 0)) - sqr 4 =
  2 * ScalarProd (FourVector 1 1 0 0) (FourVector 5 3 0 0).
Proof.
  assert (Hg : lightlike (FourVector 1 1 0 0))
    by (unfold lightlike; rewrite InvariantSqr_components; simpl; lra).
  assert (H0 : on_shell (FourVector 5 3 0 0) 4)
    by (unfold on_shell, sqr; rewrite InvariantSqr_components; simpl; lra).
  assert (H1 : on_shell (FourVector 5 0 3 0) 4)
    by (unfold on_shell, sqr; rewrite InvariantSqr_components; simpl; lra).
  exact (proj1 (TripletProduction_denominators
                  (Photon (FourVector 1 1 0 0) unit_SDM)
                  (Lepton (FourVector 5 3 0 0) 4 unit_SDM)
                  (Lepton (FourVector 5 0 3 0) 4 unit_SDM)
                  (Lepton (FourVector 5 0 3 0) 4 unit_SDM)
                  (Lepton (FourVector 5 3 0 0) 4 unit_SDM) Hg H0 H1 H1 H0)).
Defined.

Lemma eeBremsstrahlung_denominators_witness :
  InvariantSqr (operator_minus (FourVector 5 3 0 0) (FourVector 1 1 0 0)) - sqr 4 =
  -2 * ScalarProd (FourVector 1 1 0 0) (FourVector 5 3 0 0).
Proof.
  assert (Hg : lightlike (FourVector 1 1 0 0))
    by (unfold lightlike; rewrite InvariantSqr_components; simpl; lra).
  assert (H0 : on_shell (FourVector 5 3 0 0) 4)
    by (unfold on_shell, sqr; rewrite InvariantSqr_components; simpl; lra).
  assert (H1 : on_shell (FourVector 5 0 3 0) 4)
    by (unfold on_shell, sqr; rewrite InvariantSqr_components; simpl; lra).
  exact (proj1 (eeBremsstrahlung_denominators
                  (Lepton (FourVector 5 3 0 0) 4 unit_SDM)
                  (Lepton (FourVector 5 0 3 0) 4 unit_SDM)
                  (Lepton (FourVector 5 0 3 0) 4 unit_SDM)
                  (Lepton (FourVector 5 3 0 0) 4 unit_SDM)
                  (Photon (FourVector 1 1 0 0) unit_SDM) Hg H0 H1 H1 H0)).
Defined.

(** ** The reaction functions: diagnostics and sign of the result *)

Lemma Cabs_nonneg (a : Complex_t) : 0 <= Cabs a.
Proof. apply sqrt_pos. Qed.

Lemma bad_amplitudes_real (a : Complex_t) :
  imag a = 0 -> bad_amplitudes a = Rlt_bool (real a) 0.
Proof.
  intro H. unfold bad_amplitudes. rewrite H, Rabs_R0.
  rewrite (Rlt_bool_false (Cabs (Cdiv_real a 1e8)) 0) by apply Cabs_nonneg.
  apply orb_false_r.
Qed.

Lemma bad_amplitudes_false (a : Complex_t) : real_nonneg a -> bad_amplitudes a = false.
Proof.
  intros [Hi Hr]. rewrite bad_amplitudes_real by assumption. now apply Rlt_bool_false.
Qed.

Lemma PI__pos : 0 < PI_.
Proof. unfold PI_. pose proof PI_RGT_0. lra. Qed.

Lemma sqr_pos (x : R) : x <> 0 -> 0 < sqr x.
Proof. intro H. unfold sqr. nra. Qed.

Lemma div_nonneg (a b : R) : 0 <= a -> 0 < b -> 0 <= a / b.
Proof.
  intros Ha Hb. unfold Rdiv. apply Rmult_le_pos; [assumption |].
  left. now apply Rinv_0_lt_compat.
Qed.

Lemma mul_nonneg4 (a b c d : R) : 0 <= a -> 0 <= b -> 0 <= c -> 0 <= d -> 0 <= a * b * c * d.
Proof. intros. repeat apply Rmult_le_pos; assumption. Qed.

Lemma cube_nonneg (a : R) : 0 <= a -> 0 <= a ^ 3.
Proof. intro H. apply pow_le. assumption. Qed.

Lemma Compton_ampSquared_real_nonneg invAmp eI eF gI gF :
  diagonal_nonneg (Lepton_SDM eI) -> diagonal_nonneg (Lepton_SDM eF) ->
  diagonal_nonneg (Photon_SDM gI) -> diagonal_nonneg (Photon_SDM gF) ->
  real_nonneg (Compton_ampSquared invAmp eI eF gI gF).
Proof.
  intros. rewrite Compton_ampSquared_spin_sum. apply spin_sum_nonneg. legs_hyp.
Qed.

Lemma Bremsstrahlung_ampSquared_real_nonneg invAmp eI eF gF :
  diagonal_nonneg (Lepton_SDM eI) -> diagonal_nonneg (Lepton_SDM eF) ->
  diagonal_nonneg (Photon_SDM gF) ->
  real_nonneg (Bremsstrahlung_ampSquared invAmp eI eF gF).
Proof.
  intros. rewrite Bremsstrahlung_ampSquared_spin_sum. apply spin_sum_nonneg. legs_hyp.
Qed.

Lemma PairProduction_ampSquared_real_nonneg invAmp gI eF pF :
  diagonal_nonneg (Photon_SDM gI) -> diagonal_nonneg (Lepton_SDM eF) ->
  diagonal_nonneg (Lepton_SDM pF) ->
  real_nonneg (PairProduction_ampSquared invAmp gI eF pF).
Proof.
  intros. rewrite PairProduction_ampSquared_spin_sum. apply spin_sum_nonneg. legs_hyp.
Qed.

Lemma TripletProduction_ampSquared_real_nonneg invAmp g0 e0 e1 e2 e3 :
  diagonal_nonneg (Photon_SDM g0) -> diagonal_nonneg (Lepton_SDM e0) ->
  diagonal_nonneg (Lepton_SDM e1) -> diagonal_nonneg (Lepton_SDM e2) ->
  diagonal_nonneg (Lepton_SDM e3) ->
  real_nonneg (TripletProduction_ampSquared invAmp g0 e0 e1 e2 e3).
Proof.
  intros. rewrite TripletProduction_ampSquared_spin_sum. apply spin_sum_nonneg. legs_hyp.
Qed.

Lemma eeBremsstrahlung_ampSquared_real_nonneg invAmp e0 e1 e2 e3 g0 :
  diagonal_nonneg (Lepton_SDM e0) -> diagonal_nonneg (Lepton_SDM e1) ->
  diagonal_nonneg (Lepton_SDM e2) -> diagonal_nonneg (Lepton_SDM e3) ->
  diagonal_nonneg (Photon_SDM g0) ->
  real_nonneg (eeBremsstrahlung_ampSquared invAmp e0 e1 e2 e3 g0).
Proof.
  intros. rewrite eeBremsstrahlung_ampSquared_spin_sum. apply spin_sum_nonneg. legs_hyp.
Qed.

Lemma Length_nonneg (v : TFourVectorReal) : 0 <= Length v.
Proof. apply sqrt_pos. Qed.

Lemma piFactor_pos : 0 < powerRZ (2 * PI_) (4 - 9) * (4 * PI_) ^ 3.
Proof.
  pose proof PI__pos. apply Rmult_lt_0_compat.
  - apply powerRZ_lt. lra.
  - apply pow_lt. lra.
Qed.

Lemma inv_pos (b : R) : 0 < b -> 0 < 1 / b.
Proof. intro H. unfold Rdiv. rewrite Rmult_1_l. now apply Rinv_0_lt_compat. Qed.

Lemma warn_if_bad_silent (a : Complex_t) (text : string) {B : Type} (k : unit -> Eff B)
    (log : ErrLog) :
  real_nonneg a -> bind (warn_if_bad a text) k log = k tt log.
Proof.
  intro H. unfold bind, warn_if_bad. now rewrite bad_amplitudes_false.
Qed.

Lemma warn_if_bad_real (a : Complex_t) (text : string) {B : Type} (k : unit -> Eff B)
    (log : ErrLog) :
  imag a = 0 ->
  bind (warn_if_bad a text) k log =
  k tt (if Rlt_bool (real a) 0 then log ++ [mkError "std::cout" text] else log).
Proof.
  intro H. unfold bind, warn_if_bad. rewrite bad_amplitudes_real by assumption.
  destruct (Rlt_bool (real a) 0); reflexivity.
Qed.

Lemma bind_index_0 (v : TFourVectorReal) {B : Type} (k : R -> Eff B) (log : ErrLog) :
  bind (operator_index v 0) k log = k (vt v) log.
Proof. unfold bind. now rewrite operator_index_in_range by lia. Qed.

Lemma Bremsstrahlung_ampSquared_imag invAmp eI eF gF :
  Hermitian (Lepton_SDM eI) -> Hermitian (Lepton_SDM eF) -> Hermitian (Photon_SDM gF) ->
  imag (Bremsstrahlung_ampSquared invAmp eI eF gF) = 0.
Proof.
  intros. rewrite Bremsstrahlung_ampSquared_spin_sum. apply spin_sum_real. legs_hyp.
Qed.

Lemma PairProduction_ampSquared_imag invAmp gI eF pF :
  Hermitian (Photon_SDM gI) -> Hermitian (Lepton_SDM eF) -> Hermitian (Lepton_SDM pF) ->
  imag (PairProduction_ampSquared invAmp gI eF pF) = 0.
Proof.
  intros. rewrite PairProduction_ampSquared_spin_sum. apply spin_sum_real. legs_hyp.
Qed.

Lemma TripletProduction_ampSquared_imag invAmp g0 e0 e1 e2 e3 :
  Hermitian (Photon_SDM g0) -> Hermitian (Lepton_SDM e0) ->
  Hermitian (Lepton_SDM e1) -> Hermitian (Lepton_SDM e2) ->
  Hermitian (Lepton_SDM e3) ->
  imag (TripletProduction_ampSquared invAmp g0 e0 e1 e2 e3) = 0.
Proof.
  intros. rewrite TripletProduction_ampSquared_spin_sum. apply spin_sum_real. legs_hyp.
Qed.

Lemma eeBremsstrahlung_ampSquared_imag invAmp e0 e1 e2 e3 g0 :
  Hermitian (Lepton_SDM e0) -> Hermitian (Lepton_SDM e1) ->
  Hermitian (Lepton_SDM e2) -> Hermitian (Lepton_SDM e3) ->
  Hermitian (Photon_SDM g0) ->
  imag (eeBremsstrahlung_ampSquared invAmp e0 e1 e2 e3 g0) = 0.
Proof.
  intros. rewrite eeBremsstrahlung_ampSquared_spin_sum. apply spin_sum_real. legs_hyp.
Qed.

Section ReactionFacts.

Context {TDiracMatrix : Type} {ops : DiracMatrixOps TDiracMatrix}.
Variables TDiracSpinor TFourVectorComplex : Type.
Variable Slash : TFourVectorReal -> TDiracMatrix.
Variable SlashComplex : TFourVectorComplex -> TDiracMatrix.
Variable dm_apply : TDiracMatrix -> TDiracSpinor -> TDiracSpinor.
Variable Spinor_ScalarProd : TDiracSpinor -> TDiracSpinor -> Complex_t.
Variables SetStateU SetStateV : TFourVectorReal -> LDouble_t -> TDiracSpinor.
Variables Eps EpsStar : TPhoton -> Int_t -> TFourVectorComplex.
Variable gamma : nat -> TDiracMatrix.
Variables hbarcSqr alphaQED : LDouble_t.


(** X25. [Compton] returns a value that is not negative, reporting
    nothing, when [hbarcSqr] is not negative, the spin-density matrices
    are diagonal with non-negative elements, the energies of the incoming
    photon and electron are positive and the scalar product of the final
    electron and photon momenta is positive. *)
Theorem Compton_nonneg (gIn : TPhoton) (eIn : TLepton) (gOut : TPhoton) (eOut : TLepton)
    (log : ErrLog) :
  0 <= hbarcSqr ->
  diagonal_nonneg (Photon_SDM gIn) -> diagonal_nonneg (Lepton_SDM eIn) ->
  diagonal_nonneg (Photon_SDM gOut) -> diagonal_nonneg (Lepton_SDM eOut) ->
  0 < vt (Photon_Mom gIn) -> 0 < vt (Lepton_Mom eIn) ->
  0 < ScalarProd (Lepton_Mom eOut) (Photon_Mom gOut) ->
  exists diffXsect : LDouble_t,
    (Compton TDiracSpinor TFourVectorComplex Slash SlashComplex dm_apply
        Spinor_ScalarProd SetStateU Eps EpsStar hbarcSqr alphaQED) gIn eIn gOut eOut log =
        (Some diffXsect, log) /\ 0 <= diffXsect.
Proof.
  intros Hh H1 H2 H3 H4 Hg He Hs.
  unfold Compton, call, Compton_body.
  rewrite !step_index_0. cbv zeta. rewrite then_return.
  eexists. split; [reflexivity |].
  match goal with |- context [Compton_ampSquared ?a eIn eOut gIn gOut] =>
    destruct (Compton_ampSquared_real_nonneg a eIn eOut gIn gOut H2 H4 H1 H3) as [_ Hre]
  end.
  apply Rmult_le_pos.
  - assert (Ha2 : 0 <= sqr alphaQED) by (unfold sqr; nra).
    remember (sqr alphaQED) as a2. repeat apply Rmult_le_pos; assumption.
  - apply div_nonneg.
    + apply Rmult_le_pos; [lra |]. apply div_nonneg; [| lra].
      apply div_nonneg; [unfold sqr; nra | assumption].
    + pose proof (Length_nonneg (Lepton_Mom eIn)).
      apply Rmult_lt_0_compat; lra.
Qed.

(** X26. [Bremsstrahlung] prints no warning and returns a value that is
    not negative when the constants are not negative, the spin-density
    matrices are diagonal with non-negative elements, and neither the
    incoming electron's energy nor the invariant of [qRecoil] is zero. *)
Theorem Bremsstrahlung_silent_and_nonneg (eIn eOut : TLepton) (gOut : TPhoton)
    (log : ErrLog) :
  0 <= hbarcSqr -> 0 <= alphaQED ->
  diagonal_nonneg (Lepton_SDM eIn) -> diagonal_nonneg (Lepton_SDM eOut) ->
  diagonal_nonneg (Photon_SDM gOut) ->
  vt (Lepton_Mom eIn) <> 0 -> InvariantSqr (Bremsstrahlung_qRecoil eIn eOut gOut) <> 0 ->
  exists diffXsect : LDouble_t,
    (Bremsstrahlung TDiracSpinor TFourVectorComplex Slash SlashComplex dm_apply
        Spinor_ScalarProd SetStateU EpsStar gamma hbarcSqr alphaQED) eIn eOut gOut log =
        (diffXsect, log) /\ 0 <= diffXsect.
Proof.
  intros Hh Ha H1 H2 H3 HE Hq.
  pose proof (Bremsstrahlung_ampSquared_real_nonneg
                ((Bremsstrahlung_invAmp TDiracSpinor TFourVectorComplex Slash
                    SlashComplex dm_apply Spinor_ScalarProd SetStateU EpsStar gamma) eIn
                    eOut gOut) eIn eOut gOut H1 H2 H3) as Hamp.
  unfold Bremsstrahlung. cbv zeta.
  rewrite warn_if_bad_silent by assumption.
  rewrite bind_index_0. unfold ret. eexists. split; [reflexivity |].
  destruct Hamp as [_ Hre].
  apply div_nonneg; [| apply sqr_pos; assumption].
  apply mul_nonneg4; try assumption; [now apply cube_nonneg |].
  apply div_nonneg; [lra |]. apply sqr_pos. pose proof PI__pos. nra.
Qed.

(** X27. [PairProduction] prints no warning and returns a value that is
    not negative when the constants are not negative, the spin-density
    matrices are diagonal with non-negative elements, and neither the
    photon's energy nor the invariant of [qRecoil] is zero. *)
Theorem PairProduction_silent_and_nonneg (gIn : TPhoton) (eOut pOut : TLepton)
    (log : ErrLog) :
  0 <= hbarcSqr -> 0 <= alphaQED ->
  diagonal_nonneg (Photon_SDM gIn) -> diagonal_nonneg (Lepton_SDM eOut) ->
  diagonal_nonneg (Lepton_SDM pOut) ->
  vt (Photon_Mom gIn) <> 0 -> InvariantSqr (PairProduction_qRecoil gIn eOut pOut) <> 0 ->
  exists diffXsect : LDouble_t,
    (PairProduction TDiracSpinor TFourVectorComplex Slash SlashComplex dm_apply
        Spinor_ScalarProd SetStateU SetStateV Eps gamma hbarcSqr alphaQED) gIn eOut pOut log
        = (diffXsect, log) /\ 0 <= diffXsect.
Proof.
  intros Hh Ha H1 H2 H3 HE Hq.
  pose proof (PairProduction_ampSquared_real_nonneg
                ((PairProduction_invAmp TDiracSpinor TFourVectorComplex Slash
                    SlashComplex dm_apply Spinor_ScalarProd SetStateU SetStateV Eps gamma)
                    gIn eOut pOut) gIn eOut pOut H1 H2 H3) as Hamp.
  unfold PairProduction. cbv zeta.
  rewrite warn_if_bad_silent by assumption.
  rewrite bind_index_0. unfold ret. eexists. split; [reflexivity |].
  destruct Hamp as [_ Hre].
  apply div_nonneg; [| apply sqr_pos; assumption].
  apply mul_nonneg4; try assumption; [now apply cube_nonneg |].
  apply div_nonneg; [lra |]. apply sqr_pos. pose proof PI__pos. nra.
Qed.

(** X28. [TripletProduction] prints no warning and returns a value that
    is not negative when the constants are not negative, the spin-density
    matrices are diagonal with non-negative elements, the energies of the
    photon, the incoming electron and [eOut3] are positive and the pair
    [pOut + eOut2] has non-zero three-momentum. *)
Theorem TripletProduction_silent_and_nonneg (gIn : TPhoton)
    (eIn pOut eOut2 eOut3 : TLepton) (log : ErrLog) :
  0 <= hbarcSqr -> 0 <= alphaQED ->
  diagonal_nonneg (Photon_SDM gIn) -> diagonal_nonneg (Lepton_SDM eIn) ->
  diagonal_nonneg (Lepton_SDM pOut) -> diagonal_nonneg (Lepton_SDM eOut2) ->
  diagonal_nonneg (Lepton_SDM eOut3) ->
  0 < vt (Photon_Mom gIn) -> 0 < vt (Lepton_Mom eIn) -> 0 < vt (Lepton_Mom eOut3) ->
  Length (operator_plus (Lepton_Mom pOut) (Lepton_Mom eOut2)) <> 0 ->
  exists diffXsect : LDouble_t,
    (TripletProduction TDiracSpinor TFourVectorComplex Slash SlashComplex dm_apply
        Spinor_ScalarProd SetStateU SetStateV Eps gamma hbarcSqr alphaQED) gIn eIn pOut
        eOut2 eOut3 log = (diffXsect, log) /\
    0 <= diffXsect.
Proof.
  intros Hh Ha H0 H1 H2 H3 H4 Hg He0 He3 HL.
  pose proof (TripletProduction_ampSquared_real_nonneg
                ((TripletProduction_invAmp TDiracSpinor TFourVectorComplex Slash
                    SlashComplex dm_apply Spinor_ScalarProd SetStateU SetStateV Eps gamma)
                    gIn eIn pOut eOut2 eOut3)
                gIn eIn pOut eOut2 eOut3 H0 H1 H2 H3 H4) as Hamp.
  unfold TripletProduction. cbv zeta.
  rewrite warn_if_bad_silent by assumption.
  rewrite !bind_index_0. unfold ret. eexists. split; [reflexivity |].
  destruct Hamp as [_ Hre].
  pose proof (Length_nonneg (Lepton_Mom eIn)) as HL0.
  pose proof (Length_nonneg (operator_plus (Lepton_Mom pOut) (Lepton_Mom eOut2))) as HL12.
  apply Rmult_le_pos; [| left; apply piFactor_pos].
  apply Rmult_le_pos.
  - apply div_nonneg; [| apply Rmult_lt_0_compat; lra].
    pose proof (cube_nonneg alphaQED Ha) as Ha3.
    remember (alphaQED ^ 3) as a3. repeat apply Rmult_le_pos; assumption.
  - left. apply inv_pos. apply Rmult_lt_0_compat; lra.
Qed.

(** X29. [eeBremsstrahlung] prints no warning and returns a value that
    is not negative when the constants are not negative, the spin-density
    matrices are diagonal with non-negative elements, the energy of
    [eIn0] is not zero and those of [eIn1] and [eOut3] are positive. *)
Theorem eeBremsstrahlung_silent_and_nonneg (eIn0 eIn1 eOut2 eOut3 : TLepton)
    (gOut : TPhoton) (log : ErrLog) :
  0 <= hbarcSqr -> 0 <= alphaQED ->
  diagonal_nonneg (Lepton_SDM eIn0) -> diagonal_nonneg (Lepton_SDM eIn1) ->
  diagonal_nonneg (Lepton_SDM eOut2) -> diagonal_nonneg (Lepton_SDM eOut3) ->
  diagonal_nonneg (Photon_SDM gOut) ->
  vt (Lepton_Mom eIn0) <> 0 -> 0 < vt (Lepton_Mom eIn1) -> 0 < vt (Lepton_Mom eOut3) ->
  exists diffXsect : LDouble_t,
    (eeBremsstrahlung TDiracSpinor TFourVectorComplex Slash SlashComplex dm_apply
        Spinor_ScalarProd SetStateU EpsStar gamma hbarcSqr alphaQED) eIn0 eIn1 eOut2 eOut3
        gOut log = (diffXsect, log) /\
    0 <= diffXsect.
Proof.
  intros Hh Ha H0 H1 H2 H3 H4 He0 He1 He3.
  pose proof (eeBremsstrahlung_ampSquared_real_nonneg
                ((eeBremsstrahlung_invAmp TDiracSpinor TFourVectorComplex Slash
                    SlashComplex dm_apply Spinor_ScalarProd SetStateU EpsStar gamma) eIn0
                    eIn1 eOut2 eOut3 gOut)
                eIn0 eIn1 eOut2 eOut3 gOut H0 H1 H2 H3 H4) as Hamp.
  unfold eeBremsstrahlung. cbv zeta.
  rewrite warn_if_bad_silent by assumption.
  rewrite !bind_index_0. unfold ret. eexists. split; [reflexivity |].
  destruct Hamp as [_ Hre].
  apply Rmult_le_pos.
  - pose proof (cube_nonneg alphaQED Ha) as Ha3.
    remember (alphaQED ^ 3) as a3. repeat apply Rmult_le_pos; assumption.
  - apply div_nonneg; [| assert (0 < vt (Lepton_Mom eIn1) * vt (Lepton_Mom eOut3))
                           by (now apply Rmult_lt_0_compat); lra].
    apply div_nonneg; [lra |]. apply sqr_pos. pose proof PI__pos. nra.
Qed.

(** X30. With Hermitian spin-density matrices, [Bremsstrahlung],
    [PairProduction], [TripletProduction] and [eeBremsstrahlung] print
    their "bad amplitudes" warning exactly when the real part of
    [ampSquared] is negative, once, and report nothing else. *)
Theorem warning_exactly_for_negative_ampSquared (log : ErrLog) :
  (forall eIn eOut gOut,
     Hermitian (Lepton_SDM eIn) -> Hermitian (Lepton_SDM eOut) ->
     Hermitian (Photon_SDM gOut) ->
     snd ((Bremsstrahlung TDiracSpinor TFourVectorComplex Slash SlashComplex dm_apply
         Spinor_ScalarProd SetStateU EpsStar gamma hbarcSqr alphaQED) eIn eOut gOut log) =
     if Rlt_bool (real (Bremsstrahlung_ampSquared ((Bremsstrahlung_invAmp TDiracSpinor
         TFourVectorComplex Slash SlashComplex dm_apply Spinor_ScalarProd SetStateU EpsStar
         gamma) eIn eOut gOut)
                          eIn eOut gOut)) 0
     then log ++ [mkError "std::cout" "Warning: bad Bremsstrahlung amplitudes:"]
     else log) /\
  (forall gIn eOut pOut,
     Hermitian (Photon_SDM gIn) -> Hermitian (Lepton_SDM eOut) ->
     Hermitian (Lepton_SDM pOut) ->
     snd ((PairProduction TDiracSpinor TFourVectorComplex Slash SlashComplex dm_apply
         Spinor_ScalarProd SetStateU SetStateV Eps gamma hbarcSqr alphaQED) gIn eOut pOut
         log) =
     if Rlt_bool (real (PairProduction_ampSquared ((PairProduction_invAmp TDiracSpinor
         TFourVectorComplex Slash SlashComplex dm_apply Spinor_ScalarProd SetStateU
         SetStateV Eps gamma) gIn eOut pOut)
                          gIn eOut pOut)) 0
     then log ++ [mkError "std::cout" "Warning: bad PairProduction amplitudes:"]
     else log) /\
  (forall gIn eIn pOut eOut2 eOut3,
     Hermitian (Photon_SDM gIn) -> Hermitian (Lepton_SDM eIn) ->
     Hermitian (Lepton_SDM pOut) -> Hermitian (Lepton_SDM eOut2) ->
     Hermitian (Lepton_SDM eOut3) ->
     snd ((TripletProduction TDiracSpinor TFourVectorComplex Slash SlashComplex dm_apply
         Spinor_ScalarProd SetStateU SetStateV Eps gamma hbarcSqr alphaQED) gIn eIn pOut
         eOut2 eOut3 log) =
     if Rlt_bool (real (TripletProduction_ampSquared
                          ((TripletProduction_invAmp TDiracSpinor TFourVectorComplex
                              Slash SlashComplex dm_apply Spinor_ScalarProd SetStateU
                              SetStateV Eps gamma) gIn eIn pOut eOut2 eOut3)
                          gIn eIn pOut eOut2 eOut3)) 0
     then log ++ [mkError "std::cout" "Warning: bad triplets amplitude: "]
     else log) /\
  (forall eIn0 eIn1 eOut2 eOut3 gOut,
     Hermitian (Lepton_SDM eIn0) -> Hermitian (Lepton_SDM eIn1) ->
     Hermitian (Lepton_SDM eOut2) -> Hermitian (Lepton_SDM eOut3) ->
     Hermitian (Photon_SDM gOut) ->
     snd ((eeBremsstrahlung TDiracSpinor TFourVectorComplex Slash SlashComplex dm_apply
         Spinor_ScalarProd SetStateU EpsStar gamma hbarcSqr alphaQED) eIn0 eIn1 eOut2 eOut3
         gOut log) =
     if Rlt_bool (real (eeBremsstrahlung_ampSquared
                          ((eeBremsstrahlung_invAmp TDiracSpinor TFourVectorComplex
                              Slash SlashComplex dm_apply Spinor_ScalarProd SetStateU
                              EpsStar gamma) eIn0 eIn1 eOut2 eOut3 gOut)
                          eIn0 eIn1 eOut2 eOut3 gOut)) 0
     then log ++ [mkError "std::cout" "Warning: bad eeBremsstrahlung amplitude: "]
     else log).
Proof.
  split; [| split; [| split]].
  - intros eIn eOut gOut H1 H2 H3. unfold Bremsstrahlung. cbv zeta.
    rewrite warn_if_bad_real by now apply Bremsstrahlung_ampSquared_imag.
    rewrite bind_index_0. reflexivity.
  - intros gIn eOut pOut H1 H2 H3. unfold PairProduction. cbv zeta.
    rewrite warn_if_bad_real by now apply PairProduction_ampSquared_imag.
    rewrite bind_index_0. reflexivity.
  - intros gIn eIn pOut eOut2 eOut3 H0 H1 H2 H3 H4. unfold TripletProduction. cbv zeta.
    rewrite warn_if_bad_real by now apply TripletProduction_ampSquared_imag.
    rewrite !bind_index_0. reflexivity.
  - intros eIn0 eIn1 eOut2 eOut3 gOut H0 H1 H2 H3 H4. unfold eeBremsstrahlung. cbv zeta.
    rewrite warn_if_bad_real by now apply eeBremsstrahlung_ampSquared_imag.
    rewrite !bind_index_0. reflexivity.
Qed.

End ReactionFacts.

Lemma Hermitian_unit_SDM : Hermitian unit_SDM.
Proof.
  intros i j Hi Hj.
  assert (Hc : (i = 0 \/ i = 1)%nat) by lia. assert (Hd : (j = 0 \/ j = 1)%nat) by lia.
  destruct Hc as [-> | ->], Hd as [-> | ->]; apply Complex_eq; simpl; lra.
Qed.

Lemma Compton_nonneg_witness :
  exists diffXsect : LDouble_t,
    Compton example_spinor Complex_t example_Slash example_SlashComplex example_apply
            example_ScalarProd example_SetState example_Eps example_Eps 1 1
            example_photon example_electron example_photon example_electron' [] =
      (Some diffXsect, []) /\
    0 <= diffXsect.
Proof.
  apply Compton_nonneg; try apply unit_SDM_diagonal_nonneg;
    try (simpl; lra).
  rewrite ScalarProd_components; simpl; lra.
Defined.

Lemma Bremsstrahlung_silent_and_nonneg_witness :
  exists diffXsect : LDouble_t,
    Bremsstrahlung example_spinor Complex_t example_Slash example_SlashComplex
                   example_apply example_ScalarProd example_SetState example_Eps
                   example_gamma 1 1
                   example_electron example_electron' example_photon [] =
      (diffXsect, []) /\
    0 <= diffXsect.
Proof.
  apply Bremsstrahlung_silent_and_nonneg; try apply unit_SDM_diagonal_nonneg;
    try (simpl; lra).
  rewrite InvariantSqr_components; simpl; lra.
Defined.

Lemma PairProduction_silent_and_nonneg_witness :
  exists diffXsect : LDouble_t,
    PairProduction example_spinor Complex_t example_Slash example_SlashComplex
                   example_apply example_ScalarProd example_SetState example_SetState
                   example_Eps example_gamma 1 1
                   example_photon example_electron example_electron' [] =
      (diffXsect, []) /\
    0 <= diffXsect.
Proof.
  apply PairProduction_silent_and_nonneg; try apply unit_SDM_diagonal_nonneg;
    try (simpl; lra).
  rewrite InvariantSqr_components; simpl; lra.
Defined.

Lemma TripletProduction_silent_and_nonneg_witness :
  exists diffXsect : LDouble_t,
    TripletProduction example_spinor Complex_t example_Slash example_SlashComplex
                      example_apply example_ScalarProd example_SetState example_SetState
                      example_Eps example_gamma 1 1
                      example_photon example_electron example_electron'
                      example_electron example_electron' [] =
      (diffXsect, []) /\
    0 <= diffXsect.
Proof.
  apply TripletProduction_silent_and_nonneg; try apply unit_SDM_diagonal_nonneg;
    try (simpl; lra).
  unfold Length, LengthSqr; simpl. intro H.
  apply sqrt_eq_0 in H; lra.
Defined.

Lemma eeBremsstrahlung_silent_and_nonneg_witness :
  exists diffXsect : LDouble_t,
    eeBremsstrahlung example_spinor Complex_t example_Slash example_SlashComplex
                     example_apply example_ScalarProd example_SetState example_Eps
                     example_gamma 1 1
                     example_electron example_electron' example_electron
                     example_electron' example_photon [] =
      (diffXsect, []) /\
    0 <= diffXsect.
Proof.
  apply eeBremsstrahlung_silent_and_nonneg; try apply unit_SDM_diagonal_nonneg;
    simpl; lra.
Defined.

Lemma warning_exactly_for_negative_ampSquared_witness :
  snd (Bremsstrahlung example_spinor Complex_t example_Slash example_SlashComplex
         example_apply example_ScalarProd example_SetState example_Eps
         example_gamma 1 1 example_electron example_electron' example_photon []) =
  if Rlt_bool
       (real (Bremsstrahlung_ampSquared
                (Bremsstrahlung_invAmp example_spinor Complex_t example_Slash
                   example_SlashComplex example_apply example_ScalarProd
                   example_SetState example_Eps example_gamma
                   example_electron example_electron' example_photon)
                example_electron example_electron' example_photon)) 0
  then [] ++ [mkError "std::cout" "Warning: bad Bremsstrahlung amplitudes:"]
  else [].
Proof.
  apply (proj1 (warning_exactly_for_negative_ampSquared example_spinor Complex_t
                  example_Slash example_SlashComplex example_apply example_ScalarProd
                  example_SetState example_SetState example_Eps example_Eps
                  example_gamma 1 1 []));
    apply Hermitian_unit_SDM.
Defined.
